(** * Social Stream backend: scheduled publishing and account linking

    A shallow embedding of
      - [src/services/scheduler.service.js]  (processScheduledPost,
        checkScheduledPosts),
      - the publish methods of [src/services/*.service.js] as far as the
        scheduler calls them,
      - [src/controllers/social.controller.js] (saveAccountToStorage, the
        OAuth callbacks with their processed-code sets, the disconnect
        handlers),
      - [src/controllers/post.controller.js] (publishToSocialMedia and
        the toggle of likePost) with the validators of
        [src/models/Post.model.js],
      - the lookup methods of the user document (models/User.model.js),
      - [src/services/instagram.service.js] (completeOAuthFlow),
    followed by the properties the specification states about them and
    further properties of the same code.

    Conventions.  An [async] function is a state transformer that may
    throw: [M A := State -> Result A * State].  The two Mongo collections,
    the process-wide sets and the pending timers are part of the state;
    everything behind the HTTP calls of the platform services is an opaque
    world [W] driven by the oracles of [Env]; whether a Mongo operation is
    answered is read from a script of coming answers.  Dates are
    milliseconds as [Z]; a string is held as its UTF-8 bytes, its length
    and its substrings are counted in UTF-16 code units as JavaScript
    counts them, and [toLowerCase] is the ASCII one.  A callback and a dispatch run to their end before the next
    event is taken (Node runs them on one thread; the interleavings at
    their [await]s are not modelled).

    Layout: the embedding, the vocabulary of the properties, a concrete
    deployment for the examples, then the lemmas and theorems. *)

From Stdlib Require Import ZArith Ascii String Permutation Sorted.
From stdpp Require Import base gmap strings list.

Local Open Scope string_scope.
Local Open Scope list_scope.

(* ===================================================================== *)
(** ** JavaScript strings *)
(* ===================================================================== *)

Module Js.

(** [c.toLowerCase()] on one ASCII character. *)
Definition lower_ascii (c : ascii) : ascii :=
  let n := nat_of_ascii c in
  if (65 <=? n)%nat && (n <=? 90)%nat then ascii_of_nat (n + 32) else c.

(** [s.toLowerCase()] *)
Fixpoint toLowerCase (s : string) : string :=
  match s with
  | EmptyString => EmptyString
  | String c s' => String (lower_ascii c) (toLowerCase s')
  end.

(** [s.includes(sub)] *)
Fixpoint includes (s sub : string) : bool :=
  if String.prefix sub s then true
  else match s with
       | EmptyString => false
       | String _ s' => includes s' sub
       end.

(** Truthiness of a possibly-undefined string: [undefined] and [''] are
    falsy. *)
Definition truthy (o : option string) : bool :=
  match o with
  | Some s => negb (String.eqb s "")
  | None => false
  end.

(** [a || b] where [a] is a possibly-undefined string. *)
Definition or_else (a : option string) (b : string) : string :=
  match a with
  | Some s => if String.eqb s "" then b else s
  | None => b
  end.

(** A JavaScript string is a sequence of UTF-16 code units; here it is
    held as its bytes in (generalized) UTF-8.  [units b] is the number of
    code units of the character that starts at byte [b]: none for a
    continuation byte, two for the first byte of a character outside the
    basic plane (a surrogate pair), one otherwise. *)
Definition units (b : ascii) : nat :=
  let n := nat_of_ascii b in
  if (n <? 128)%nat then 1
  else if (n <? 192)%nat then 0
  else if (n <? 240)%nat then 1
  else 2.

(** [s.length] *)
Fixpoint length (s : string) : nat :=
  match s with
  | EmptyString => 0
  | String b s' => units b + length s'
  end.

(** The high surrogate, as its three bytes, of the character outside the
    basic plane whose first byte is [b0] and whose next bytes head [rest]. *)
Definition high_surrogate (b0 : ascii) (rest : string) : string :=
  match rest with
  | String b1 (String b2 _) =>
      let v := ((nat_of_ascii b0 mod 8) * 256 + (nat_of_ascii b1 mod 64) * 4
                + (nat_of_ascii b2 mod 64) / 16 - 64) mod 1024 in
      String (ascii_of_nat 237)
        (String (ascii_of_nat (160 + v / 64))
           (String (ascii_of_nat (128 + v mod 64)) EmptyString))
  | _ => EmptyString
  end.

(** [s.substring(0, n)]: the first [n] code units; a cut inside a
    surrogate pair leaves the high surrogate. *)
Fixpoint substring0 (n : nat) (s : string) : string :=
  match s with
  | EmptyString => EmptyString
  | String b s' =>
      match units b with
      | 0 => String b (substring0 n s')
      | u => if (u <=? n)%nat then String b (substring0 (n - u) s')
             else if (n =? 0)%nat then EmptyString
             else high_surrogate b s'
      end
  end.

(** [Number.MAX_SAFE_INTEGER]: up to it integers are held exactly by a
    Number, and adding or subtracting 1 is exact. *)
Definition MAX_SAFE_INTEGER : Z := (2 ^ 53 - 1)%Z.

End Js.

(* ===================================================================== *)
(** ** Data model (models/Post.model.js, models/User.model.js) *)
(* ===================================================================== *)

Definition ObjectId := string.
Definition Date := Z.

Inductive PostStatus := draft | scheduled | published | failed.

#[global] Instance PostStatus_eq_dec : EqDecision PostStatus.
Proof. solve_decision. Defined.

(** One document of the [Post] collection.  [post_platforms] is an
    [option] because the scheduler reads it as [post.platforms ||
    [post.platform]]. *)
Record Post := mkPost {
  post_id : ObjectId;
  post_user : ObjectId;
  post_content : string;
  post_mediaUrls : list string;
  post_platforms : option (list string);
  post_platform : string;
  post_scheduledDate : option Date;
  post_status : PostStatus
}.

Definition set_status (s : PostStatus) (p : Post) : Post :=
  mkPost (post_id p) (post_user p) (post_content p) (post_mediaUrls p)
         (post_platforms p) (post_platform p) (post_scheduledDate p) s.

(** One element of [user.connectedAccounts]. *)
Record ConnectedAccount := mkAccount {
  acc_platform : string;
  acc_accountId : string;
  acc_accountName : string;
  acc_accessToken : string;
  acc_refreshToken : option string;
  acc_expiresAt : option Date;
  acc_isActive : bool;
  acc_connectedAt : option Date;
  acc_pageId : option string;
  acc_pageAccessToken : option string;
  acc_businessAccountId : option string
}.

Record User := mkUser {
  user_id : ObjectId;
  user_firebaseUid : option string;
  user_email : option string;
  user_bio : option string;
  user_connectedAccounts : list ConnectedAccount
}.

Definition set_connectedAccounts (l : list ConnectedAccount) (u : User) : User :=
  mkUser (user_id u) (user_firebaseUid u) (user_email u) (user_bio u) l.

(** The [enum] validator of a String path. *)
Definition in_enum (enum : list string) (x : string) : bool :=
  existsb (String.eqb x) enum.

(** The [enum] of [platform] in the connected-account schema. *)
Definition ACCOUNT_PLATFORM_ENUM : list string :=
  ["facebook"; "instagram"; "pinterest"].

(** The validators of the connected-account schema: [platform] is of the
    enum, [accountId], [accountName] and [accessToken] are required. *)
Definition valid_account (acc : ConnectedAccount) : bool :=
  in_enum ACCOUNT_PLATFORM_ENUM (acc_platform acc)
  && negb (String.eqb (acc_accountId acc) "")
  && negb (String.eqb (acc_accountName acc) "")
  && negb (String.eqb (acc_accessToken acc) "").

(** The validators of the User schema: [firebaseUid] and [email] are
    required, [bio] has at most 500 code units, and every connected
    account validates. *)
Definition valid_user (u : User) : bool :=
  Js.truthy (user_firebaseUid u)
  && Js.truthy (user_email u)
  && (Js.length (default "" (user_bio u)) <=? 500)%nat
  && forallb valid_account (user_connectedAccounts u).

(** A page as returned by [facebookService.getUserPages]. *)
Record Page := mkPage {
  page_pageId : string;
  page_pageAccessToken : string;
  page_tasks : list string
}.

(** What a publish method of a platform service resolves to:
    [{ success: true, postId | mediaId | pinId, platform }]. *)
Record PostResult := mkPostResult {
  pr_success : bool;
  pr_externalId : string;
  pr_platform : string
}.

(** Entries of the scheduler's local [results] and [errors] arrays. *)
Record ResultEntry := mkResultEntry {
  re_platform : string;
  re_success : bool;
  re_externalId : option string
}.

Record ErrorEntry := mkErrorEntry {
  ee_platform : string;
  ee_error : string
}.

(** [{ platform: platformName, success: true, ...postResult }]: the spread
    comes last, so the fields of a defined [postResult] win. *)
Definition result_entry (platformName : string) (postResult : option PostResult)
  : ResultEntry :=
  match postResult with
  | Some r => mkResultEntry (pr_platform r) (pr_success r) (Some (pr_externalId r))
  | None => mkResultEntry platformName true None
  end.

(** The remote operations the backend issues, with their arguments. *)
Inductive AdapterCall :=
| CompleteOAuthFlow (platform code : string)
| GetUserPages (accessToken : string)
| PostToPage (pageAccessToken pageId message : string) (photoUrl : option string)
| PublishVideo (igUserId accessToken videoUrl caption : string)
| PublishPhoto (igUserId accessToken : string) (imageUrl : option string)
               (caption : string)
| CreatePin (accessToken boardId title description : string)
            (imageUrl : option string).

(** ** Results and exceptions *)

Inductive Result (A : Type) :=
| Ok (a : A)
| Throw (message : string).
Arguments Ok {A} a.
Arguments Throw {A} message.

Inductive Platform := Facebook | Instagram | Pinterest.

#[global] Instance Platform_eq_dec : EqDecision Platform.
Proof. solve_decision. Defined.

Definition platform_name (pf : Platform) : string :=
  match pf with
  | Facebook => "facebook"
  | Instagram => "instagram"
  | Pinterest => "pinterest"
  end.

(** What [completeOAuthFlow] of a platform service resolves to, restricted
    to the fields [saveAccountToStorage] reads. *)
Record AccountData := mkAccountData {
  ad_platform : string;
  ad_accountId : string;
  ad_accountName : string;
  ad_username : string;
  ad_accessToken : string;
  ad_refreshToken : option string;
  ad_expiresAt : option Date;
  ad_connectedAt : option Date;
  ad_pages : list Page;
  ad_pageAccessToken : option string;
  ad_igId : option string
}.

(** The three process-wide sets [global.processedFacebookCodes],
    [global.processedInstagramCodes], [global.processedPinterestCodes];
    [None] is [undefined]. *)
Record Globals := mkGlobals {
  processedFacebookCodes : option (gset string);
  processedInstagramCodes : option (gset string);
  processedPinterestCodes : option (gset string)
}.

(** A pending [setTimeout(() => { if (global.X) global.X.delete(code) }, ms)]. *)
Record Timer := mkTimer {
  timer_due : Date;
  timer_platform : Platform;
  timer_code : string
}.

(* ===================================================================== *)
(** ** Process state and the asynchronous-function monad *)
(* ===================================================================== *)

Section Backend.

(** The remote side: platform APIs and everything else behind HTTP. *)
Context {W : Type}.

Record State := mkState {
  st_posts : list Post;          (* Post collection, oldest insert first *)
  st_users : list User;          (* User collection *)
  st_dbFaults : list bool;       (* outcome of the coming Mongo operations:
                                    [true] = that operation rejects *)
  st_calls : list AdapterCall;   (* remote operations issued so far *)
  st_globals : Globals;
  st_timers : list Timer;
  st_clock : Date;               (* Date.now() *)
  st_world : W
}.

Definition set_posts (x : list Post) (s : State) : State :=
  mkState x (st_users s) (st_dbFaults s) (st_calls s) (st_globals s)
          (st_timers s) (st_clock s) (st_world s).
Definition set_users (x : list User) (s : State) : State :=
  mkState (st_posts s) x (st_dbFaults s) (st_calls s) (st_globals s)
          (st_timers s) (st_clock s) (st_world s).
Definition set_dbFaults (x : list bool) (s : State) : State :=
  mkState (st_posts s) (st_users s) x (st_calls s) (st_globals s)
          (st_timers s) (st_clock s) (st_world s).
Definition set_calls (x : list AdapterCall) (s : State) : State :=
  mkState (st_posts s) (st_users s) (st_dbFaults s) x (st_globals s)
          (st_timers s) (st_clock s) (st_world s).
Definition set_globals (x : Globals) (s : State) : State :=
  mkState (st_posts s) (st_users s) (st_dbFaults s) (st_calls s) x
          (st_timers s) (st_clock s) (st_world s).
Definition set_timers (x : list Timer) (s : State) : State :=
  mkState (st_posts s) (st_users s) (st_dbFaults s) (st_calls s) (st_globals s)
          x (st_clock s) (st_world s).
Definition set_clock (x : Date) (s : State) : State :=
  mkState (st_posts s) (st_users s) (st_dbFaults s) (st_calls s) (st_globals s)
          (st_timers s) x (st_world s).
Definition set_world (x : W) (s : State) : State :=
  mkState (st_posts s) (st_users s) (st_dbFaults s) (st_calls s) (st_globals s)
          (st_timers s) (st_clock s) x.

(** An [async] function returning [A]. *)
Definition M (A : Type) : Type := State -> Result A * State.

Definition ret {A} (a : A) : M A := fun s => (Ok a, s).

Definition throw {A} (message : string) : M A := fun s => (Throw message, s).

Definition bind {A B} (m : M A) (k : A -> M B) : M B :=
  fun s =>
    match m s with
    | (Ok a, s') => k a s'
    | (Throw e, s') => (Throw e, s')
    end.

(** [try { m } catch (error) { handler(error.message) }]: the effects of
    [m] up to the throw stay. *)
Definition try_catch {A} (m : M A) (handler : string -> M A) : M A :=
  fun s =>
    match m s with
    | (Ok a, s') => (Ok a, s')
    | (Throw e, s') => handler e s'
    end.

Notation "x <~ m ;; k" := (bind m (fun x => k))
  (at level 100, m at next level, right associativity).

(** [for (const x of l) { acc = body(x, acc) }] *)
Fixpoint for_of {A S} (l : list A) (body : A -> S -> M S) (acc : S) : M S :=
  match l with
  | [] => ret acc
  | x :: l' => acc' <~ body x acc ;; for_of l' body acc'
  end.

(** *** Configuration and oracles *)

Record Env := mkEnv {
  (** [process.env.PINTEREST_BOARD_ID] *)
  PINTEREST_BOARD_ID : option string;
  (** the Graph API exchange of [getUserPages] *)
  remote_pages : string -> W -> Result (list Page) * W;
  (** the HTTP exchange(s) of one publish method; resolves to the id of
      the created post, rejects with the remote error message (empty when
      the response carries none) *)
  remote_publish : AdapterCall -> W -> Result string * W;
  (** [decodeState(state).userId]; [None] when decoding throws *)
  decodeState_userId : string -> option ObjectId;
  (** [<platform>Service.completeOAuthFlow(code)] *)
  completeOAuthFlow : Platform -> string -> W -> Result AccountData * W;
  (** [socialConfig.storage === 'firestore' && firestoreService.isAvailable()] *)
  firestore_enabled : bool;
  (** [firestoreService.save<Platform>Account(firebaseUid, accountData)] *)
  firestore_save : Platform -> string -> AccountData -> W -> Result unit * W
}.

Context (env : Env).

(** *** Mongo operations *)

(** Every Mongo operation first learns whether the store answers: it
    consumes the next entry of [st_dbFaults] (none left: it answers). *)
Definition db_available : M unit :=
  fun s =>
    (match head (st_dbFaults s) with
     | Some true => Throw "store unavailable"
     | _ => Ok tt
     end,
     set_dbFaults (tail (st_dbFaults s)) s).

(** [User.findById(id)] *)
Definition User_findById (id : ObjectId) : M (option User) :=
  _ <~ db_available ;;
  fun s => (Ok (List.find (fun u => String.eqb (user_id u) id) (st_users s)), s).

(** [user.save()]: Mongoose validates the document first and rejects
    with a ValidationError before anything is sent to the store. *)
Definition User_save (u : User) : M unit :=
  if valid_user u then
    _ <~ db_available ;;
    fun s =>
      (Ok tt,
       set_users (map (fun v => if String.eqb (user_id v) (user_id u) then u else v)
                      (st_users s)) s)
  else throw "User validation failed".

(** [post.save()] after an assignment to [post.status]: Mongoose writes
    the modified path of the document with this [_id]. *)
Definition Post_save (p : Post) : M unit :=
  _ <~ db_available ;;
  fun s =>
    (Ok tt,
     set_posts (map (fun q => if String.eqb (post_id q) (post_id p)
                              then set_status (post_status p) q else q)
                    (st_posts s)) s).

(** The filter [{ status: 'scheduled', scheduledDate: { $lte: now } }]. *)
Definition is_due (now : Date) (p : Post) : bool :=
  bool_decide (post_status p = scheduled) &&
  match post_scheduledDate p with
  | Some d => (d <=? now)%Z
  | None => false
  end.

(** The key of a document in the index [{ status: 1, scheduledDate: 1 }]
    of the Post schema, among the documents of one status. *)
Definition index_key (p : Post) : Date := default 0%Z (post_scheduledDate p).

(** [p], which comes before the documents of [l] in the collection, put
    at its place in the index. *)
Fixpoint index_insert (p : Post) (l : list Post) : list Post :=
  match l with
  | [] => [p]
  | q :: l' =>
      if (index_key q <? index_key p)%Z then q :: index_insert p l' else p :: l
  end.

(** Documents in the order of the index: ascending [scheduledDate],
    documents of one date in the order of the collection. *)
Fixpoint index_order (l : list Post) : list Post :=
  match l with
  | [] => []
  | p :: l' => index_insert p (index_order l')
  end.

(** [Post.find({ status: 'scheduled', scheduledDate: { $lte: now } }).limit(n)];
    the query has no [sort]: it is answered from the index
    [{ status: 1, scheduledDate: 1 }] that the schema declares
    (models/Post.model.js), so the cursor runs through the matching
    documents in the order of that index. *)
Definition Post_find_due (now : Date) (n : nat) : M (list Post) :=
  _ <~ db_available ;;
  fun s => (Ok (take n (index_order (List.filter (is_due now) (st_posts s)))), s).

(* ===================================================================== *)
(** ** Platform services (services/*.service.js), publish methods *)
(* ===================================================================== *)

(** Issue one remote publish operation: log it, let the remote side
    answer. *)
Definition remote (c : AdapterCall) : M string :=
  fun s =>
    let '(r, w) := remote_publish env c (st_world s) in
    (r, set_world w (set_calls (st_calls s ++ [c]) s)).

(** The [catch] of a publish method:
    [throw new Error(<remote message> || fallback)]. *)
Definition rethrow {A} (fallback : string) (m : M A) : M A :=
  try_catch m (fun e => throw (Js.or_else (Some e) fallback)).

(** [facebookService.getUserPages(accessToken)] *)
Definition facebookService_getUserPages (accessToken : string) : M (list Page) :=
  fun s =>
    let '(r, w) := remote_pages env accessToken (st_world s) in
    let s' := set_world w (set_calls (st_calls s ++ [GetUserPages accessToken]) s) in
    match r with
    | Ok pages => (Ok pages, s')
    | Throw _ => (Throw "Failed to fetch Facebook pages", s')
    end.

(** [facebookService.postToPage(pageAccessToken, pageId, { message, photoUrl })] *)
Definition facebookService_postToPage (pageAccessToken pageId message : string)
    (photoUrl : option string) : M PostResult :=
  rethrow "Failed to post to Facebook"
    (id <~ remote (PostToPage pageAccessToken pageId message photoUrl) ;;
     ret (mkPostResult true id "facebook")).

(** [instagramService.publishPhoto(igUserId, accessToken, { imageUrl, caption })] *)
Definition instagramService_publishPhoto (igUserId accessToken : string)
    (imageUrl : option string) (caption : string) : M PostResult :=
  rethrow "Failed to publish photo"
    (id <~ remote (PublishPhoto igUserId accessToken imageUrl caption) ;;
     ret (mkPostResult true id "instagram")).

(** [instagramService.publishVideo(igUserId, accessToken, { videoUrl, caption })] *)
Definition instagramService_publishVideo (igUserId accessToken videoUrl caption : string)
  : M PostResult :=
  rethrow "Failed to publish video"
    (id <~ remote (PublishVideo igUserId accessToken videoUrl caption) ;;
     ret (mkPostResult true id "instagram")).

(** [pinterestService.createPin(accessToken, { boardId, title, description, imageUrl })] *)
Definition pinterestService_createPin (accessToken boardId title description : string)
    (imageUrl : option string) : M PostResult :=
  rethrow "Failed to create pin"
    (id <~ remote (CreatePin accessToken boardId title description imageUrl) ;;
     ret (mkPostResult true id "pinterest")).

(* ===================================================================== *)
(** ** services/scheduler.service.js *)
(* ===================================================================== *)

(** [user.connectedAccounts.find(acc =>
       acc.platform.toLowerCase() === platformName.toLowerCase() && acc.isActive)] *)
Definition find_connectedAccount (user : User) (platformName : string)
  : option ConnectedAccount :=
  List.find
    (fun acc =>
       String.eqb (Js.toLowerCase (acc_platform acc)) (Js.toLowerCase platformName)
       && acc_isActive acc)
    (user_connectedAccounts user).

(** [mediaUrl && (mediaUrl.includes('.mp4') || ... '.mov' || ... '.avi')] *)
Definition isVideo (mediaUrl : option string) : bool :=
  match mediaUrl with
  | Some u => Js.includes u ".mp4" || Js.includes u ".mov" || Js.includes u ".avi"
  | None => false
  end.

(** the same with [|| mediaUrl.includes('video')] *)
Definition isVideoForPinterest (mediaUrl : option string) : bool :=
  match mediaUrl with
  | Some u => Js.includes u ".mp4" || Js.includes u ".mov" || Js.includes u ".avi"
              || Js.includes u "video"
  | None => false
  end.

(** The [switch (platformName.toLowerCase())] of processScheduledPost,
    lines 51-133; it has no [default], so any other name leaves
    [postResult] undefined. *)
Definition publish_switch (post : Post) (connectedAccount : ConnectedAccount)
    (platformName : string) : M (option PostResult) :=
  let mediaUrl := head (post_mediaUrls post) in
  let name := Js.toLowerCase platformName in
  if String.eqb name "facebook" then
    userPages <~ facebookService_getUserPages (acc_accessToken connectedAccount) ;;
    match userPages with
    | first :: _ =>
        let page :=
          default first
            (List.find (fun p => existsb (String.eqb "CREATE_CONTENT") (page_tasks p))
                       userPages) in
        postResult <~ facebookService_postToPage (page_pageAccessToken page)
                        (page_pageId page) (post_content post) mediaUrl ;;
        ret (Some postResult)
    | [] => throw "No Facebook pages available"
    end
  else if String.eqb name "instagram" then
    if Js.truthy (acc_businessAccountId connectedAccount) then
      let igUserId := Js.or_else (acc_businessAccountId connectedAccount) "" in
      let accessToken :=
        Js.or_else (acc_pageAccessToken connectedAccount)
                   (acc_accessToken connectedAccount) in
      if isVideo mediaUrl then
        postResult <~ instagramService_publishVideo igUserId accessToken
                        (Js.or_else mediaUrl "") (post_content post) ;;
        ret (Some postResult)
      else
        postResult <~ instagramService_publishPhoto igUserId accessToken mediaUrl
                        (post_content post) ;;
        ret (Some postResult)
    else throw "Instagram Business account not linked"
  else if String.eqb name "pinterest" then
    if isVideoForPinterest mediaUrl then
      throw "Pinterest only supports image pins. Videos are not supported."
    else
      match PINTEREST_BOARD_ID env with
      | Some boardId =>
          if String.eqb boardId "" then
            throw "PINTEREST_BOARD_ID not configured in environment variables"
          else
            postResult <~ pinterestService_createPin (acc_accessToken connectedAccount)
                            boardId (Js.substring0 100 (post_content post))
                            (post_content post) mediaUrl ;;
            ret (Some postResult)
      | None => throw "PINTEREST_BOARD_ID not configured in environment variables"
      end
  else ret None.

(** The two local arrays of processScheduledPost. *)
Definition Outcomes : Type := list ResultEntry * list ErrorEntry.

(** One iteration of [for (const platformName of platforms)], lines 32-148. *)
Definition publish_iteration (post : Post) (user : User) (platformName : string)
    (acc : Outcomes) : M Outcomes :=
  let '(results, errors) := acc in
  if String.eqb platformName "all" then ret (results, errors)        (* continue *)
  else
    match find_connectedAccount user platformName with
    | None =>
        ret (results,
             (errors ++ [mkErrorEntry platformName "Account not connected or inactive"])%list)
    | Some connectedAccount =>
        try_catch
          (postResult <~ publish_switch post connectedAccount platformName ;;
           ret ((results ++ [result_entry platformName postResult])%list, errors))
          (fun message =>
             ret (results, (errors ++ [mkErrorEntry platformName message])%list))
    end.

(** [post.platforms || [post.platform]] *)
Definition post_targets (post : Post) : list string :=
  match post_platforms post with
  | Some l => l
  | None => [post_platform post]
  end.

(** Lines 27-148: the loop over the platforms, from empty arrays. *)
Definition publish_loop (post : Post) (user : User) : M Outcomes :=
  for_of (post_targets post) (publish_iteration post user) ([], []).

(** [results.length > 0 ? 'published' : 'failed'] *)
Definition terminal_status (results : list ResultEntry) : PostStatus :=
  if (0 <? length results)%nat then published else failed.

(** [processScheduledPost(post)] *)
Definition processScheduledPost (post : Post) : M unit :=
  try_catch
    (user <~ User_findById (post_user post) ;;
     match user with
     | None => ret tt                                   (* return *)
     | Some user =>
         outcomes <~ publish_loop post user ;;
         Post_save (set_status (terminal_status (fst outcomes)) post)
     end)
    (fun _ =>
       (* Mark post as failed *)
       Post_save (set_status failed post)).

(** *** The per-platform outcomes of one dispatch

    The specification speaks of one outcome per targeted platform
    ([DispatchOutcome]: platform, ok).  [attempt] is the publish attempt
    for one platform seen that way, [dispatch_outcomes] the outcomes of
    the attempts in the order the loop makes them. *)

Definition attempt (post : Post) (user : User) (platformName : string) : M bool :=
  match find_connectedAccount user platformName with
  | None => ret false
  | Some connectedAccount =>
      try_catch
        (_ <~ publish_switch post connectedAccount platformName ;; ret true)
        (fun _ => ret false)
  end.

(** The test the loop makes before it goes on with a platform. *)
Definition not_all (p : string) : bool := negb (String.eqb p "all").

(** The targeted platforms: the loop skips the pseudo-platform ['all']. *)
Definition targeted (post : Post) : list string :=
  List.filter not_all (post_targets post).

Definition dispatch_outcomes (post : Post) (user : User) : M (list (string * bool)) :=
  for_of (targeted post)
         (fun p log => ok <~ attempt post user p ;; ret (log ++ [(p, ok)])%list)
         [].

(** [Date.now()] *)
Definition Date_now : M Date := fun s => (Ok (st_clock s), s).

(** Lines 169-175 of checkScheduledPosts: [now] and the query. *)
Definition select_due : M (list Post) :=
  now <~ Date_now ;;
  Post_find_due now 10.

(** [checkScheduledPosts()] *)
Definition checkScheduledPosts : M unit :=
  try_catch
    (scheduledPosts <~ select_due ;;
     for_of scheduledPosts (fun post _ => processScheduledPost post) tt)
    (fun _ => ret tt).

(* ===================================================================== *)
(** ** controllers/social.controller.js *)
(* ===================================================================== *)

(** [user.connectedAccounts.push({ ... })] of saveAccountToStorage: the
    sub-document built from [accountData] ([profileImage] and the
    [metadata] map carry no behaviour here and are left out). *)
Definition new_connection (accountData : AccountData) : ConnectedAccount :=
  let firstPage := head (ad_pages accountData) in
  mkAccount
    (ad_platform accountData)
    (ad_accountId accountData)
    (ad_accountName accountData)
    (ad_accessToken accountData)
    (ad_refreshToken accountData)
    (ad_expiresAt accountData)
    true
    (ad_connectedAt accountData)
    (page_pageId <$> firstPage)
    (if Js.truthy (page_pageAccessToken <$> firstPage)
     then page_pageAccessToken <$> firstPage
     else ad_pageAccessToken accountData)
    (ad_igId accountData).

(** The [switch (platform)] that picks the Firestore method. *)
Definition parse_platform (platform : string) : option Platform :=
  if String.eqb platform "facebook" then Some Facebook
  else if String.eqb platform "instagram" then Some Instagram
  else if String.eqb platform "pinterest" then Some Pinterest
  else None.

Definition firestoreService_save (pf : Platform) (firebaseUid : string)
    (accountData : AccountData) : M unit :=
  fun s =>
    let '(r, w) := firestore_save env pf firebaseUid accountData (st_world s) in
    (r, set_world w s).

(** [saveAccountToStorage(userId, platform, accountData, firebaseUid)] *)
Definition saveAccountToStorage (userId : ObjectId) (platform : string)
    (accountData : AccountData) (firebaseUid : option string) : M unit :=
  user <~ User_findById userId ;;
  match user with
  | None => throw "User not found"
  | Some user =>
      (* Remove existing connection for this platform *)
      let kept :=
        List.filter (fun acc => negb (String.eqb (acc_platform acc) platform))
                    (user_connectedAccounts user) in
      (* Add new connection *)
      let user := set_connectedAccounts (kept ++ [new_connection accountData]) user in
      _ <~ User_save user ;;
      if firestore_enabled env && Js.truthy firebaseUid then
        match parse_platform platform with
        | Some pf =>
            try_catch
              (firestoreService_save pf (Js.or_else firebaseUid "") accountData)
              (fun _ => ret tt)
        | None => ret tt
        end
      else ret tt
  end.

(** The query string and the header an OAuth callback reads. *)
Record CallbackRequest := mkCallbackRequest {
  q_code : option string;
  q_state : option string;
  q_error : option string;
  q_error_description : option string;
  req_userAgent : string
}.

Inductive Response :=
| ErrorHTML (status : nat) (platform message : string)
| SuccessHTML (platform accountName : string)
| SuccessJSON (platform accountName accountId : string)
| ErrorJSON (status : nat) (message error : string).

Definition get_codes (pf : Platform) (g : Globals) : option (gset string) :=
  match pf with
  | Facebook => processedFacebookCodes g
  | Instagram => processedInstagramCodes g
  | Pinterest => processedPinterestCodes g
  end.

Definition set_codes (pf : Platform) (v : option (gset string)) (g : Globals)
  : Globals :=
  match pf with
  | Facebook => mkGlobals v (processedInstagramCodes g) (processedPinterestCodes g)
  | Instagram => mkGlobals (processedFacebookCodes g) v (processedPinterestCodes g)
  | Pinterest => mkGlobals (processedFacebookCodes g) (processedInstagramCodes g) v
  end.

(** [global.X && global.X.has(code)] *)
Definition codes_has (pf : Platform) (code : string) (g : Globals) : bool :=
  match get_codes pf g with
  | Some codes => bool_decide (code ∈ codes)
  | None => false
  end.

(** [if (!global.X) global.X = new Set(); global.X.add(code)] *)
Definition codes_add (pf : Platform) (code : string) (g : Globals) : Globals :=
  set_codes pf (Some ({[code]} ∪ default ∅ (get_codes pf g))) g.

(** [if (global.X) global.X.delete(code)], the body of the timer. *)
Definition codes_delete (pf : Platform) (code : string) (g : Globals) : Globals :=
  match get_codes pf g with
  | Some codes => set_codes pf (Some (codes ∖ {[code]})) g
  | None => g
  end.

(** [5 * 60 * 1000] *)
Definition RETENTION_MS : Z := (5 * 60 * 1000)%Z.

(** [setTimeout(() => { ...delete(code) }, 5 * 60 * 1000)] *)
Definition setTimeout_delete (pf : Platform) (code : string) : M unit :=
  fun s =>
    (Ok tt,
     set_timers (st_timers s ++ [mkTimer (st_clock s + RETENTION_MS)%Z pf code]) s).

(** [<platform>Service.completeOAuthFlow(code)] *)
Definition service_completeOAuthFlow (pf : Platform) (code : string) : M AccountData :=
  fun s =>
    let '(r, w) := completeOAuthFlow env pf code (st_world s) in
    (r, set_world w
          (set_calls (st_calls s ++ [CompleteOAuthFlow (platform_name pf) code]) s)).

(** [userAgent.includes('Dart') || userAgent.includes('Flutter')] *)
Definition is_mobile (userAgent : string) : bool :=
  Js.includes userAgent "Dart" || Js.includes userAgent "Flutter".

(** The success response of each callback. *)
Definition callback_success (pf : Platform) (req : CallbackRequest)
    (accountData : AccountData) : Response :=
  match pf with
  | Facebook =>
      if is_mobile (req_userAgent req)
      then SuccessJSON "facebook" (ad_accountName accountData) (ad_accountId accountData)
      else SuccessHTML "facebook" (ad_accountName accountData)
  | Instagram =>
      if is_mobile (req_userAgent req)
      then SuccessJSON "instagram" (String.append "@" (ad_username accountData))
                       (ad_accountId accountData)
      else SuccessHTML "instagram" (String.append "@" (ad_username accountData))
  | Pinterest => SuccessHTML "pinterest" (ad_accountName accountData)
  end.

(** The [catch] of each callback. *)
Definition callback_failure (pf : Platform) (req : CallbackRequest)
    (message : string) : Response :=
  match pf with
  | Facebook =>
      if is_mobile (req_userAgent req)
      then ErrorJSON 500 "Failed to connect Facebook account" message
      else ErrorHTML 500 "facebook" message
  | Instagram =>
      if is_mobile (req_userAgent req)
      then ErrorJSON 500 "Failed to connect Instagram account" message
      else ErrorHTML 500 "instagram" message
  | Pinterest => ErrorHTML 500 "pinterest" message
  end.

(** The part of a callback after the code is tracked: complete the OAuth
    flow, read the user for the Firebase UID, save to storage, answer. *)
Definition link_account (pf : Platform) (req : CallbackRequest) (code : string)
    (userId : ObjectId) : M Response :=
  accountData <~ service_completeOAuthFlow pf code ;;
  user <~ User_findById userId ;;
  let firebaseUid := user ≫= user_firebaseUid in
  _ <~ saveAccountToStorage userId (platform_name pf) accountData firebaseUid ;;
  ret (callback_success pf req accountData).

(** The body shared by [facebookCallback], [instagramCallback] and
    [pinterestCallback]; they differ in the platform name, the
    processed-code set and the shape of the response. *)
Definition oauthCallback (pf : Platform) (req : CallbackRequest) : M Response :=
  let name := platform_name pf in
  try_catch
    (if Js.truthy (q_error req) then
       ret (ErrorHTML 400 name
              (Js.or_else (q_error_description req) (Js.or_else (q_error req) "")))
     else if negb (Js.truthy (q_code req)) then
       ret (ErrorHTML 400 name "Authorization code not received")
     else if negb (Js.truthy (q_state req)) then
       ret (ErrorHTML 400 name "State parameter missing")
     else
       let code := Js.or_else (q_code req) "" in
       match decodeState_userId env (Js.or_else (q_state req) "") with
       | None => throw "Invalid state parameter"
       | Some userId =>
           fun s =>
             (* Check if this code was already processed *)
             if codes_has pf code (st_globals s) then
               (Ok (SuccessHTML name "Already connected"), s)
             else
               (* Track this code *)
               let s := set_globals (codes_add pf code (st_globals s)) s in
               (* Clean up after 5 minutes *)
               (_ <~ setTimeout_delete pf code ;;
                link_account pf req code userId) s
       end)
    (fun message => ret (callback_failure pf req message)).

Definition facebookCallback := oauthCallback Facebook.
Definition instagramCallback := oauthCallback Instagram.
Definition pinterestCallback := oauthCallback Pinterest.

(** *** The event loop *)

(** Run every timer that is due at [now], then remove it. *)
Definition run_timers (now : Date) (s : State) : State :=
  let due := List.filter (fun tm => (timer_due tm <=? now)%Z) (st_timers s) in
  let pending := List.filter (fun tm => negb (timer_due tm <=? now)%Z) (st_timers s) in
  set_timers pending
    (set_globals
       (fold_left (fun g tm => codes_delete (timer_platform tm) (timer_code tm) g)
                  due (st_globals s)) s).

(** Time passes until [now]: due timers run, the clock moves on. *)
Definition advance (now : Date) (s : State) : State :=
  let now := Z.max now (st_clock s) in
  set_clock now (run_timers now s).

(** A request for the callback route of [pf] arrives at time [now]. *)
Definition arrive (now : Date) (pf : Platform) (req : CallbackRequest) : M Response :=
  fun s => oauthCallback pf req (advance now s).

(** The cron job fires at time [now]. *)
Definition tick (now : Date) : M unit :=
  fun s => checkScheduledPosts (advance now s).

(** A callback request with its time of arrival and its route. *)
Record Arrival := mkArrival {
  at_time : Date;
  at_platform : Platform;
  at_request : CallbackRequest
}.

(** Callback requests arrive one after the other. *)
Fixpoint arrivals (evs : list Arrival) (s : State) : State :=
  match evs with
  | [] => s
  | ev :: evs' =>
      arrivals evs' (snd (arrive (at_time ev) (at_platform ev) (at_request ev) s))
  end.

(** The cron job fires at each of [times], one after the other. *)
Fixpoint ticks (times : list Date) (s : State) : State :=
  match times with
  | [] => s
  | now :: times' => ticks times' (snd (tick now s))
  end.

End Backend.

Notation "x <~ m ;; k" := (bind m (fun x => k))
  (at level 100, m at next level, right associativity).

(* ===================================================================== *)
(** ** controllers/post.controller.js: publishToSocialMedia, likePost *)
(* ===================================================================== *)

(** [const { caption, mediaUrl, platforms, scheduledDate } = req.body] and
    [req.user._id].  A [scheduledDate] that is absent, empty or not a date
    is [None]: for each of them
    [scheduledDate && new Date(scheduledDate) > new Date()] is falsy. *)
Record PublishRequest := mkPublishRequest {
  body_caption : option string;
  body_mediaUrl : option string;
  body_platforms : option (list string);
  body_scheduledDate : option Date;
  req_user : ObjectId
}.

(** The [postData] object handed to [Post.create]. *)
Record PostData := mkPostData {
  pd_user : ObjectId;
  pd_content : string;
  pd_mediaUrls : list string;
  pd_platforms : list string;
  pd_platform : string;
  pd_status : PostStatus;
  pd_scheduledDate : option Date
}.

(** The document Mongoose builds from [postData] under a new [_id]. *)
Definition document (id : ObjectId) (d : PostData) : Post :=
  mkPost id (pd_user d) (pd_content d) (pd_mediaUrls d) (Some (pd_platforms d))
         (pd_platform d) (pd_scheduledDate d) (pd_status d).

(** The [enum] of [platforms] and of [platform] in models/Post.model.js. *)
Definition PLATFORMS_ENUM : list string :=
  ["twitter"; "facebook"; "instagram"; "pinterest"; "linkedin"].

Definition PLATFORM_ENUM : list string :=
  ["twitter"; "facebook"; "instagram"; "pinterest"; "linkedin"; "all"].

(** The validators of the Post schema on the paths [postData] sets:
    [content] is required and at most 5000 code units long, [platforms] and
    [platform] are of their enums. *)
Definition validate (d : PostData) : bool :=
  negb (String.eqb (pd_content d) "")
  && (Js.length (pd_content d) <=? 5000)%nat
  && forallb (in_enum PLATFORMS_ENUM) (pd_platforms d)
  && in_enum PLATFORM_ENUM (pd_platform d).

(** A JSON reply [{ success, message, error? }] with its HTTP status. *)
Record Json := mkJson {
  json_status : nat;
  json_success : bool;
  json_message : string;
  json_error : option string
}.

(** The replies of publishToSocialMedia. *)
Inductive PublishResponse :=
(** [{ success, message, error? }] *)
| PublishPlain (j : Json)
(** 200 [{ success: true, message: `Post scheduled for ...`,
          data: { post, scheduled: true } }] *)
| PublishScheduled (scheduledDate : Date) (post : Post)
(** [results.length > 0 ? 200 : 400], [{ success: results.length > 0,
    message: ..., data: { post, results, errors } }] *)
| PublishResults (status : nat) (success : bool) (post : Post)
                 (results : list ResultEntry) (errors : option (list ErrorEntry)).

(** The two paths of a Post document likePost touches.  [likesCount] is
    a Number holding an integer; [Z] is that Number while it stays within
    the safe integers ([Js.MAX_SAFE_INTEGER]), where the arithmetic of
    likePost is exact. *)
Record Likes := mkLikes {
  likes : list ObjectId;
  likesCount : Z
}.

(** [post.likes.some(id => id.toString() === userId.toString())] *)
Definition isLiked (userId : ObjectId) (post : Likes) : bool :=
  existsb (fun id => String.eqb id userId) (likes post).

(** Lines of likePost between [findById] and [save]: unlike when the user
    is among the likes, like otherwise.  (Beyond the safe integers the
    code's [+= 1] and [- 1] round; the properties below that speak of the
    counter stay within them.) *)
Definition toggle_like (userId : ObjectId) (post : Likes) : Likes :=
  if isLiked userId post then
    mkLikes (List.filter (fun id => negb (String.eqb id userId)) (likes post))
            (Z.max 0 (likesCount post - 1))
  else
    mkLikes (likes post ++ [userId]) (likesCount post + 1).

Section Handlers.

Context {W : Type}.

(** The oracles of the handlers below that [Env] does not hold. *)
Record Oracles := mkOracles {
  (** [new ObjectId()] of the driver: time, a process-wide random value
      and a counter *)
  new_ObjectId : W -> ObjectId * W;
  (** [firestoreService.disconnectAccount(firebaseUid, platform)] *)
  firestore_disconnect : Platform -> string -> W -> Result unit * W
}.

Context (env : @Env W) (oracles : Oracles).

(** [Post.create(postData)]: the constructor takes a new [_id], [save]
    validates, then inserts. *)
Definition Post_create (d : PostData) : M Post :=
  fun s =>
    let '(id, w) := new_ObjectId oracles (st_world s) in
    let post := document id d in
    (if validate d then
       _ <~ db_available ;;
       fun s => (Ok post, set_posts (st_posts s ++ [post]) s)
     else throw "Post validation failed")
      (set_world w s).

(** The [switch (platformName.toLowerCase())] of publishToSocialMedia; the
    content comes from the request, and there is a [default]. *)
Definition publish_now_switch (caption : string) (mediaUrl : option string)
    (connectedAccount : ConnectedAccount) (platformName : string) : M PostResult :=
  let name := Js.toLowerCase platformName in
  if String.eqb name "facebook" then
    userPages <~ facebookService_getUserPages env (acc_accessToken connectedAccount) ;;
    match userPages with
    | first :: _ =>
        let page :=
          default first
            (List.find (fun p => existsb (String.eqb "CREATE_CONTENT") (page_tasks p))
                       userPages) in
        facebookService_postToPage env (page_pageAccessToken page)
                                   (page_pageId page) caption mediaUrl
    | [] => throw "No Facebook pages available. Please create or manage a Facebook Page."
    end
  else if String.eqb name "instagram" then
    if Js.truthy (acc_businessAccountId connectedAccount) then
      let igUserId := Js.or_else (acc_businessAccountId connectedAccount) "" in
      let accessToken :=
        Js.or_else (acc_pageAccessToken connectedAccount)
                   (acc_accessToken connectedAccount) in
      if isVideo mediaUrl then
        instagramService_publishVideo env igUserId accessToken
                                      (Js.or_else mediaUrl "") caption
      else
        instagramService_publishPhoto env igUserId accessToken mediaUrl caption
    else throw "Instagram Business account not linked"
  else if String.eqb name "pinterest" then
    if isVideoForPinterest mediaUrl then
      throw "Pinterest only supports image pins. Videos are not supported."
    else
      match PINTEREST_BOARD_ID env with
      | Some boardId =>
          if String.eqb boardId "" then
            throw "PINTEREST_BOARD_ID not configured in environment variables"
          else
            pinterestService_createPin env (acc_accessToken connectedAccount)
                                       boardId (Js.substring0 100 caption)
                                       caption mediaUrl
      | None => throw "PINTEREST_BOARD_ID not configured in environment variables"
      end
  else throw (String.append "Unsupported platform: " platformName).

(** One iteration of [for (const platformName of platforms)]. *)
Definition publish_now_iteration (caption : string) (mediaUrl : option string)
    (user : User) (platformName : string) (acc : Outcomes) : M Outcomes :=
  let '(results, errors) := acc in
  match find_connectedAccount user platformName with
  | None =>
      ret (results,
           (errors ++ [mkErrorEntry platformName "Account not connected or inactive"])%list)
  | Some connectedAccount =>
      try_catch
        (postResult <~ publish_now_switch caption mediaUrl connectedAccount
                                          platformName ;;
         ret ((results ++ [result_entry platformName (Some postResult)])%list, errors))
        (fun message =>
           ret (results, (errors ++ [mkErrorEntry platformName message])%list))
  end.

Definition publish_now_loop (caption : string) (mediaUrl : option string)
    (platforms : list string) (user : User) : M Outcomes :=
  for_of platforms (publish_now_iteration caption mediaUrl user) ([], []).

(** The [postData] of both branches. *)
Definition postData_of (req : PublishRequest) (caption : string)
    (platforms : list string) (status : PostStatus) (scheduledDate : option Date)
  : PostData :=
  mkPostData (req_user req) caption
             (if Js.truthy (body_mediaUrl req)
              then [Js.or_else (body_mediaUrl req) ""] else [])
             platforms
             (match platforms with [p] => p | _ => "all" end)
             status scheduledDate.

(** [scheduledDate && new Date(scheduledDate) > new Date()] *)
Definition isScheduled (scheduledDate : option Date) (now : Date) : bool :=
  match scheduledDate with
  | Some d => (now <? d)%Z
  | None => false
  end.

(** [publishToSocialMedia(req, res)] *)
Definition publishToSocialMedia (req : PublishRequest) : M PublishResponse :=
  try_catch
    (if negb (Js.truthy (body_caption req)) then
       ret (PublishPlain (mkJson 400 false "Caption is required" None))
     else
       match body_platforms req with
       | None | Some [] =>
           ret (PublishPlain
                  (mkJson 400 false "At least one platform must be selected" None))
       | Some platforms =>
           let caption := Js.or_else (body_caption req) "" in
           let mediaUrl := body_mediaUrl req in
           now <~ Date_now ;;
           if isScheduled (body_scheduledDate req) now then
             let d := default 0%Z (body_scheduledDate req) in
             post <~ Post_create (postData_of req caption platforms scheduled (Some d)) ;;
             ret (PublishScheduled d post)
           else
             user <~ User_findById (req_user req) ;;
             match user with
             | None => ret (PublishPlain (mkJson 404 false "User not found" None))
             | Some user =>
                 outcomes <~ publish_now_loop caption mediaUrl platforms user ;;
                 let '(results, errors) := outcomes in
                 post <~ Post_create (postData_of req caption platforms
                                                  (terminal_status results) None) ;;
                 ret (PublishResults
                        (if (0 <? length results)%nat then 200 else 400)
                        (0 <? length results)%nat
                        post results
                        (if (0 <? length errors)%nat then Some errors else None))
             end
       end)
    (fun message =>
       ret (PublishPlain (mkJson 500 false "Error publishing post" (Some message)))).

(* ===================================================================== *)
(** ** controllers/social.controller.js: the disconnect handlers *)
(* ===================================================================== *)

Definition display_name (pf : Platform) : string :=
  match pf with
  | Facebook => "Facebook"
  | Instagram => "Instagram"
  | Pinterest => "Pinterest"
  end.

(** [firestoreService.disconnectAccount(firebaseUid, platform)] *)
Definition firestoreService_disconnectAccount (pf : Platform) (firebaseUid : string)
  : M unit :=
  fun s =>
    let '(r, w) := firestore_disconnect oracles pf firebaseUid (st_world s) in
    (r, set_world w s).

(** The body shared by [disconnectFacebook], [disconnectInstagram] and
    [disconnectPinterest]; [userId] is [req.user._id]. *)
Definition disconnect (pf : Platform) (userId : ObjectId) : M Json :=
  try_catch
    (user <~ User_findById userId ;;
     match user with
     | None => ret (mkJson 404 false "User not found" None)
     | Some user =>
         (* Remove from MongoDB *)
         let kept :=
           List.filter (fun acc => negb (String.eqb (acc_platform acc) (platform_name pf)))
                       (user_connectedAccounts user) in
         let user := set_connectedAccounts kept user in
         _ <~ User_save user ;;
         (* Remove from Firestore if enabled *)
         _ <~ (if firestore_enabled env && Js.truthy (user_firebaseUid user) then
                 try_catch
                   (firestoreService_disconnectAccount
                      pf (Js.or_else (user_firebaseUid user) ""))
                   (fun _ => ret tt)
               else ret tt) ;;
         ret (mkJson 200 true
                     (String.append (display_name pf)
                                    " account disconnected successfully")
                     None)
     end)
    (fun message =>
       ret (mkJson 500 false
                   (String.append "Error disconnecting " (display_name pf))
                   (Some message))).

Definition disconnectFacebook := disconnect Facebook.
Definition disconnectInstagram := disconnect Instagram.
Definition disconnectPinterest := disconnect Pinterest.

End Handlers.

(* ===================================================================== *)
(** ** models/User.model.js: the methods of a user document *)
(* ===================================================================== *)

(** [user.isAccountConnected(platform)] *)
Definition isAccountConnected (user : User) (platform : string) : bool :=
  existsb (fun account => String.eqb (acc_platform account) platform
                          && acc_isActive account)
          (user_connectedAccounts user).

(** [user.getConnectedAccount(platform)] *)
Definition getConnectedAccount (user : User) (platform : string)
  : option ConnectedAccount :=
  List.find (fun account => String.eqb (acc_platform account) platform
                            && acc_isActive account)
            (user_connectedAccounts user).

(* ===================================================================== *)
(** ** services/instagram.service.js: completeOAuthFlow *)
(* ===================================================================== *)

(** A page of [GET /me/accounts], as the flow reads it. *)
Record GraphPage := mkGraphPage {
  gp_id : string;
  gp_access_token : string
}.

(** What [getInstagramBusinessAccount] resolves to when the page has an
    [instagram_business_account], as far as the flow's result is read by
    saveAccountToStorage. *)
Record IgAccount := mkIgAccount {
  ig_igId : string;
  ig_username : string
}.

(** [{ accessToken, expiresIn }] of [getLongLivedToken]. *)
Record LongLivedData := mkLongLivedData {
  ll_accessToken : string;
  ll_expiresIn : option Z
}.

Section InstagramFlow.

Context {W : Type}.

(** The Graph API behind the four requests of the flow; a rejected
    request carries the message of the response (empty when it has none). *)
Record Graph := mkGraph {
  (** [GET /oauth/access_token?code=...]: [response.data.access_token] *)
  graph_code : string -> W -> Result string * W;
  (** [GET /oauth/access_token?grant_type=fb_exchange_token...] *)
  graph_exchange : string -> W -> Result LongLivedData * W;
  (** [GET /me/accounts]: [response.data.data || []] *)
  graph_accounts : string -> W -> Result (list GraphPage) * W;
  (** [GET /<pageId>?fields=instagram_business_account{...}]:
      [response.data.instagram_business_account] *)
  graph_page : string -> string -> W -> Result (option IgAccount) * W
}.

Context (graph : Graph).

(** One request: the remote side answers and moves on. *)
Definition request {A} (ask : W -> Result A * W) : @M W A :=
  fun s => let '(r, w) := ask (st_world s) in (r, set_world w s).

(** [exchangeCodeForToken(code)], then [tokenData.access_token] *)
Definition instagramService_exchangeCodeForToken (code : string) : @M W string :=
  rethrow "Failed to exchange code for token" (request (graph_code graph code)).

(** [getLongLivedToken(shortLivedToken)] *)
Definition instagramService_getLongLivedToken (shortLivedToken : string)
  : @M W LongLivedData :=
  try_catch (request (graph_exchange graph shortLivedToken))
            (fun _ => throw "Failed to get long-lived token").

(** [getConnectedPages(accessToken)] *)
Definition instagramService_getConnectedPages (accessToken : string)
  : @M W (list GraphPage) :=
  try_catch (request (graph_accounts graph accessToken))
            (fun _ => throw "Failed to fetch connected pages").

(** [getInstagramBusinessAccount(pageId, pageAccessToken)]: [null] when
    the page has no account and when the request fails. *)
Definition instagramService_getInstagramBusinessAccount (pageId pageAccessToken : string)
  : @M W (option IgAccount) :=
  try_catch (request (graph_page graph pageId pageAccessToken))
            (fun _ => ret None).

(** Step 4, [for (const page of pages) { ...; if (igAccount) { ...; break } }]:
    the account found and its page. *)
Fixpoint find_business_account (pages : list GraphPage)
  : @M W (option (IgAccount * GraphPage)) :=
  match pages with
  | [] => ret None
  | page :: pages' =>
      igAccount <~ instagramService_getInstagramBusinessAccount
                     (gp_id page) (gp_access_token page) ;;
      match igAccount with
      | Some igAccount => ret (Some (igAccount, page))          (* break *)
      | None => find_business_account pages'
      end
  end.

(** The message of the error thrown when no page has an account. *)
Definition BUSINESS_ACCOUNT_REQUIRED : string :=
  "Instagram Business Account Required

To connect Instagram, you need:
1. Convert your Instagram account to a Business or Creator account
2. Link it to a Facebook Page
3. Make sure you are an admin of that Facebook Page

Steps:
• Go to Instagram Settings > Account > Switch to Professional Account
• In Instagram Settings > Account > Linked Accounts > Facebook
• Connect your Instagram to your Facebook Page".

(** [(expiresIn || 5184000) * 1000] *)
Definition lifetime_ms (expiresIn : option Z) : Z :=
  (match expiresIn with
   | Some n => if (n =? 0)%Z then 5184000 else n
   | None => 5184000
   end * 1000)%Z.

(** [instagramService.completeOAuthFlow(code)] *)
Definition instagramService_completeOAuthFlow (code : string) : @M W AccountData :=
  shortLivedToken <~ instagramService_exchangeCodeForToken code ;;
  longLivedData <~ instagramService_getLongLivedToken shortLivedToken ;;
  pages <~ instagramService_getConnectedPages (ll_accessToken longLivedData) ;;
  found <~ find_business_account pages ;;
  match found with
  | None => throw BUSINESS_ACCOUNT_REQUIRED
  | Some (instagramAccount, page) =>
      now <~ Date_now ;;
      ret (mkAccountData
             "instagram"
             (ig_igId instagramAccount)
             (ig_username instagramAccount)
             (ig_username instagramAccount)
             (ll_accessToken longLivedData)
             None
             (Some (now + lifetime_ms (ll_expiresIn longLivedData))%Z)
             (Some now)
             []
             (Some (gp_access_token page))
             (Some (ig_igId instagramAccount)))
  end.

End InstagramFlow.

(* ===================================================================== *)
(** ** Vocabulary of the properties *)
(* ===================================================================== *)

(** The platforms that succeeded, resp. failed, in an outcome list. *)
Definition succeeded (log : list (string * bool)) : list string :=
  map fst (List.filter snd log).

Definition failed_platforms (log : list (string * bool)) : list string :=
  map fst (List.filter (fun o => negb (snd o)) log).

(** The write of [post.save()]: the status of the documents with this id. *)
Definition write_status (id : ObjectId) (T : PostStatus) (q : Post) : Post :=
  if String.eqb (post_id q) id then set_status T q else q.

(** The due time of a selected job. *)
Definition due_of (p : Post) : Date := default 0%Z (post_scheduledDate p).

(** The accounts of [platform] in a list of connections. *)
Definition accounts_of (platform : string) (l : list ConnectedAccount)
  : list ConnectedAccount :=
  List.filter (fun acc => String.eqb (acc_platform acc) platform) l.

(** The connections saveAccountToStorage leaves in the user document. *)
Definition relinked (platform : string) (accountData : AccountData)
    (l : list ConnectedAccount) : list ConnectedAccount :=
  List.filter (fun acc => negb (String.eqb (acc_platform acc) platform)) l
  ++ [new_connection accountData].

(** What a timer deletes: a code of a platform. *)
Definition timer_key (tm : Timer) : Platform * string :=
  (timer_platform tm, timer_code tm).

(** The [enum] of [platform] in the connected-account schema
    (models/User.model.js). *)
Definition schema_account (acc : ConnectedAccount) : Prop :=
  In (acc_platform acc) ["facebook"; "instagram"; "pinterest"].

(** A platform name that has a [case] in the [switch] of the scheduler. *)
Definition supported (platformName : string) : bool :=
  let name := Js.toLowerCase platformName in
  String.eqb name "facebook" || String.eqb name "instagram"
  || String.eqb name "pinterest".

(** [acc] is an active connection of [user] whose platform reads [name]
    in lower case. *)
Definition active_account_for (user : User) (name : string) (acc : ConnectedAccount)
  : Prop :=
  In acc (user_connectedAccounts user) /\ acc_isActive acc = true /\
  Js.toLowerCase (acc_platform acc) = name.

(** The credential a remote operation carries is that of an active
    connection of [user] for the platform of the operation (the page token
    of [PostToPage] comes from the Graph API, not from the user document). *)
Definition credential_of (user : User) (c : AdapterCall) : Prop :=
  match c with
  | CompleteOAuthFlow _ _ => False
  | GetUserPages accessToken =>
      exists acc, active_account_for user "facebook" acc /\
                  accessToken = acc_accessToken acc
  | PostToPage _ _ _ _ => True
  | PublishVideo igUserId accessToken _ _
  | PublishPhoto igUserId accessToken _ _ =>
      exists acc, active_account_for user "instagram" acc /\
                  acc_businessAccountId acc = Some igUserId /\
                  accessToken = Js.or_else (acc_pageAccessToken acc)
                                           (acc_accessToken acc)
  | CreatePin accessToken _ _ _ _ =>
      exists acc, active_account_for user "pinterest" acc /\
                  accessToken = acc_accessToken acc
  end.

(** What the validators of the Post schema say of the [postData] built
    for a caption and its platforms. *)
Definition schema_accepts (caption : string) (platforms : list string) : bool :=
  negb (String.eqb caption "")
  && (Js.length caption <=? 5000)%nat
  && forallb (in_enum PLATFORMS_ENUM) platforms
  && in_enum PLATFORM_ENUM (match platforms with [p] => p | _ => "all" end).

(** [post] is a document for what [req] asks to publish. *)
Definition written (req : PublishRequest) (post : Post) : Prop :=
  post_user post = req_user req /\
  body_caption req = Some (post_content post) /\
  post_platforms post = body_platforms req /\
  post_mediaUrls post
    = (if Js.truthy (body_mediaUrl req) then [Js.or_else (body_mediaUrl req) ""]
       else []).

(** The connections a disconnect of [platform] leaves. *)
Definition unlinked (platform : string) (l : list ConnectedAccount)
  : list ConnectedAccount :=
  List.filter (fun acc => negb (String.eqb (acc_platform acc) platform)) l.

(** The invariant of the two paths likePost writes: nobody is listed
    twice and the counter is the number of likes. *)
Definition likes_ok (post : Likes) : Prop :=
  NoDup (likes post) /\ likesCount post = Z.of_nat (length (likes post)).

(** The Graph API answers the account lookup of every page by [linked],
    whatever else has happened: the account of the page, none when the
    page has none or the request is rejected. *)
Definition answers {W} (graph : @Graph W) (linked : GraphPage -> option IgAccount)
  : Prop :=
  forall page w,
    match fst (graph_page graph (gp_id page) (gp_access_token page) w) with
    | Ok igAccount => igAccount = linked page
    | Throw _ => linked page = None
    end.

(** A stored job as a later state holds it: as it was, or no longer
    ['scheduled']. *)
Definition aged (p p' : Post) : Prop := p' = p \/ post_status p' <> scheduled.

Section Vocabulary.

Context {W : Type} (env : @Env W).

(** [m] relates every state to the state it leaves, however it ends. *)
Definition keeps (R : relation (@State W)) {A} (m : @M W A) : Prop :=
  forall s, R s (snd (m s)).

(** [s'] differs from [s] at most in the remote world and the call log:
    no collection, no global and no timer was touched. *)
Definition local_frame (s s' : @State W) : Prop :=
  st_posts s' = st_posts s /\ st_users s' = st_users s /\
  st_dbFaults s' = st_dbFaults s /\ st_globals s' = st_globals s /\
  st_timers s' = st_timers s /\ st_clock s' = st_clock s.

(** [m] touches at most the remote world and the call log. *)
Definition framed {A} (m : @M W A) : Prop := keeps local_frame m.

(** Does the [n]-th coming Mongo operation reject? *)
Definition fault (n : nat) (s : @State W) : bool := nth n (st_dbFaults s) false.

(** The state once one Mongo operation has had its answer. *)
Definition answered (s : @State W) : State := set_dbFaults (tail (st_dbFaults s)) s.

(** The user document [User.findById(id)] finds. *)
Definition find_user (id : ObjectId) (s : @State W) : option User :=
  List.find (fun u => String.eqb (user_id u) id) (st_users s).

(** No document of job [id] is stored as ['scheduled']. *)
Definition left_scheduled (id : ObjectId) (s : @State W) : Prop :=
  forall q, In q (st_posts s) -> post_id q = id -> post_status q <> scheduled.

(** The store answers, the owner of [J] is not in the User collection,
    and [J] is the stored job of its id. *)
Definition owner_missing (J : Post) (s : @State W) : Prop :=
  st_dbFaults s = [] /\
  find_user (post_user J) s = None /\
  In J (st_posts s) /\
  (forall q, In q (st_posts s) -> post_id q = post_id J -> q = J).

(** [code] is in the processed-code set of [pf]. *)
Definition held (pf : Platform) (code : string) (s : @State W) : Prop :=
  codes_has pf code (st_globals s) = true.

(** Every pending timer is for a code that is held, and no code has two
    pending timers. *)
Definition guard_ok (s : @State W) : Prop :=
  (forall tm, In tm (st_timers s) -> held (timer_platform tm) (timer_code tm) s) /\
  NoDup (map timer_key (st_timers s)).

(** [s'] differs from [s] at most in the User collection, the coming
    store answers and the remote world. *)
Definition link_frame (s s' : @State W) : Prop :=
  st_globals s' = st_globals s /\ st_timers s' = st_timers s /\
  st_clock s' = st_clock s /\ st_posts s' = st_posts s /\
  st_calls s' = st_calls s.

(** A request that passes the checks of a callback, with its code and the
    user its state decodes to. *)
Definition valid_request (req : CallbackRequest) (code : string) (userId : ObjectId)
  : Prop :=
  Js.truthy (q_error req) = false /\
  q_code req = Some code /\ code <> "" /\
  exists state, q_state req = Some state /\ state <> "" /\
                decodeState_userId env state = Some userId.

(** The state once [code] is tracked and its timer is set. *)
Definition tracked (pf : Platform) (code : string) (s : @State W) : State :=
  set_timers (st_timers s ++ [mkTimer (st_clock s + RETENTION_MS)%Z pf code])
             (set_globals (codes_add pf code (st_globals s)) s).

(** [code] is tracked for [pf] and its timer, due at [d], is pending. *)
Definition holding (pf : Platform) (code : string) (d : Date) (s : @State W) : Prop :=
  guard_ok s /\ In (mkTimer d pf code) (st_timers s) /\ (st_clock s < d)%Z.

(** Every document of job [id] is stored as ['published'] or ['failed']. *)
Definition terminal_stored (id : ObjectId) (s : @State W) : Prop :=
  forall q, In q (st_posts s) -> post_id q = id ->
            post_status q = published \/ post_status q = failed.

(** From [s] to [s'] the call log grew by operations that satisfy [P]. *)
Definition issues (P : AdapterCall -> Prop) (s s' : @State W) : Prop :=
  exists new, st_calls s' = st_calls s ++ new /\ Forall P new.

(** A remote operation of the dispatch of [post]: it carries the content
    and the first media URL of the job, to the endpoint that fits the
    media, and a pin has a board and a title of at most 100 code units. *)
Definition request_of (post : Post) (c : AdapterCall) : Prop :=
  let media := head (post_mediaUrls post) in
  match c with
  | CompleteOAuthFlow _ _ => False
  | GetUserPages _ => True
  | PostToPage _ _ message photoUrl =>
      message = post_content post /\ photoUrl = media
  | PublishVideo _ _ videoUrl caption =>
      caption = post_content post /\ media = Some videoUrl /\ isVideo media = true
  | PublishPhoto _ _ imageUrl caption =>
      caption = post_content post /\ imageUrl = media /\ isVideo media = false
  | CreatePin _ boardId title description imageUrl =>
      PINTEREST_BOARD_ID env = Some boardId /\ boardId <> "" /\
      description = post_content post /\
      title = Js.substring0 100 (post_content post) /\
      Js.length title <= 100 /\
      imageUrl = media /\ isVideoForPinterest media = false
  end.

End Vocabulary.

(* ===================================================================== *)
(** ** A concrete deployment *)
(* ===================================================================== *)

(** The remote world of the examples: the names of the platforms whose
    API is down. *)
Definition is_down (name : string) (w : list string) : bool :=
  existsb (String.eqb name) w.

Definition call_platform (c : AdapterCall) : string :=
  match c with
  | CompleteOAuthFlow platform _ => platform
  | GetUserPages _ | PostToPage _ _ _ _ => "facebook"
  | PublishVideo _ _ _ _ | PublishPhoto _ _ _ _ => "instagram"
  | CreatePin _ _ _ _ _ => "pinterest"
  end.

Definition demo_pages : list Page :=
  [mkPage "page-1" "page-token" ["CREATE_CONTENT"]].

Definition demo_account (pf : Platform) : AccountData :=
  mkAccountData (platform_name pf) "acct-9" "Alice" "alice" "fresh-token"
                None (Some 9000%Z) (Some 6000%Z) [] None (Some "ig-1").

Definition demo_env : @Env (list string) :=
  mkEnv (Some "board-1")
        (fun _ w => (if is_down "facebook" w then Throw "" else Ok demo_pages, w))
        (fun c w => (if is_down (call_platform c) w
                     then Throw "Service temporarily unavailable"
                     else Ok "ext-1", w))
        (fun state => if String.eqb state "garbled" then None else Some state)
        (fun pf _ w => (if is_down (platform_name pf) w
                        then Throw "Invalid verification code"
                        else Ok (demo_account pf), w))
        false
        (fun _ _ _ w => (Ok tt, w)).

(** Alice's Facebook token expired at 1000; her Instagram account is a
    business account; she has no Pinterest account. *)
Definition alice_facebook : ConnectedAccount :=
  mkAccount "facebook" "fb-1" "Alice" "fb-token" None (Some 1000%Z) true
            (Some 10%Z) None None None.

Definition alice_instagram : ConnectedAccount :=
  mkAccount "instagram" "ig-1" "alice" "ig-token" None None true
            (Some 10%Z) None None (Some "ig-1").

Definition alice : User :=
  mkUser "alice" (Some "uid-alice") (Some "alice@example.com") None
         [alice_facebook; alice_instagram].

Definition demo_job (id : ObjectId) (owner : ObjectId) (targets : list string)
    (due : Date) : Post :=
  mkPost id owner "hello" [] (Some targets) "all" (Some due) scheduled.

Definition job1 : Post := demo_job "job-1" "alice" ["facebook"; "instagram"] 100%Z.

Definition demo_state (posts : list Post) (faults : list bool) (now : Date)
    (down : list string) : @State (list string) :=
  mkState posts [alice] faults [] (mkGlobals None None None) [] now down.

(** A job of a user that is not on record. *)
Definition orphan : Post := demo_job "orphan" "ghost" ["facebook"] 100%Z.

Definition demo_request (code : string) : CallbackRequest :=
  mkCallbackRequest (Some code) (Some "alice") None None "Mozilla/5.0".

(** A job for a platform Alice has not linked, and a second job of hers. *)
Definition pin_job : Post := demo_job "job-pin" "alice" ["pinterest"] 100%Z.

Definition job2 : Post := demo_job "job-2" "alice" ["instagram"] 150%Z.

(** A user document with a connection outside the schema's [enum]. *)
Definition carol_twitter : ConnectedAccount :=
  mkAccount "twitter" "tw-1" "Carol" "tw-token" None None true
            (Some 10%Z) None None None.

Definition carol : User :=
  mkUser "carol" (Some "uid-carol") (Some "carol@example.com") None [carol_twitter].

(** Ids are numbered by the remote world; Firestore always answers. *)
Definition demo_oracles : @Oracles (list string) :=
  mkOracles (fun w => (String.append "post-" (String.concat "-" w), w))
            (fun _ _ w => (Ok tt, w)).

(** Alice asks to publish ["hello"]. *)
Definition demo_publish (platforms : list string) (scheduledDate : option Date)
  : PublishRequest :=
  mkPublishRequest (Some "hello") None (Some platforms) scheduledDate "alice".

(** Three pages, of which the second and the third have a business
    account. *)
Definition demo_graph_pages : list GraphPage :=
  [mkGraphPage "page-1" "tok-1"; mkGraphPage "page-2" "tok-2";
   mkGraphPage "page-3" "tok-3"].

Definition demo_linked (page : GraphPage) : option IgAccount :=
  if String.eqb (gp_id page) "page-1" then None
  else Some (mkIgAccount (String.append "ig-of-" (gp_id page)) "alice").

Definition demo_graph : @Graph (list string) :=
  mkGraph (fun _ w => (Ok "short-token", w))
          (fun _ w => (Ok (mkLongLivedData "long-token" None), w))
          (fun _ w => (Ok demo_graph_pages, w))
          (fun pageId pageAccessToken w =>
             (Ok (demo_linked (mkGraphPage pageId pageAccessToken)), w)).

(* ===================================================================== *)
(** ** Properties of the dispatch loop *)
(* ===================================================================== *)

Lemma succeeded_app log1 log2 :
  succeeded (log1 ++ log2) = succeeded log1 ++ succeeded log2.
Proof. unfold succeeded. by rewrite List.filter_app, map_app. Qed.

Lemma failed_platforms_app log1 log2 :
  failed_platforms (log1 ++ log2) = failed_platforms log1 ++ failed_platforms log2.
Proof. unfold failed_platforms. by rewrite List.filter_app, map_app. Qed.

(** *** Frame rules: what a computation leaves alone *)

Section Keeps.

Context {W : Type} (R : relation (@State W)) `{!PreOrder R}.

Lemma keeps_ret {A} (a : A) : keeps R (ret a).
Proof. intros s. simpl. reflexivity. Qed.

Lemma keeps_throw {A} e : keeps R (@throw W A e).
Proof. intros s. simpl. reflexivity. Qed.

Lemma keeps_bind {A B} (m : M A) (k : A -> M B) :
  keeps R m -> (forall a, keeps R (k a)) -> keeps R (bind m k).
Proof.
  intros Hm Hk s. unfold bind. specialize (Hm s).
  destruct (m s) as [[a|e] s1]; simpl in *; [|done].
  etrans; [exact Hm | apply Hk].
Qed.

Lemma keeps_try_catch {A} (m : M A) (h : string -> M A) :
  keeps R m -> (forall e, keeps R (h e)) -> keeps R (try_catch m h).
Proof.
  intros Hm Hh s. unfold try_catch. specialize (Hm s).
  destruct (m s) as [[a|e] s1]; simpl in *; [done|].
  etrans; [exact Hm | apply Hh].
Qed.

Lemma keeps_for_of {A S} (l : list A) (body : A -> S -> M S) acc :
  (forall x a, keeps R (body x a)) -> keeps R (for_of l body acc).
Proof.
  intros Hb. revert acc. induction l as [|x l IH]; intros acc; simpl.
  - apply keeps_ret.
  - apply keeps_bind; [apply Hb | apply IH].
Qed.

End Keeps.

Section Dispatch.

Context {W : Type} (env : @Env W).

(* The vocabulary at the world of this section. *)
Local Abbreviation local_frame := (local_frame (W:=W)) (only parsing).
Local Abbreviation framed := (framed (W:=W)) (only parsing).
Local Abbreviation fault := (fault (W:=W)) (only parsing).
Local Abbreviation answered := (answered (W:=W)) (only parsing).
Local Abbreviation find_user := (find_user (W:=W)) (only parsing).
Local Abbreviation left_scheduled := (left_scheduled (W:=W)) (only parsing).
Local Abbreviation owner_missing := (owner_missing (W:=W)) (only parsing).
Local Abbreviation held := (held (W:=W)) (only parsing).
Local Abbreviation guard_ok := (guard_ok (W:=W)) (only parsing).
Local Abbreviation link_frame := (link_frame (W:=W)) (only parsing).
Local Abbreviation tracked := (tracked (W:=W)) (only parsing).
Local Abbreviation holding := (holding (W:=W)) (only parsing).

Lemma local_frame_refl s : local_frame s s.
Proof. by repeat split. Qed.

Lemma local_frame_trans s1 s2 s3 :
  local_frame s1 s2 -> local_frame s2 s3 -> local_frame s1 s3.
Proof. unfold local_frame. intros H1 H2. intuition congruence. Qed.

Lemma bind_ok {A B} (m : @M W A) (k : A -> M B) s a s1 :
  m s = (Ok a, s1) -> bind m k s = k a s1.
Proof. intros H. unfold bind. by rewrite H. Qed.

Lemma bind_throw {A B} (m : @M W A) (k : A -> M B) s e s1 :
  m s = (Throw e, s1) -> bind m k s = (Throw e, s1).
Proof. intros H. unfold bind. by rewrite H. Qed.

Lemma for_of_cons_ok {A S} (x : A) l (body : A -> S -> @M W S) acc s acc' s1 :
  body x acc s = (Ok acc', s1) ->
  for_of (x :: l) body acc s = for_of l body acc' s1.
Proof. intros H. cbn [for_of]. by apply bind_ok. Qed.

Lemma for_of_cons_throw {A S} (x : A) l (body : A -> S -> @M W S) acc s e s1 :
  body x acc s = (Throw e, s1) ->
  for_of (x :: l) body acc s = (Throw e, s1).
Proof. intros H. cbn [for_of]. by apply bind_throw. Qed.

Ltac run_m :=
  unfold rethrow, try_catch, bind, ret, throw, remote in *; simpl in *.

#[local] Instance local_frame_preorder : PreOrder local_frame.
Proof.
  split; [intros s; apply local_frame_refl|].
  intros s1 s2 s3. apply local_frame_trans.
Qed.

Lemma framed_ret {A} (a : A) : framed (ret a).
Proof. apply keeps_ret, _. Qed.

Lemma framed_throw {A} e : framed (@throw W A e).
Proof. apply keeps_throw, _. Qed.

Lemma framed_bind {A B} (m : M A) (k : A -> M B) :
  framed m -> (forall a, framed (k a)) -> framed (bind m k).
Proof. apply keeps_bind, _. Qed.

Lemma framed_try_catch {A} (m : M A) (h : string -> M A) :
  framed m -> (forall e, framed (h e)) -> framed (try_catch m h).
Proof. apply keeps_try_catch, _. Qed.

Lemma framed_remote c : framed (remote env c).
Proof.
  intros s. unfold remote.
  destruct (remote_publish env c (st_world s)). by repeat split.
Qed.

Lemma framed_getUserPages tok : framed (facebookService_getUserPages env tok).
Proof.
  intros s. unfold facebookService_getUserPages.
  destruct (remote_pages env tok (st_world s)) as [[pages|e] w]; by repeat split.
Qed.

Lemma framed_for_of {A S} (l : list A) (body : A -> S -> M S) acc :
  (forall x a, framed (body x a)) -> framed (for_of l body acc).
Proof. apply keeps_for_of, _. Qed.

Ltac frame_step :=
  first [ apply framed_ret | apply framed_throw | apply framed_remote
        | apply framed_getUserPages
        | apply framed_bind; [|intros ?] | apply framed_try_catch; [|intros ?]
        | case_match ].

Lemma framed_publish_switch post acc p : framed (publish_switch env post acc p).
Proof.
  unfold publish_switch, facebookService_postToPage, instagramService_publishPhoto,
    instagramService_publishVideo, pinterestService_createPin, rethrow.
  repeat frame_step.
Qed.

Lemma framed_attempt post user p : framed (attempt env post user p).
Proof.
  unfold attempt. pose proof framed_publish_switch. repeat frame_step; auto.
Qed.

Lemma framed_publish_iteration post user p acc :
  framed (publish_iteration env post user p acc).
Proof.
  unfold publish_iteration. destruct acc as [results errors].
  pose proof framed_publish_switch. repeat frame_step; auto.
Qed.

Lemma framed_publish_loop post user : framed (publish_loop env post user).
Proof. apply framed_for_of. intros. apply framed_publish_iteration. Qed.

(** *** What one iteration records *)

(** A publish method resolves to [{ success: true, ..., platform }] with
    its own platform name. *)
Lemma publish_method_platform fallback c name s r s' :
  rethrow fallback (x <~ remote env c ;; ret (mkPostResult true x name)) s
    = (Ok r, s') ->
  pr_platform r = name /\ pr_success r = true.
Proof.
  run_m. destruct (remote_publish env c (st_world s)) as [[x|e] w]; simpl.
  - by intros [= <- _].
  - discriminate.
Qed.

(** A defined [postResult] carries the name of the [case] that made it. *)
Lemma publish_switch_platform post acc p s r s' :
  publish_switch env post acc p s = (Ok (Some r), s') ->
  Js.toLowerCase (pr_platform r) = Js.toLowerCase p /\ pr_success r = true.
Proof.
  unfold publish_switch, facebookService_postToPage, instagramService_publishPhoto,
    instagramService_publishVideo, pinterestService_createPin.
  intros H.
  repeat lazymatch type of H with
         | (if String.eqb (Js.toLowerCase p) ?b then _ else _) _ = _ =>
             let Heq := fresh "Hname" in
             destruct (String.eqb_spec (Js.toLowerCase p) b) as [Heq|_]
         | (if ?b then _ else _) _ = _ => destruct b
         | (match ?o with _ => _ end) _ = _ => destruct o
         | bind ?m _ ?st = _ =>
             unfold bind at 1 in H;
             let E := fresh "E" in
             destruct (m st) as [[?|?] ?] eqn:E; cbv beta iota in H
         | ret _ _ = _ => unfold ret in H
         | throw _ _ = _ => unfold throw in H
         end;
    try discriminate; injection H as <- <-.
  all: match goal with
       | E : rethrow _ _ _ = (Ok _, _), Hname : Js.toLowerCase _ = _ |- _ =>
           apply publish_method_platform in E as [E ?]; by rewrite E, Hname
       end.
Qed.

(** An iteration for the pseudo-platform ['all'] records nothing. *)
Lemma publish_iteration_all post user results errors s :
  publish_iteration env post user "all" (results, errors) s
    = (Ok (results, errors), s).
Proof. reflexivity. Qed.

(** An iteration for a targeted platform makes the attempt and records
    its outcome in exactly one of the two arrays. *)
Lemma publish_iteration_spec post user p results errors s :
  String.eqb p "all" = false ->
  exists ok s',
    attempt env post user p s = (Ok ok, s') /\
    if ok then
      exists x,
        publish_iteration env post user p (results, errors) s
          = (Ok (results ++ [x], errors), s') /\
        Js.toLowerCase (re_platform x) = Js.toLowerCase p /\
        re_success x = true
    else
      exists message,
        publish_iteration env post user p (results, errors) s
          = (Ok (results, errors ++ [mkErrorEntry p message]), s').
Proof.
  intros Hp. unfold attempt, publish_iteration. rewrite Hp.
  destruct (find_connectedAccount user p) as [acc|].
  - unfold try_catch, bind, ret.
    destruct (publish_switch env post acc p s) as [[[r|]|e] s1] eqn:E.
    + exists true, s1. split; [done|]. eexists. split; [done|]. simpl.
      by eapply publish_switch_platform.
    + exists true, s1. split; [done|]. by eexists.
    + exists false, s1. split; [done|]. by eexists.
  - exists false, s. split; [done|]. by eexists.
Qed.

(** The loop, from any intermediate arrays: it never throws, and what it
    appends is the outcome list split by success. *)
Lemma publish_loop_from post user l :
  forall results errors log s,
  exists r' e' log' s',
    for_of l (publish_iteration env post user) (results, errors) s
      = (Ok (results ++ r', errors ++ e'), s') /\
    for_of (List.filter not_all l)
           (fun p log => ok <~ attempt env post user p ;; ret (log ++ [(p, ok)]))
           log s
      = (Ok (log ++ log'), s') /\
    map fst log' = List.filter not_all l /\
    map (fun x => Js.toLowerCase (re_platform x)) r'
      = map Js.toLowerCase (succeeded log') /\
    Forall (fun x => re_success x = true) r' /\
    map ee_platform e' = failed_platforms log'.
Proof.
  induction l as [|p l IH]; intros results errors log s.
  - exists [], [], [], s. simpl. unfold ret. by rewrite !app_nil_r.
  - destruct (String.eqb_spec p "all") as [->|Hp].
    + change (List.filter not_all ("all" :: l)) with (List.filter not_all l).
      rewrite (for_of_cons_ok _ _ _ _ _ _ _ (publish_iteration_all _ _ _ _ _)).
      apply IH.
    + apply String.eqb_neq in Hp.
      assert (List.filter not_all (p :: l) = p :: List.filter not_all l) as ->.
      { cbn [List.filter]. unfold not_all at 1. by rewrite Hp. }
      destruct (publish_iteration_spec post user p results errors s Hp)
        as (ok & s1 & Hatt & Hit).
      rewrite (for_of_cons_ok _ _ _ _ _ (log ++ [(p, ok)]) s1)
        by (by rewrite (bind_ok _ _ _ _ _ Hatt)).
      destruct ok.
      * destruct Hit as (x & Hit & Hx & Hsucc).
        rewrite (for_of_cons_ok _ _ _ _ _ _ _ Hit).
        destruct (IH (results ++ [x]) errors (log ++ [(p, true)]) s1)
          as (r' & e' & log' & s' & -> & -> & Hfst & Hr & Hs & He).
        exists (x :: r'), e', ((p, true) :: log'), s'.
        rewrite <- !app_assoc.
        repeat split; try done.
        -- cbn [map fst]. congruence.
        -- unfold succeeded in *. cbn [List.filter snd map fst]. congruence.
        -- by constructor.
      * destruct Hit as (message & Hit).
        rewrite (for_of_cons_ok _ _ _ _ _ _ _ Hit).
        destruct (IH results (errors ++ [mkErrorEntry p message])
                     (log ++ [(p, false)]) s1)
          as (r' & e' & log' & s' & -> & -> & Hfst & Hr & Hs & He).
        exists r', (mkErrorEntry p message :: e'), ((p, false) :: log'), s'.
        rewrite <- !app_assoc.
        repeat split; try done.
        -- cbn [map fst]. congruence.
        -- unfold failed_platforms in *.
           cbn [List.filter snd negb map fst ee_platform]. congruence.
Qed.

(** *** Store operations, by the answer of the store *)

Lemma fault_answered n s : fault n (answered s) = fault (S n) s.
Proof. unfold fault, answered. simpl. by destruct (st_dbFaults s), n. Qed.

Lemma fault_frame n s s1 : local_frame s s1 -> fault n s1 = fault n s.
Proof. intros (_ & _ & H & _). unfold fault. by rewrite H. Qed.

Lemma db_available_eq s :
  db_available s
    = (if fault 0 s then Throw "store unavailable" else Ok tt, answered s).
Proof.
  unfold db_available, fault, answered. by destruct (st_dbFaults s) as [|[] ?].
Qed.

Lemma User_findById_eq id s :
  User_findById id s
    = (if fault 0 s then Throw "store unavailable"
       else Ok (List.find (fun u => String.eqb (user_id u) id) (st_users s)),
       answered s).
Proof.
  unfold User_findById, bind. rewrite db_available_eq. by destruct (fault 0 s).
Qed.

Lemma Post_save_eq p s :
  Post_save p s
    = if fault 0 s then (Throw "store unavailable", answered s)
      else (Ok tt,
            set_posts (map (write_status (post_id p) (post_status p)) (st_posts s))
                      (answered s)).
Proof.
  unfold Post_save, bind. rewrite db_available_eq. by destruct (fault 0 s).
Qed.

(** The loop as the outcome list sees it. *)
Lemma publish_loop_outcomes post user s :
  exists results errors log s',
    publish_loop env post user s = (Ok (results, errors), s') /\
    dispatch_outcomes env post user s = (Ok log, s') /\
    map fst log = targeted post /\
    map (fun x => Js.toLowerCase (re_platform x)) results
      = map Js.toLowerCase (succeeded log) /\
    Forall (fun x => re_success x = true) results /\
    map ee_platform errors = failed_platforms log.
Proof.
  destruct (publish_loop_from post user (post_targets post) [] [] [] s)
    as (r & e & log & s' & H1 & H2 & H3 & H4 & H5 & H6).
  exists r, e, log, s'. by repeat split.
Qed.

Lemma terminal_status_published results :
  terminal_status results = published <-> results <> [].
Proof. unfold terminal_status. destruct results; simpl; split; done. Qed.

Lemma terminal_status_failed results :
  terminal_status results = failed <-> results = [].
Proof. unfold terminal_status. destruct results; simpl; split; done. Qed.

Lemma succeeded_nonempty log :
  succeeded log <> [] <-> Exists (fun o => snd o = true) log.
Proof.
  unfold succeeded. induction log as [|[p []] log IH]; simpl.
  - split; [done|]. by intros ?%Exists_nil.
  - split; [by constructor | done].
  - rewrite IH. split; [by apply Exists_cons_tl|]. by intros [?|?]%Exists_cons.
Qed.

Lemma succeeded_empty log :
  succeeded log = [] <-> Forall (fun o => snd o = false) log.
Proof.
  unfold succeeded. induction log as [|[p []] log IH]; simpl.
  - done.
  - split; [done|]. by intros [? _]%Forall_cons.
  - rewrite IH. split; [by constructor|]. by intros [_ ?]%Forall_cons.
Qed.

(** *** processScheduledPost, case by case *)

(** The owner is found: the loop runs from the state after the lookup,
    then the status is saved; if that save rejects, the [catch] saves
    ['failed']. *)
Lemma processScheduledPost_found post user s :
  fault 0 s = false ->
  find_user (post_user post) s = Some user ->
  exists results errors s1,
    publish_loop env post user (answered s) = (Ok (results, errors), s1) /\
    processScheduledPost env post s
      = if fault 1 s
        then Post_save (set_status failed post) (answered s1)
        else (Ok tt,
              set_posts (map (write_status (post_id post) (terminal_status results))
                             (st_posts s))
                        (answered s1)).
Proof.
  intros Hf0 Hu.
  destruct (publish_loop_outcomes post user (answered s))
    as (results & errors & log & s1 & Hloop & _).
  exists results, errors, s1. split; [done|].
  pose proof (framed_publish_loop post user (answered s)) as Hfr.
  rewrite Hloop in Hfr. cbn [snd] in Hfr.
  unfold processScheduledPost, try_catch.
  rewrite (bind_ok _ _ _ _ _ (eq_trans (User_findById_eq _ _)
             ltac:(rewrite Hf0; reflexivity))).
  fold (find_user (post_user post) s). rewrite Hu.
  rewrite (bind_ok _ _ _ _ _ Hloop). cbn [fst].
  rewrite Post_save_eq, (fault_frame 0 _ _ Hfr), fault_answered.
  destruct (fault 1 s); [done|].
  destruct Hfr as (-> & _). done.
Qed.

(** The owner is not found: [return], nothing else. *)
Lemma processScheduledPost_no_user post s :
  fault 0 s = false ->
  find_user (post_user post) s = None ->
  processScheduledPost env post s = (Ok tt, answered s).
Proof.
  intros Hf0 Hu. unfold processScheduledPost, try_catch.
  rewrite (bind_ok _ _ _ _ _ (eq_trans (User_findById_eq _ _)
             ltac:(rewrite Hf0; reflexivity))).
  fold (find_user (post_user post) s). by rewrite Hu.
Qed.

(** The lookup itself rejects: the [catch] saves ['failed']. *)
Lemma processScheduledPost_lookup_fault post s :
  fault 0 s = true ->
  processScheduledPost env post s = Post_save (set_status failed post) (answered s).
Proof.
  intros Hf0. unfold processScheduledPost, try_catch.
  rewrite (bind_throw _ _ _ _ _ (eq_trans (User_findById_eq _ _)
             ltac:(rewrite Hf0; reflexivity))).
  done.
Qed.

(** *** The claims about one dispatch *)


(** C1, as the code has it.  When the owner is found and the store takes
    the save of the result, the status written for the job is [published]
    exactly when at least one targeted platform's attempt succeeded and
    [failed] exactly when every attempt failed (in particular when no
    platform was eligible). *)
Theorem terminal_status_by_outcomes post user s :
  fault 0 s = false ->
  fault 1 s = false ->
  find_user (post_user post) s = Some user ->
  exists log s1 s' T,
    dispatch_outcomes env post user (answered s) = (Ok log, s1) /\
    map fst log = targeted post /\
    processScheduledPost env post s = (Ok tt, s') /\
    st_posts s' = map (write_status (post_id post) T) (st_posts s) /\
    (T = published <-> Exists (fun o => snd o = true) log) /\
    (T = failed <-> Forall (fun o => snd o = false) log).
Proof.
  intros Hf0 Hf1 Hu.
  destruct (processScheduledPost_found post user s Hf0 Hu)
    as (results & errors & s1 & Hloop & Hrun).
  destruct (publish_loop_outcomes post user (answered s))
    as (results' & errors' & log & s1' & Hloop' & Hlog & Hfst & Hres & _).
  rewrite Hloop in Hloop'. injection Hloop' as <- <- <-.
  rewrite Hf1 in Hrun.
  do 3 eexists. exists (terminal_status results).
  split; [exact Hlog|]. split; [done|]. split; [exact Hrun|]. split; [done|].
  repeat split.
  - intros HT%terminal_status_published. apply succeeded_nonempty.
    intros E. rewrite E in Hres. by destruct results.
  - intros HE%succeeded_nonempty. apply terminal_status_published.
    intros ->. by destruct (succeeded log).
  - intros HT%terminal_status_failed. apply succeeded_empty.
    subst results. by destruct (succeeded log).
  - intros HE%succeeded_empty. apply terminal_status_failed.
    rewrite HE in Hres. by destruct results.
Qed.

(** [find] answers nothing exactly when no account of the platform is
    active: the credential is absent or inactive. *)
Lemma find_connectedAccount_None user p :
  find_connectedAccount user p = None <->
  (forall acc, In acc (user_connectedAccounts user) ->
               Js.toLowerCase (acc_platform acc) = Js.toLowerCase p ->
               acc_isActive acc = false).
Proof.
  unfold find_connectedAccount. split.
  - intros H acc Hin Hp.
    pose proof (find_none _ _ H acc Hin) as Hn. cbn beta in Hn.
    rewrite Hp, String.eqb_refl in Hn. done.
  - intros H. induction (user_connectedAccounts user) as [|a l IH]; [done|].
    simpl. destruct (String.eqb_spec (Js.toLowerCase (acc_platform a))
                                     (Js.toLowerCase p)) as [E|_]; simpl.
    + rewrite (H a (or_introl eq_refl) E). apply IH. intros; apply H; auto.
      by right.
    + apply IH. intros; apply H; auto. by right.
Qed.

(** C4, as the code has it.  For a targeted platform whose credential is
    absent or inactive the iteration records the failure ['Account not
    connected or inactive'] and nothing else happens: the state, hence the
    call log and the remote world, is unchanged, and the loop goes on with
    the remaining platforms. *)
Theorem missing_credential_recorded post user p rest results errors s :
  String.eqb p "all" = false ->
  (forall acc, In acc (user_connectedAccounts user) ->
               Js.toLowerCase (acc_platform acc) = Js.toLowerCase p ->
               acc_isActive acc = false) ->
  let errors' := errors ++ [mkErrorEntry p "Account not connected or inactive"] in
  publish_iteration env post user p (results, errors) s
    = (Ok (results, errors'), s) /\
  attempt env post user p s = (Ok false, s) /\
  for_of (p :: rest) (publish_iteration env post user) (results, errors) s
    = for_of rest (publish_iteration env post user) (results, errors') s.
Proof.
  intros Hp Hacc errors'. apply find_connectedAccount_None in Hacc.
  assert (publish_iteration env post user p (results, errors) s
          = (Ok (results, errors'), s)) as Hit.
  { unfold publish_iteration. by rewrite Hp, Hacc. }
  split; [done|]. split.
  - unfold attempt. by rewrite Hacc.
  - by apply for_of_cons_ok.
Qed.

(** C6, as the code has it.  When the save of the result rejects, the
    [catch] sets the status to ['failed'] and saves again: if that second
    save is taken the job is stored as [failed], whatever the platforms
    did; if it rejects too, the stored jobs are as before and the
    exception leaves processScheduledPost. *)
Theorem result_save_rejected post user s :
  fault 0 s = false ->
  fault 1 s = true ->
  find_user (post_user post) s = Some user ->
  let out := processScheduledPost env post s in
  if fault 2 s
  then fst out = Throw "store unavailable" /\ st_posts (snd out) = st_posts s
  else fst out = Ok tt /\
       st_posts (snd out) = map (write_status (post_id post) failed) (st_posts s).
Proof.
  intros Hf0 Hf1 Hu out.
  destruct (processScheduledPost_found post user s Hf0 Hu)
    as (results & errors & s1 & Hloop & Hrun).
  pose proof (framed_publish_loop post user (answered s)) as Hfr.
  rewrite Hloop in Hfr. cbn [snd] in Hfr.
  subst out. rewrite Hrun, Hf1, Post_save_eq.
  rewrite fault_answered, (fault_frame 1 _ _ Hfr), fault_answered.
  destruct Hfr as (Hposts & _).
  change (st_posts (answered s)) with (st_posts s) in Hposts.
  destruct (fault 2 s); cbn [fst snd]; (split; [done|]); simpl; by rewrite Hposts.
Qed.

(** A dispatch never writes the User collection. *)
Lemma processScheduledPost_users post s :
  st_users (snd (processScheduledPost env post s)) = st_users s.
Proof.
  assert (forall (p : Post) (s1 : @State W),
            st_users (snd (Post_save p s1)) = st_users s1) as Hsave.
  { intros p s1. rewrite Post_save_eq. by destruct (fault 0 s1). }
  destruct (fault 0 s) eqn:Hf0.
  - rewrite processScheduledPost_lookup_fault by done. by rewrite Hsave.
  - destruct (find_user (post_user post) s) as [user|] eqn:Hu.
    + destruct (processScheduledPost_found post user s Hf0 Hu)
        as (results & errors & s1 & Hloop & ->).
      pose proof (framed_publish_loop post user (answered s)) as Hfr.
      rewrite Hloop in Hfr. cbn [snd] in Hfr. destruct Hfr as (_ & Husers & _).
      destruct (fault 1 s); [by rewrite Hsave|done].
    + by rewrite processScheduledPost_no_user.
Qed.

(** A dispatch never touches the processed-code sets or the timers. *)
Lemma processScheduledPost_guard post s :
  st_globals (snd (processScheduledPost env post s)) = st_globals s /\
  st_timers (snd (processScheduledPost env post s)) = st_timers s.
Proof.
  assert (forall (p : Post) (s1 : @State W),
            st_globals (snd (Post_save p s1)) = st_globals s1 /\
            st_timers (snd (Post_save p s1)) = st_timers s1) as Hsave.
  { intros p s1. rewrite Post_save_eq. by destruct (fault 0 s1). }
  destruct (fault 0 s) eqn:Hf0.
  - rewrite processScheduledPost_lookup_fault by done.
    by destruct (Hsave (set_status failed post) (answered s)) as [-> ->].
  - destruct (find_user (post_user post) s) as [user|] eqn:Hu.
    + destruct (processScheduledPost_found post user s Hf0 Hu)
        as (results & errors & s1 & Hloop & ->).
      pose proof (framed_publish_loop post user (answered s)) as Hfr.
      rewrite Hloop in Hfr. cbn [snd] in Hfr.
      destruct Hfr as (_ & _ & _ & Hg & Ht & _).
      destruct (fault 1 s).
      * destruct (Hsave (set_status failed post) (answered s1)) as [-> ->]. done.
      * done.
    + by rewrite processScheduledPost_no_user.
Qed.

(** What a dispatch does to the Post collection, in every case. *)
Lemma processScheduledPost_posts post s :
  let s' := snd (processScheduledPost env post s) in
  st_posts s' = st_posts s \/
  exists T, (T = published \/ T = failed) /\
            st_posts s' = map (write_status (post_id post) T) (st_posts s).
Proof.
  intros s'. subst s'.
  assert (forall s1 : @State W, st_posts s1 = st_posts s ->
            let s' := snd (Post_save (set_status failed post) s1) in
            st_posts s' = st_posts s \/
            exists T, (T = published \/ T = failed) /\
              st_posts s' = map (write_status (post_id post) T) (st_posts s))
    as Hcatch.
  { intros s1 Hs1. rewrite Post_save_eq. destruct (fault 0 s1); cbn.
    - by left.
    - right. exists failed. rewrite Hs1. auto. }
  destruct (fault 0 s) eqn:Hf0.
  - rewrite processScheduledPost_lookup_fault by done. by apply Hcatch.
  - destruct (find_user (post_user post) s) as [user|] eqn:Hu.
    + destruct (processScheduledPost_found post user s Hf0 Hu)
        as (results & errors & s1 & Hloop & ->).
      pose proof (framed_publish_loop post user (answered s)) as Hfr.
      rewrite Hloop in Hfr. cbn [snd] in Hfr. destruct Hfr as (Hposts & _).
      destruct (fault 1 s).
      * by apply Hcatch.
      * right. exists (terminal_status results). split; [|done].
        unfold terminal_status. destruct (0 <? length results)%nat; auto.
    + rewrite processScheduledPost_no_user by done. by left.
Qed.

(** C8, as the code has it.  All that a dispatch persists is the job's
    status: the stored jobs afterwards are the stored jobs before, or the
    stored jobs before with one status ([published] or [failed]) written
    to the documents of this job, and the User collection is as before.
    The [results] and [errors] arrays are local to processScheduledPost. *)
Theorem dispatch_persists_status_only post s :
  let s' := snd (processScheduledPost env post s) in
  st_users s' = st_users s /\
  (st_posts s' = st_posts s \/
   exists T, (T = published \/ T = failed) /\
             st_posts s' = map (write_status (post_id post) T) (st_posts s)).
Proof.
  split; [|apply processScheduledPost_posts].
  apply processScheduledPost_users.
Qed.

End Dispatch.

(* ===================================================================== *)
(** ** Properties of the selection and of the scheduler ticks *)
(* ===================================================================== *)

Lemma is_due_spec now p :
  is_due now p = true <->
  post_status p = scheduled /\
  exists d, post_scheduledDate p = Some d /\ (d <= now)%Z.
Proof.
  unfold is_due. rewrite andb_true_iff, bool_decide_eq_true.
  destruct (post_scheduledDate p) as [d|].
  - rewrite Z.leb_le. split.
    + intros [? ?]. eauto.
    + intros [? (d' & [= <-] & ?)]. done.
  - split; [by intros [_ ?]|]. by intros [_ (d & ? & _)].
Qed.

(** A job that is due stays due as the clock moves on, while its status
    is ['scheduled']. *)
Lemma is_due_later now now' p :
  (now <= now')%Z -> is_due now p = true -> is_due now' p = true.
Proof.
  rewrite !is_due_spec. intros Hle (Hs & d & Hd & Hdn).
  split; [done|]. exists d. split; [done|]. lia.
Qed.

Lemma filter_sublist_of {A} (f : A -> bool) (l : list A) :
  sublist (List.filter f l) l.
Proof.
  induction l as [|x l IH]; simpl; [constructor|].
  destruct (f x); by constructor.
Qed.

Lemma In_take {A} (x : A) n l : In x (take n l) -> In x l.
Proof. rewrite <- !list_elem_of_In. apply subseteq_take. Qed.

(** *** The order of the index *)

Lemma index_insert_perm p l : Permutation (index_insert p l) (p :: l).
Proof.
  induction l as [|q l IH]; cbn [index_insert]; [done|].
  destruct (index_key q <? index_key p)%Z; [|done].
  rewrite IH. apply perm_swap.
Qed.

Lemma index_order_perm l : Permutation (index_order l) l.
Proof.
  induction l as [|p l IH]; cbn [index_order]; [done|].
  rewrite index_insert_perm. by constructor.
Qed.

Lemma index_order_In p l : In p (index_order l) <-> In p l.
Proof.
  split; apply Permutation_in; [|symmetry]; apply index_order_perm.
Qed.

Lemma index_insert_sorted p l :
  StronglySorted (fun p q => (index_key p <= index_key q)%Z) l ->
  StronglySorted (fun p q => (index_key p <= index_key q)%Z) (index_insert p l).
Proof.
  induction 1 as [|q l Hl IH Hq]; cbn [index_insert].
  - constructor; constructor.
  - destruct (Z.ltb_spec (index_key q) (index_key p)) as [Hlt|Hge].
    + constructor; [done|].
      apply List.Forall_forall. intros x Hx.
      apply (Permutation_in _ (index_insert_perm p l)) in Hx as [<-|Hx]; [lia|].
      rewrite List.Forall_forall in Hq. by apply Hq.
    + constructor; [by constructor|].
      constructor; [done|].
      eapply List.Forall_impl; [|exact Hq]. intros x Hx. cbn beta in *. lia.
Qed.

Lemma index_order_sorted l :
  StronglySorted (fun p q => (index_key p <= index_key q)%Z) (index_order l).
Proof.
  induction l as [|p l IH]; cbn [index_order]; [constructor|].
  by apply index_insert_sorted.
Qed.

Lemma sorted_app {A} (R : A -> A -> Prop) (l1 l2 : list A) :
  StronglySorted R (l1 ++ l2) ->
  StronglySorted R l1 /\ StronglySorted R l2 /\
  (forall x y, In x l1 -> In y l2 -> R x y).
Proof.
  induction l1 as [|a l1 IH]; cbn [app].
  - intros H. split; [constructor|]. split; [done|]. by intros x y [].
  - intros H. apply StronglySorted_inv in H as [H Ha].
    destruct (IH H) as (H1 & H2 & H12).
    apply List.Forall_app in Ha as [Ha1 Ha2].
    split; [by constructor|]. split; [done|].
    intros x y [<-|Hx] Hy; [|by apply H12].
    rewrite List.Forall_forall in Ha2. by apply Ha2.
Qed.

Lemma filter_filter_andb {A} (f g : A -> bool) (l : list A) :
  List.filter f (List.filter g l) = List.filter (fun x => g x && f x) l.
Proof.
  induction l as [|x l IH]; [done|]. cbn [List.filter].
  destruct (g x); cbn [List.filter andb]; by rewrite IH.
Qed.

Lemma filter_perm {A} (f : A -> bool) (l l' : list A) :
  Permutation l l' -> Permutation (List.filter f l) (List.filter f l').
Proof.
  induction 1 as [|x l l' _ IH|x y l|l l' l'' _ IH1 _ IH2]; cbn [List.filter].
  - done.
  - destruct (f x); [by constructor|done].
  - destruct (f x), (f y); try done. apply perm_swap.
  - by etrans.
Qed.

Lemma filter_all {A} (f : A -> bool) (l : list A) :
  (forall x, In x l -> f x = true) -> List.filter f l = l.
Proof.
  induction l as [|x l IH]; [done|]. intros H. cbn [List.filter].
  rewrite (H x (or_introl eq_refl)), IH; [done|].
  intros y Hy. apply H. by right.
Qed.

Lemma index_insert_head x l :
  (forall q, head l = Some q -> (index_key x <= index_key q)%Z) ->
  index_insert x l = x :: l.
Proof.
  destruct l as [|q l]; [done|]. intros H. cbn [index_insert].
  destruct (Z.ltb_spec (index_key q) (index_key x)) as [Hlt|_]; [|done].
  specialize (H q eq_refl). lia.
Qed.

Lemma index_insert_sublist x l : sublist l (index_insert x l).
Proof.
  induction l as [|q l IH]; cbn [index_insert]; [by constructor|].
  destruct (index_key q <? index_key x)%Z; by constructor.
Qed.

(** The index of a part of the collection is a part of the index. *)
Lemma index_insert_mono x l1 l2 :
  StronglySorted (fun p q => (index_key p <= index_key q)%Z) l2 ->
  sublist l1 l2 -> sublist (index_insert x l1) (index_insert x l2).
Proof.
  intros Hs Hsub. induction Hsub as [|q l1 l2 Hsub IH|q l1 l2 Hsub IH].
  - constructor. constructor.
  - apply StronglySorted_inv in Hs as [Hs _]. cbn [index_insert].
    destruct (index_key q <? index_key x)%Z; constructor; [by apply IH|].
    by constructor.
  - apply StronglySorted_inv in Hs as [Hs Hq]. cbn [index_insert].
    destruct (Z.ltb_spec (index_key q) (index_key x)) as [Hlt|Hge].
    + constructor. by apply IH.
    + rewrite index_insert_head.
      * constructor. by constructor.
      * intros p Hp. rewrite List.Forall_forall in Hq.
        assert (In p l2) as Hin.
        { rewrite <- list_elem_of_In. eapply sublist_subseteq; [exact Hsub|].
          destruct l1; [done|]. injection Hp as ->. by left. }
        specialize (Hq p Hin). cbn beta in Hq. lia.
Qed.

Lemma index_order_mono l1 l2 :
  sublist l1 l2 -> sublist (index_order l1) (index_order l2).
Proof.
  induction 1 as [|q l1 l2 _ IH|q l1 l2 _ IH]; cbn [index_order].
  - constructor.
  - apply index_insert_mono; [apply index_order_sorted|done].
  - etrans; [exact IH|apply index_insert_sublist].
Qed.

(** An element among the first [n] stays among the first [n] of a part
    that still holds it. *)
Lemma take_sublist_In {A} (x : A) n l1 l2 :
  NoDup l2 -> sublist l1 l2 -> In x (take n l2) -> In x l1 -> In x (take n l1).
Proof.
  intros Hnd Hsub. revert n.
  induction Hsub as [|y l1 l2 Hsub IH|y l1 l2 Hsub IH]; intros n Hx Hin.
  - destruct Hin.
  - apply NoDup_cons in Hnd as [Hy Hnd].
    destruct n as [|n]; [destruct Hx|]. cbn [take] in *.
    destruct Hx as [->|Hx]; [by left|]. right.
    destruct Hin as [->|Hin]; [|by apply IH].
    exfalso. apply Hy. apply list_elem_of_In. by apply In_take in Hx.
  - apply NoDup_cons in Hnd as [Hy Hnd].
    destruct n as [|n]; [destruct Hx|]. cbn [take] in Hx.
    destruct Hx as [->|Hx].
    + exfalso. apply Hy. eapply sublist_subseteq; [exact Hsub|].
      by apply list_elem_of_In.
    + specialize (IH Hnd n Hx Hin).
      rewrite <- list_elem_of_In in *.
      assert (take n l1 = take n (take (S n) l1)) as E
        by (rewrite take_take; f_equal; lia).
      rewrite E in IH. by apply subseteq_take in IH.
Qed.

Lemma index_insert_low x l1 l2 :
  (forall q, In q l2 -> (index_key x <= index_key q)%Z) ->
  index_insert x (l1 ++ l2) = index_insert x l1 ++ l2.
Proof.
  intros H. induction l1 as [|p l1 IH]; cbn [app index_insert].
  - apply index_insert_head. intros q Hq. apply H. destruct l2; [done|].
    injection Hq as ->. by left.
  - destruct (index_key p <? index_key x)%Z; [|done]. by rewrite IH.
Qed.

Lemma index_insert_high x l1 l2 :
  (forall q, In q l1 -> (index_key q < index_key x)%Z) ->
  index_insert x (l1 ++ l2) = l1 ++ index_insert x l2.
Proof.
  intros H. induction l1 as [|p l1 IH]; cbn [app index_insert]; [done|].
  destruct (Z.ltb_spec (index_key p) (index_key x)) as [_|Hge].
  - rewrite IH; [done|]. intros q Hq. apply H. by right.
  - specialize (H p (or_introl eq_refl)). lia.
Qed.

(** The index up to a date comes first. *)
Lemma index_order_split t l :
  index_order l
    = index_order (List.filter (fun p => (index_key p <=? t)%Z) l)
      ++ index_order (List.filter (fun p => negb (index_key p <=? t)%Z) l).
Proof.
  induction l as [|x l IH]; [done|]. cbn [index_order List.filter].
  rewrite IH at 1.
  destruct (Z.leb_spec (index_key x) t) as [Hle|Hgt]; cbn [negb index_order].
  - apply index_insert_low. intros q Hq.
    apply (proj1 (index_order_In _ _)), filter_In in Hq as [_ Hq].
    apply negb_true_iff, Z.leb_gt in Hq. lia.
  - apply index_insert_high. intros q Hq.
    apply (proj1 (index_order_In _ _)), filter_In in Hq as [_ Hq].
    apply Z.leb_le in Hq. lia.
Qed.

(** The due jobs of a later state, as far as they were due before, are
    among the due jobs of the earlier state. *)
Lemma aged_due_sublist now now' l l' :
  Forall2 aged l l' ->
  sublist (List.filter (fun p => (index_key p <=? now)%Z)
                       (List.filter (is_due now') l'))
          (List.filter (is_due now) l).
Proof.
  induction 1 as [|p p' l l' Hage _ IH]; cbn [List.filter]; [constructor|].
  destruct (is_due now' p') eqn:Hdue'; cbn [List.filter].
  - destruct (Z.leb_spec (index_key p') now) as [Hle|_].
    + assert (p' = p) as ->.
      { destruct Hage as [|Hne]; [done|].
        by apply is_due_spec in Hdue' as [? _]. }
      assert (is_due now p = true) as ->.
      { apply is_due_spec in Hdue' as (Hst & d & Hd & _).
        apply is_due_spec. split; [done|]. exists d. split; [done|].
        unfold index_key in Hle. by rewrite Hd in Hle. }
      by constructor.
    + destruct (is_due now p); [by constructor|done].
  - destruct (is_due now p); [by constructor|done].
Qed.

(** A job among the first 10 of the index stays among them as time
    passes and other jobs leave ['scheduled']. *)
Lemma selected_again now now' l l' J :
  (now <= now')%Z ->
  Forall2 aged l l' ->
  NoDup l ->
  In J (take 10 (index_order (List.filter (is_due now) l))) ->
  In J l' ->
  In J (take 10 (index_order (List.filter (is_due now') l'))).
Proof.
  intros Hle Hage Hnd HJ HJ'.
  assert (is_due now J = true) as Hdue.
  { apply In_take, (proj1 (index_order_In _ _)), filter_In in HJ as [_ ?]. done. }
  set (low := fun p : Post => (index_key p <=? now)%Z).
  rewrite (index_order_split now (List.filter (is_due now') l')).
  fold low. rewrite take_app. apply in_or_app. left.
  apply (take_sublist_In J 10 _ (index_order (List.filter (is_due now) l))).
  - rewrite index_order_perm. apply NoDup_ListNoDup, List.NoDup_filter.
    by apply NoDup_ListNoDup.
  - apply index_order_mono. by apply aged_due_sublist.
  - done.
  - apply index_order_In, filter_In. split.
    + apply filter_In. split; [done|]. by eapply is_due_later.
    + unfold low. apply Z.leb_le.
      apply is_due_spec in Hdue as (_ & d & Hd & ?).
      unfold index_key. by rewrite Hd.
Qed.

Lemma NoDup_ids (l : list Post) p q :
  NoDup (map post_id l) -> In p l -> In q l -> post_id p = post_id q -> p = q.
Proof.
  induction l as [|a l IH]; cbn [map In]; [done|].
  intros [Hna Hnd]%NoDup_cons [->|Hp] [->|Hq] E; try done.
  - exfalso. apply Hna. rewrite E. apply list_elem_of_In. by apply in_map.
  - exfalso. apply Hna. rewrite <- E. apply list_elem_of_In. by apply in_map.
  - by apply IH.
Qed.

Section Selection.

Context {W : Type} (env : @Env W).

(* The vocabulary at the world of this section. *)
Local Abbreviation local_frame := (local_frame (W:=W)) (only parsing).
Local Abbreviation framed := (framed (W:=W)) (only parsing).
Local Abbreviation fault := (fault (W:=W)) (only parsing).
Local Abbreviation answered := (answered (W:=W)) (only parsing).
Local Abbreviation find_user := (find_user (W:=W)) (only parsing).
Local Abbreviation left_scheduled := (left_scheduled (W:=W)) (only parsing).
Local Abbreviation owner_missing := (owner_missing (W:=W)) (only parsing).
Local Abbreviation held := (held (W:=W)) (only parsing).
Local Abbreviation guard_ok := (guard_ok (W:=W)) (only parsing).
Local Abbreviation link_frame := (link_frame (W:=W)) (only parsing).
Local Abbreviation tracked := (tracked (W:=W)) (only parsing).
Local Abbreviation holding := (holding (W:=W)) (only parsing).

Lemma Post_find_due_eq now n (s : @State W) :
  Post_find_due now n s
    = (if fault 0 s then Throw "store unavailable"
       else Ok (take n (index_order (List.filter (is_due now) (st_posts s)))),
       answered s).
Proof.
  unfold Post_find_due, bind. rewrite db_available_eq. by destruct (fault 0 s).
Qed.

Lemma select_due_eq (s : @State W) :
  select_due s
    = (if fault 0 s then Throw "store unavailable"
       else Ok (take 10 (index_order
                           (List.filter (is_due (st_clock s)) (st_posts s)))),
       answered s).
Proof. unfold select_due, bind, Date_now. apply Post_find_due_eq. Qed.

(** What a batch is. *)
Lemma select_due_batch (s : @State W) batch s' :
  select_due s = (Ok batch, s') ->
  batch = take 10 (index_order (List.filter (is_due (st_clock s)) (st_posts s))) /\
  s' = answered s /\
  Forall (fun p => is_due (st_clock s) p = true) batch /\
  (forall p, In p batch -> In p (st_posts s)).
Proof.
  rewrite select_due_eq. destruct (fault 0 s); [discriminate|].
  intros [= <- <-]. repeat split.
  - apply List.Forall_forall. intros p Hp%In_take.
    apply (proj1 (index_order_In _ _)) in Hp.
    by apply filter_In in Hp as [_ Hp].
  - intros p Hp%In_take. apply (proj1 (index_order_In _ _)) in Hp.
    by apply filter_In in Hp as [Hp _].
Qed.

(** Every job of a batch is a stored job, stored as ['scheduled']. *)
Lemma select_due_In (s : @State W) batch s' p :
  select_due s = (Ok batch, s') -> In p batch ->
  In p (st_posts s) /\ post_status p = scheduled.
Proof.
  intros (_ & _ & Hall & Hin)%select_due_batch Hp. split; [by apply Hin|].
  rewrite List.Forall_forall in Hall. specialize (Hall p Hp).
  by apply is_due_spec in Hall as [? _].
Qed.

(** C7.  A batch holds only jobs that are stored with status
    ['scheduled'] and a due time at or before now, holds at most 10 of
    them, and lists them by due time, oldest first.  It is a selection of
    the stored due jobs (no job twice unless stored twice), and a due job
    is left out only when the batch is full of jobs that are due no later
    than it. *)
Theorem batch_due_capped_oldest_first (s : @State W) batch s' :
  select_due s = (Ok batch, s') ->
  Forall (fun p => post_status p = scheduled /\
                   exists d, post_scheduledDate p = Some d /\ (d <= st_clock s)%Z)
         batch /\
  length batch <= 10 /\
  StronglySorted (fun p q => (due_of p <= due_of q)%Z) batch /\
  (exists rest,
     Permutation (batch ++ rest) (List.filter (is_due (st_clock s)) (st_posts s))) /\
  (forall p, In p (st_posts s) -> is_due (st_clock s) p = true -> ~ In p batch ->
             length batch = 10 /\
             Forall (fun q => (due_of q <= due_of p)%Z) batch).
Proof.
  intros (Hb & _ & Hall & Hin)%select_due_batch.
  set (due := List.filter (is_due (st_clock s)) (st_posts s)) in *.
  pose proof (index_order_sorted due) as Hsorted.
  rewrite <- (take_drop 10 (index_order due)), <- Hb in Hsorted.
  split; [|split; [|split; [|split]]].
  - eapply List.Forall_impl; [|exact Hall]. intros p. apply is_due_spec.
  - rewrite Hb, length_take. lia.
  - by apply sorted_app in Hsorted as (? & _).
  - exists (drop 10 (index_order due)).
    rewrite Hb, take_drop. apply index_order_perm.
  - intros p Hp Hdue Hout.
    assert (In p (drop 10 (index_order due))) as Hrest.
    { assert (In p (index_order due)) as Hp'
        by (apply index_order_In, filter_In; by split).
      rewrite <- (take_drop 10 (index_order due)), <- Hb in Hp'.
      apply in_app_or in Hp' as [?|?]; [done|done]. }
    split.
    + rewrite Hb, length_take.
      assert (10 < length (index_order due)); [|lia].
      destruct (Nat.le_gt_cases (length (index_order due)) 10) as [Hle|]; [|done].
      rewrite drop_ge in Hrest by done. destruct Hrest.
    + apply List.Forall_forall. intros q Hq.
      apply sorted_app in Hsorted as (_ & _ & Hle). by apply Hle.
Qed.

(** *** What the ticks keep *)

Lemma for_of_preserves {A S} (P : @State W -> Prop) (l : list A)
    (body : A -> S -> @M W S) :
  (forall x, In x l -> forall acc s, P s -> P (snd (body x acc s))) ->
  forall acc s, P s -> P (snd (for_of l body acc s)).
Proof.
  induction l as [|x l IH]; intros Hb acc s Hs; [done|].
  cbn [for_of]. unfold bind.
  pose proof (Hb x (or_introl eq_refl) acc s Hs) as Hx.
  destruct (body x acc s) as [[acc'|e] s1]; cbn [snd] in *; [|done].
  apply IH; [|done]. intros y Hy. apply Hb. by right.
Qed.

(** A property of the state that selection and each dispatch of a
    selected job keep is kept by checkScheduledPosts. *)
Lemma checkScheduledPosts_preserves (P : @State W -> Prop) s :
  (forall s, P s -> P (answered s)) ->
  (forall q, In q (st_posts s) -> forall s1, P s1 ->
             P (snd (processScheduledPost env q s1))) ->
  P s -> P (snd (checkScheduledPosts env s)).
Proof.
  intros Hans Hproc Hs. unfold checkScheduledPosts, try_catch, bind.
  destruct (select_due s) as [[batch|e] s1] eqn:Hsel.
  - pose proof (select_due_batch _ _ _ Hsel) as (_ & -> & _).
    assert (P (snd (for_of batch (fun post _ => processScheduledPost env post) tt
                           (answered s)))) as HP.
    { apply for_of_preserves; [|by apply Hans].
      intros q Hq _ s1 Hs1. apply Hproc; [|done].
      by eapply select_due_In. }
    by destruct (for_of batch _ tt (answered s)) as [[[]|e] s2].
  - rewrite select_due_eq in Hsel. destruct (fault 0 s); [|done].
    injection Hsel as _ <-. by apply Hans.
Qed.

Lemma ticks_preserves (P : @State W -> Prop) :
  (forall s, P s -> P (answered s)) ->
  (forall now s, P s -> P (advance now s)) ->
  (forall s, P s -> forall q, In q (st_posts s) -> forall s1, P s1 ->
             P (snd (processScheduledPost env q s1))) ->
  forall times s, P s -> P (ticks env times s).
Proof.
  intros Hans Hadv Hproc times.
  induction times as [|now times IH]; intros s Hs; [done|].
  cbn [ticks]. apply IH. unfold tick.
  apply checkScheduledPosts_preserves; [done| |by apply Hadv].
  apply (Hproc (advance now s)). by apply Hadv.
Qed.

Lemma left_scheduled_dispatch id q s :
  left_scheduled id s -> left_scheduled id (snd (processScheduledPost env q s)).
Proof.
  intros Hs. unfold left_scheduled.
  destruct (processScheduledPost_posts env q s) as [->|(T & HT & ->)]; [done|].
  intros q' (q0 & <- & Hq0)%in_map_iff. unfold write_status.
  destruct (String.eqb (post_id q0) (post_id q)); [|by apply Hs].
  intros _. by destruct HT as [-> | ->].
Qed.

(** C2, as the code has it.  Selection is a read: it changes no stored
    job, and it returns only jobs stored as ['scheduled'].  So a job that
    has left ['scheduled'] is not returned by the selection, nor by any
    selection after any number of further scheduler ticks. *)
Theorem selection_reads_scheduled_only id (s : @State W) :
  st_posts (snd (select_due s)) = st_posts s /\
  (forall batch s' p, select_due s = (Ok batch, s') -> In p batch ->
                      In p (st_posts s) /\ post_status p = scheduled) /\
  (left_scheduled id s ->
   forall times batch s',
     select_due (ticks env times s) = (Ok batch, s') ->
     ~ In id (map post_id batch)).
Proof.
  split; [by rewrite select_due_eq|]. split.
  - intros batch s' p. apply select_due_In.
  - intros Hleft times batch s' Hsel (p & Hid & Hp)%in_map_iff.
    assert (left_scheduled id (ticks env times s)) as Hl.
    { apply ticks_preserves; try done.
      intros s0 _ q _ s1. apply left_scheduled_dispatch. }
    destruct (select_due_In _ _ _ _ Hsel Hp) as [Hin Hst].
    by apply (Hl p Hin Hid).
Qed.

(** *** A job whose owner is missing *)

Lemma answered_id (s : @State W) : st_dbFaults s = [] -> answered s = s.
Proof. destruct s. unfold answered. simpl. by intros ->. Qed.

Lemma fault_none n (s : @State W) : st_dbFaults s = [] -> fault n s = false.
Proof. unfold fault. intros ->. by destruct n. Qed.

Lemma owner_missing_dispatch J q s :
  owner_missing J s ->
  (post_id q = post_id J -> q = J) ->
  owner_missing J (snd (processScheduledPost env q s)).
Proof.
  intros (Hf & Hu & HJ & Huniq) Hq.
  pose proof (fault_none 0 s Hf) as Hf0. pose proof (fault_none 1 s Hf) as Hf1.
  destruct (find_user (post_user q) s) as [user|] eqn:Huq.
  - destruct (processScheduledPost_found env q user s Hf0 Huq)
      as (results & errors & s1 & Hloop & ->).
    rewrite Hf1. cbn [snd].
    pose proof (framed_publish_loop env q user (answered s)) as Hfr.
    rewrite Hloop in Hfr. cbn [snd] in Hfr.
    destruct Hfr as (_ & Husers & Hfaults & _).
    rewrite answered_id in Husers, Hfaults by done.
    assert (post_id q <> post_id J) as Hne.
    { intros E. rewrite (Hq E) in Huq. congruence. }
    assert (forall T, write_status (post_id q) T J = J) as HwJ.
    { intros T. unfold write_status.
      destruct (String.eqb_spec (post_id J) (post_id q)); congruence. }
    repeat split.
    + simpl. by rewrite Hfaults, Hf.
    + unfold find_user in *. simpl. by rewrite Husers.
    + simpl. apply in_map_iff. eexists. split; [apply HwJ|done].
    + simpl. intros q' (q0 & <- & Hq0)%in_map_iff Hid.
      assert (post_id q0 = post_id J) as Hid0.
      { rewrite <- Hid. unfold write_status.
        by destruct (String.eqb (post_id q0) (post_id q)). }
      rewrite (Huniq q0 Hq0 Hid0). apply HwJ.
  - rewrite processScheduledPost_no_user, answered_id by done. done.
Qed.

Lemma owner_missing_ticks J times s :
  owner_missing J s -> owner_missing J (ticks env times s).
Proof.
  apply ticks_preserves.
  - intros s0 H. rewrite answered_id; [done|apply H].
  - intros now s0 H. exact H.
  - intros s0 (_ & _ & _ & Huniq) q Hq s1 Hs1.
    apply owner_missing_dispatch; [done|]. by apply Huniq.
Qed.

(** *** What the ticks do to the stored jobs and to the clock *)

Lemma processScheduledPost_clock post s :
  st_clock (snd (processScheduledPost env post s)) = st_clock s.
Proof.
  assert (forall (p : Post) (s1 : @State W),
            st_clock (snd (Post_save p s1)) = st_clock s1) as Hsave.
  { intros p s1. rewrite Post_save_eq. by destruct (fault 0 s1). }
  destruct (fault 0 s) eqn:Hf0.
  - rewrite processScheduledPost_lookup_fault by done. by rewrite Hsave.
  - destruct (find_user (post_user post) s) as [user|] eqn:Hu.
    + destruct (processScheduledPost_found env post user s Hf0 Hu)
        as (results & errors & s1 & Hloop & ->).
      pose proof (framed_publish_loop env post user (answered s)) as Hfr.
      rewrite Hloop in Hfr. cbn [snd] in Hfr.
      destruct Hfr as (_ & _ & _ & _ & _ & Hclock).
      destruct (fault 1 s); [by rewrite Hsave|done].
    + by rewrite processScheduledPost_no_user.
Qed.

Lemma clock_ticks times s : (st_clock s <= st_clock (ticks env times s))%Z.
Proof.
  revert s. induction times as [|now times IH]; intros s; [done|].
  cbn [ticks]. etrans; [|apply IH]. unfold tick.
  apply (checkScheduledPosts_preserves
           (fun s' => (st_clock s <= st_clock s')%Z)).
  - done.
  - intros q _ s1 Hs1. by rewrite processScheduledPost_clock.
  - cbn. lia.
Qed.

Lemma aged_refl l : Forall2 aged l l.
Proof. induction l; constructor; [by left|done]. Qed.

Lemma aged_written id T l l' :
  T = published \/ T = failed ->
  Forall2 aged l l' -> Forall2 aged l (map (write_status id T) l').
Proof.
  intros HT. induction 1 as [|p p' l l' Hage _ IH]; cbn [map]; constructor; [|done].
  unfold write_status. destruct (String.eqb (post_id p') id); [|done].
  right. by destruct HT as [-> | ->].
Qed.

Lemma aged_ticks times s :
  Forall2 aged (st_posts s) (st_posts (ticks env times s)).
Proof.
  apply (ticks_preserves (fun s' => Forall2 aged (st_posts s) (st_posts s'))).
  - done.
  - done.
  - intros _ _ q _ s1 Hs1.
    destruct (processScheduledPost_posts env q s1) as [->|(T & HT & ->)]; [done|].
    by apply aged_written.
  - apply aged_refl.
Qed.

(** C9, as the code has it.  When the owner of a selected job is missing,
    processScheduledPost returns without touching anything, so the job
    stays ['scheduled'].  While the store answers, the selection of every
    later tick returns the job again, and it is still the stored document
    of its id, unchanged. *)
Theorem missing_owner_job_stays_scheduled J s batch s0 :
  st_dbFaults s = [] ->
  NoDup (map post_id (st_posts s)) ->
  find_user (post_user J) s = None ->
  select_due s = (Ok batch, s0) ->
  In J batch ->
  processScheduledPost env J s0 = (Ok tt, s0) /\
  forall times now,
    let s' := advance now (ticks env times s0) in
    In J (st_posts s') /\ post_status J = scheduled /\
    (forall q, In q (st_posts s') -> post_id q = post_id J -> q = J) /\
    exists batch', select_due s' = (Ok batch', s') /\ In J batch'.
Proof.
  intros Hf Hnd Hu Hsel HJ.
  destruct (select_due_In _ _ _ _ Hsel HJ) as [Hin Hst].
  apply select_due_batch in Hsel as (Hb & -> & _). rewrite answered_id by done.
  assert (owner_missing J s) as Hown.
  { repeat split; try done. intros q Hq Hid. by eapply NoDup_ids. }
  split.
  - rewrite processScheduledPost_no_user, answered_id; try done.
    by apply fault_none.
  - intros times now s'.
    destruct (owner_missing_ticks J times s Hown) as (Hf' & _ & HJ' & Huniq).
    split; [exact HJ'|]. split; [done|]. split; [exact Huniq|].
    assert (st_dbFaults s' = []) as Hfs by exact Hf'.
    rewrite select_due_eq, (fault_none 0 s' Hfs), (answered_id s' Hfs).
    eexists. split; [reflexivity|].
    apply (selected_again (st_clock s) (st_clock s') (st_posts s)).
    + pose proof (clock_ticks times s). subst s'. cbn. lia.
    + apply aged_ticks.
    + eapply NoDup_fmap_1. exact Hnd.
    + by rewrite <- Hb.
    + exact HJ'.
Qed.

End Selection.

(* ===================================================================== *)
(** ** Properties of account linking *)
(* ===================================================================== *)

Section Linking.

Context {W : Type} (env : @Env W).

(* The vocabulary at the world of this section. *)
Local Abbreviation local_frame := (local_frame (W:=W)) (only parsing).
Local Abbreviation framed := (framed (W:=W)) (only parsing).
Local Abbreviation fault := (fault (W:=W)) (only parsing).
Local Abbreviation answered := (answered (W:=W)) (only parsing).
Local Abbreviation find_user := (find_user (W:=W)) (only parsing).
Local Abbreviation left_scheduled := (left_scheduled (W:=W)) (only parsing).
Local Abbreviation owner_missing := (owner_missing (W:=W)) (only parsing).
Local Abbreviation held := (held (W:=W)) (only parsing).
Local Abbreviation guard_ok := (guard_ok (W:=W)) (only parsing).
Local Abbreviation link_frame := (link_frame (W:=W)) (only parsing).
Local Abbreviation tracked := (tracked (W:=W)) (only parsing).
Local Abbreviation holding := (holding (W:=W)) (only parsing).

Lemma User_save_eq u (s : @State W) :
  User_save u s
    = if valid_user u then
        if fault 0 s then (Throw "store unavailable", answered s)
        else (Ok tt,
              set_users (map (fun v => if String.eqb (user_id v) (user_id u)
                                       then u else v) (st_users s))
                        (answered s))
      else (Throw "User validation failed", s).
Proof.
  unfold User_save. destruct (valid_user u); [|done].
  unfold bind. rewrite db_available_eq. by destruct (fault 0 s).
Qed.

Lemma accounts_of_removed platform l :
  accounts_of platform
    (List.filter (fun acc => negb (String.eqb (acc_platform acc) platform)) l) = [].
Proof.
  unfold accounts_of. induction l as [|a l IH]; [done|]. simpl.
  destruct (String.eqb (acc_platform a) platform) eqn:E; simpl; [done|].
  by rewrite E.
Qed.

Lemma accounts_of_relinked platform accountData l :
  accounts_of platform (relinked platform accountData l)
    = accounts_of platform [new_connection accountData].
Proof.
  unfold relinked, accounts_of. rewrite List.filter_app.
  fold (accounts_of platform
          (List.filter (fun acc => negb (String.eqb (acc_platform acc) platform)) l)).
  by rewrite accounts_of_removed.
Qed.

(** saveAccountToStorage, when it returns normally. *)
Lemma saveAccountToStorage_ok userId platform accountData firebaseUid s s' :
  saveAccountToStorage env userId platform accountData firebaseUid s = (Ok tt, s') ->
  exists user,
    find_user userId s = Some user /\
    st_users s'
      = map (fun v => if String.eqb (user_id v) (user_id user)
                      then set_connectedAccounts
                             (relinked platform accountData
                                       (user_connectedAccounts user)) user
                      else v)
            (st_users s) /\
    st_posts s' = st_posts s /\
    st_globals s' = st_globals s /\ st_timers s' = st_timers s /\
    st_clock s' = st_clock s /\ st_calls s' = st_calls s.
Proof.
  unfold saveAccountToStorage, bind at 1. rewrite User_findById_eq.
  destruct (fault 0 s); [discriminate|].
  fold (find_user userId s). destruct (find_user userId s) as [user|]; [|discriminate].
  unfold bind. rewrite User_save_eq. rewrite fault_answered.
  destruct (valid_user _); [|discriminate].
  destruct (fault 1 s); [discriminate|].
  intros H. exists user. split; [done|].
  assert (forall (m : @M W unit) s0, (forall s1, exists w, snd (m s1) = set_world w s1) ->
            m s0 = (Ok tt, s') -> exists w, s' = set_world w s0) as Hw.
  { intros m s0 Hm E. destruct (Hm s0) as [w Hw]. rewrite E in Hw. eauto. }
  assert (exists w, s' = set_world w
            (set_users (map (fun v => if String.eqb (user_id v) (user_id user)
                      then set_connectedAccounts
                             (relinked platform accountData
                                       (user_connectedAccounts user)) user
                      else v) (st_users s)) (answered (answered s)))) as [w ->].
  { destruct (firestore_enabled env && Js.truthy firebaseUid);
      [destruct (parse_platform platform) as [pf|]|].
    - revert H. apply Hw. intros s1.
      unfold try_catch, firestoreService_save, ret.
      destruct (firestore_save env pf _ accountData (st_world s1)) as [[[]|e] w];
        by exists w.
    - injection H as <-. eexists (st_world _). by destruct s.
    - injection H as <-. eexists (st_world _). by destruct s. }
  done.
Qed.

(** C10.  After a successful saveAccountToStorage for [platform], the
    user's [connectedAccounts] are the former connections of the other
    platforms followed by the new one: every former connection of
    [platform] is gone, so the list holds at most one connection of
    [platform], and exactly one when the new connection is of it (as in
    every caller). *)
Theorem one_connection_per_platform userId platform accountData firebaseUid s s' :
  saveAccountToStorage env userId platform accountData firebaseUid s = (Ok tt, s') ->
  exists user,
    find_user userId s = Some user /\
    (forall u, In u (st_users s') -> user_id u = userId ->
       user_connectedAccounts u
         = relinked platform accountData (user_connectedAccounts user) /\
       length (accounts_of platform (user_connectedAccounts u)) <= 1 /\
       (ad_platform accountData = platform ->
        accounts_of platform (user_connectedAccounts u)
          = [new_connection accountData])).
Proof.
  intros (user & Hu & Husers & _)%saveAccountToStorage_ok.
  exists user. split; [done|].
  unfold find_user in Hu. apply find_some in Hu as [_ Hid%String.eqb_eq].
  intros u Hin Huid. rewrite Husers in Hin.
  apply in_map_iff in Hin as (v & Hv & _).
  destruct (String.eqb_spec (user_id v) (user_id user)) as [_|Hne];
    [|congruence].
  subst u. cbn [user_connectedAccounts set_connectedAccounts].
  rewrite accounts_of_relinked. unfold accounts_of. cbn [List.filter].
  split; [done|]. split.
  - destruct (String.eqb _ platform); simpl; lia.
  - intros <-. cbn [new_connection acc_platform]. by rewrite String.eqb_refl.
Qed.

End Linking.

(* ===================================================================== *)
(** ** Properties of the processed-code sets *)
(* ===================================================================== *)

Lemma get_codes_set_same pf v g : get_codes pf (set_codes pf v g) = v.
Proof. by destruct pf. Qed.

Lemma get_codes_set_other pf pf' v g :
  pf' <> pf -> get_codes pf (set_codes pf' v g) = get_codes pf g.
Proof. by destruct pf, pf'. Qed.

Lemma codes_has_add pf c pf' c' g :
  codes_has pf c (codes_add pf' c' g) = true <->
  codes_has pf c g = true \/ (pf', c') = (pf, c).
Proof.
  unfold codes_has, codes_add. destruct (decide (pf' = pf)) as [->|Hne].
  - rewrite get_codes_set_same.
    destruct (get_codes pf g) as [cs|]; simpl;
      rewrite ?bool_decide_eq_true, elem_of_union, elem_of_singleton.
    + split; [intros [->|?]; auto | intros [?|[= ->]]; auto].
    + split; [intros [->|?]; [auto|set_solver] | intros [?|[= ->]]; [done|auto]].
  - rewrite get_codes_set_other by done.
    split; [auto | intros [?|[= ? ?]]; done].
Qed.

Lemma codes_has_delete pf c pf' c' g :
  codes_has pf c (codes_delete pf' c' g) = true <->
  codes_has pf c g = true /\ (pf', c') <> (pf, c).
Proof.
  unfold codes_has, codes_delete. destruct (decide (pf' = pf)) as [->|Hne].
  - destruct (get_codes pf g) as [cs|] eqn:E.
    + rewrite get_codes_set_same, !bool_decide_eq_true, elem_of_difference,
        elem_of_singleton.
      split; intros [? Hn]; (split; [done|]); congruence.
    + rewrite E. split; [done | by intros [? _]].
  - assert (get_codes pf (match get_codes pf' g with
                          | Some codes => set_codes pf' (Some (codes ∖ {[c']})) g
                          | None => g
                          end) = get_codes pf g) as ->.
    { destruct (get_codes pf' g); [by apply get_codes_set_other|done]. }
    split; [|by intros [? _]]. intros ?. split; [done|]. congruence.
Qed.

Lemma codes_has_deletes pf c (l : list Timer) g :
  codes_has pf c
    (fold_left (fun g tm => codes_delete (timer_platform tm) (timer_code tm) g) l g)
    = true <->
  codes_has pf c g = true /\ ~ In (pf, c) (map timer_key l).
Proof.
  revert g. induction l as [|tm l IH]; intros g; simpl.
  - tauto.
  - rewrite IH, codes_has_delete. unfold timer_key at 2. split.
    + intros [[? ?] ?]. split; [done|]. by intros [?|?].
    + intros [? Hn]. split; [split; [done|]|]; intros ?; apply Hn; auto.
Qed.

Lemma NoDup_map_eq {A B} (f : A -> B) (l : list A) x y :
  NoDup (map f l) -> In x l -> In y l -> f x = f y -> x = y.
Proof.
  induction l as [|a l IH]; simpl; [done|].
  intros [Hna Hnd]%NoDup_cons [->|Hx] [->|Hy] E; try done.
  - exfalso. apply Hna. rewrite E. apply list_elem_of_In. by apply in_map.
  - exfalso. apply Hna. rewrite <- E. apply list_elem_of_In. by apply in_map.
  - by apply IH.
Qed.

Lemma NoDup_map_filter {A B} (f : A -> B) (g : A -> bool) (l : list A) :
  NoDup (map f l) -> NoDup (map f (List.filter g l)).
Proof.
  induction l as [|a l IH]; simpl; [done|].
  intros [Hna Hnd]%NoDup_cons. destruct (g a); simpl; [|by apply IH].
  apply NoDup_cons. split; [|by apply IH].
  intros Hin. apply Hna. apply list_elem_of_In in Hin.
  apply in_map_iff in Hin as (x & <- & [Hx _]%filter_In).
  apply list_elem_of_In. by apply in_map.
Qed.

Section Guard.

Context {W : Type} (env : @Env W).

(* The vocabulary at the world of this section. *)
Local Abbreviation local_frame := (local_frame (W:=W)) (only parsing).
Local Abbreviation framed := (framed (W:=W)) (only parsing).
Local Abbreviation fault := (fault (W:=W)) (only parsing).
Local Abbreviation answered := (answered (W:=W)) (only parsing).
Local Abbreviation find_user := (find_user (W:=W)) (only parsing).
Local Abbreviation left_scheduled := (left_scheduled (W:=W)) (only parsing).
Local Abbreviation owner_missing := (owner_missing (W:=W)) (only parsing).
Local Abbreviation held := (held (W:=W)) (only parsing).
Local Abbreviation guard_ok := (guard_ok (W:=W)) (only parsing).
Local Abbreviation link_frame := (link_frame (W:=W)) (only parsing).
Local Abbreviation tracked := (tracked (W:=W)) (only parsing).
Local Abbreviation holding := (holding (W:=W)) (only parsing).

(** The clock after time has passed until [now]. *)
Lemma st_clock_advance now (s : @State W) :
  st_clock (advance now s) = Z.max now (st_clock s).
Proof. reflexivity. Qed.

Lemma st_timers_advance now (s : @State W) tm :
  In tm (st_timers (advance now s)) <->
  In tm (st_timers s) /\ (st_clock (advance now s) < timer_due tm)%Z.
Proof.
  unfold advance, run_timers. simpl. rewrite filter_In.
  rewrite negb_true_iff, Z.leb_gt. done.
Qed.

(** A code is held after time has passed exactly when it was held and
    has no timer that came due. *)
Lemma held_advance now (s : @State W) pf c :
  held pf c (advance now s) <->
  held pf c s /\
  ~ exists tm, In tm (st_timers s) /\ timer_key tm = (pf, c) /\
               (timer_due tm <= st_clock (advance now s))%Z.
Proof.
  unfold held, advance, run_timers. simpl. rewrite codes_has_deletes.
  apply and_iff_compat_l. apply not_iff_compat. rewrite in_map_iff. split.
  - intros (tm & Hk & [Hin Hdue%Z.leb_le]%filter_In). eauto.
  - intros (tm & Hin & Hk & Hdue). exists tm. split; [done|].
    apply filter_In. split; [done|]. by apply Z.leb_le.
Qed.

Lemma guard_ok_advance now (s : @State W) : guard_ok s -> guard_ok (advance now s).
Proof.
  intros [Hheld Hnd]. split.
  - intros tm [Hin Hpend]%st_timers_advance. apply held_advance.
    split; [by apply Hheld|].
    intros (tm' & Hin' & Hk & Hdue).
    assert (tm' = tm) as -> by (by eapply (NoDup_map_eq timer_key)).
    lia.
  - unfold advance, run_timers. simpl. by apply NoDup_map_filter.
Qed.

(** *** One callback *)

#[local] Instance link_frame_preorder : PreOrder link_frame.
Proof.
  split; [by intros s|].
  intros s1 s2 s3 H1 H2. unfold link_frame in *. intuition congruence.
Qed.

Lemma keeps_db_available : keeps link_frame (@db_available W).
Proof. by intros s. Qed.

Lemma keeps_User_findById id : keeps link_frame (@User_findById W id).
Proof.
  unfold User_findById. apply keeps_bind; [apply _|apply keeps_db_available|].
  by intros [] s.
Qed.

Lemma keeps_User_save u : keeps link_frame (@User_save W u).
Proof.
  unfold User_save. destruct (valid_user u); [|by apply keeps_throw, _].
  apply keeps_bind; [apply _|apply keeps_db_available|].
  by intros [] s.
Qed.

Lemma keeps_saveAccountToStorage userId platform accountData firebaseUid :
  keeps link_frame
        (saveAccountToStorage env userId platform accountData firebaseUid).
Proof.
  unfold saveAccountToStorage.
  apply keeps_bind; [apply _|apply keeps_User_findById|].
  intros [user|]; [|by apply keeps_throw, _].
  apply keeps_bind; [apply _|apply keeps_User_save|]. intros _.
  repeat case_match; try (by apply keeps_ret, _).
  apply keeps_try_catch; [apply _| |intros; by apply keeps_ret, _].
  intros s0. unfold firestoreService_save.
  by destruct (firestore_save env _ _ accountData (st_world s0)).
Qed.

(** Linking issues the OAuth exchange and then touches only the User
    collection. *)
Lemma link_account_frame pf req code userId s :
  let s' := snd (link_account env pf req code userId s) in
  st_globals s' = st_globals s /\ st_timers s' = st_timers s /\
  st_clock s' = st_clock s /\ st_posts s' = st_posts s /\
  st_calls s' = st_calls s ++ [CompleteOAuthFlow (platform_name pf) code].
Proof.
  intros s'. subst s'.
  assert (exists s0 : @State W,
            (st_globals s0 = st_globals s /\ st_timers s0 = st_timers s /\
             st_clock s0 = st_clock s /\ st_posts s0 = st_posts s /\
             st_calls s0
               = st_calls s ++ [CompleteOAuthFlow (platform_name pf) code]) /\
            link_frame s0 (snd (link_account env pf req code userId s)))
    as (s0 & (Hg & Ht & Hc & Hp & Hl) & (-> & -> & -> & -> & ->)); [|done].
  unfold link_account, bind at 1, service_completeOAuthFlow.
  destruct (completeOAuthFlow env pf code (st_world s)) as [[accountData|e] w];
    exists (set_world w
              (set_calls (st_calls s ++ [CompleteOAuthFlow (platform_name pf) code])
                         s));
    (split; [by repeat split|cbn [snd]]); [|reflexivity].
  apply keeps_bind; [apply _|apply keeps_User_findById|]. intros user.
  apply keeps_bind; [apply _|apply keeps_saveAccountToStorage|]. intros _.
  by apply keeps_ret, _.
Qed.

Lemma oauthCallback_valid pf req code userId s :
  valid_request env req code userId ->
  oauthCallback env pf req s
    = if codes_has pf code (st_globals s)
      then (Ok (SuccessHTML (platform_name pf) "Already connected"), s)
      else match link_account env pf req code userId (tracked pf code s) with
           | (Ok r, s') => (Ok r, s')
           | (Throw e, s') => (Ok (callback_failure pf req e), s')
           end.
Proof.
  intros (He & Hc & Hne & state & Hs & Hsne & Hd).
  unfold oauthCallback, try_catch. rewrite He, Hc, Hs. simpl.
  apply String.eqb_neq in Hne, Hsne. rewrite Hne, Hsne. simpl. rewrite Hd.
  destruct (codes_has pf code (st_globals s)); [done|].
  unfold bind at 1, setTimeout_delete. cbn [st_clock set_globals st_timers].
  fold (tracked pf code s).
  by destruct (link_account env pf req code userId (tracked pf code s)) as [[r|e] s'].
Qed.

(** What any callback does to the sets and the timers: nothing, or it
    tracks one code that was not held. *)
Lemma oauthCallback_guard pf req s :
  exists r s',
    oauthCallback env pf req s = (r, s') /\
    st_clock s' = st_clock s /\
    ((st_globals s' = st_globals s /\ st_timers s' = st_timers s) \/
     exists code,
       codes_has pf code (st_globals s) = false /\
       st_globals s' = codes_add pf code (st_globals s) /\
       st_timers s'
         = st_timers s ++ [mkTimer (st_clock s + RETENTION_MS)%Z pf code]).
Proof.
  unfold oauthCallback, try_catch.
  destruct (Js.truthy (q_error req));
    [by eexists _, _; split; [done|split; [|left]]|].
  destruct (negb (Js.truthy (q_code req)));
    [by eexists _, _; split; [done|split; [|left]]|].
  destruct (negb (Js.truthy (q_state req)));
    [by eexists _, _; split; [done|split; [|left]]|].
  destruct (decodeState_userId env _) as [userId|];
    [|by eexists _, _; split; [done|split; [|left]]].
  set (code := Js.or_else (q_code req) "").
  destruct (codes_has pf code (st_globals s)) eqn:Hh;
    [by eexists _, _; split; [done|split; [|left]]|].
  unfold bind at 1, setTimeout_delete. cbn [st_clock set_globals st_timers].
  fold (tracked pf code s).
  pose proof (link_account_frame pf req code userId (tracked pf code s))
    as (Hg & Ht & Hc & _).
  destruct (link_account env pf req code userId (tracked pf code s)) as [[r|e] s'];
    unfold ret; cbn [snd] in *; eexists _, _; (split; [done|]);
    (split; [done|]); right; exists code; by rewrite Hg, Ht.
Qed.

Lemma guard_ok_callback pf req s :
  guard_ok s -> guard_ok (snd (oauthCallback env pf req s)).
Proof.
  intros [Hheld Hnd].
  destruct (oauthCallback_guard pf req s)
    as (r & s' & -> & _ & [[Hg Ht]|(code & Hn & Hg & Ht)]); cbn [snd].
  - split; unfold held; rewrite ?Hg, Ht; done.
  - split; unfold held; rewrite ?Hg, Ht.
    + intros tm [Hin|[<-|[]]]%in_app_or; apply codes_has_add; [|by right].
      left. by apply Hheld.
    + rewrite map_app. apply NoDup_app. split; [done|]. split.
      * intros k Hk Hk'. cbn [map] in Hk'.
        apply list_elem_of_singleton in Hk' as ->.
        apply list_elem_of_In, in_map_iff in Hk as (tm & Hkey & Hin).
        specialize (Hheld tm Hin). unfold held in Hheld.
        injection Hkey as E1 E2. rewrite E1, E2 in Hheld. congruence.
      * apply NoDup_singleton.
Qed.

Lemma guard_ok_arrive now pf req s :
  guard_ok s -> guard_ok (snd (arrive env now pf req s)).
Proof. intros H. by apply guard_ok_callback, guard_ok_advance. Qed.

Lemma guard_ok_arrivals evs s : guard_ok s -> guard_ok (arrivals env evs s).
Proof.
  revert s. induction evs as [|ev evs IH]; intros s H; [done|].
  by apply IH, guard_ok_arrive.
Qed.

(** *** A code from its first arrival to the end of its retention *)

Lemma holding_held pf code d s : holding pf code d s -> held pf code s.
Proof. intros ([Hheld _] & Hin & _). apply (Hheld _ Hin). Qed.

Lemma holding_advance pf code d now s :
  holding pf code d s -> (now < d)%Z -> holding pf code d (advance now s).
Proof.
  intros (Hok & Hin & Hclock) Hnow. split; [by apply guard_ok_advance|].
  rewrite st_timers_advance, st_clock_advance. cbn [timer_due].
  repeat split; [done|lia..].
Qed.

Lemma holding_arrive pf code d now pf' req s :
  holding pf code d s -> (now < d)%Z ->
  holding pf code d (snd (arrive env now pf' req s)).
Proof.
  intros H Hnow. unfold arrive.
  pose proof (holding_advance _ _ _ _ _ H Hnow) as (Hok & Hin & Hclock).
  split; [by apply guard_ok_callback|].
  destruct (oauthCallback_guard pf' req (advance now s))
    as (r & s' & -> & Hc & [[_ Ht]|(code' & _ & _ & Ht)]); cbn [snd];
    rewrite Ht, Hc; (split; [|done]); [done|].
  apply in_or_app. by left.
Qed.

Lemma holding_arrivals pf code d evs s :
  Forall (fun ev => (at_time ev < d)%Z) evs ->
  holding pf code d s -> holding pf code d (arrivals env evs s).
Proof.
  revert s. induction evs as [|ev evs IH]; intros s Hevs H; [done|].
  apply Forall_cons in Hevs as [Hev Hevs].
  cbn [arrivals]. apply IH; [done|]. by apply holding_arrive.
Qed.

(** While the timer is pending, an arrival of the code is answered
    "Already connected" and only time has passed. *)
Lemma holding_duplicate pf code d now req userId s :
  holding pf code d s -> (now < d)%Z ->
  valid_request env req code userId ->
  arrive env now pf req s
    = (Ok (SuccessHTML (platform_name pf) "Already connected"), advance now s).
Proof.
  intros H Hnow Hreq. unfold arrive.
  rewrite (oauthCallback_valid _ _ _ _ _ Hreq).
  pose proof (holding_held _ _ _ _ (holding_advance _ _ _ _ _ H Hnow)) as Hh.
  unfold held in Hh. by rewrite Hh.
Qed.

(** Once the timer is due, the code is no longer held. *)
Lemma holding_expired pf code d now s :
  holding pf code d s -> (d <= now)%Z ->
  codes_has pf code (st_globals (advance now s)) = false.
Proof.
  intros (_ & Hin & _) Hnow.
  destruct (codes_has pf code (st_globals (advance now s))) eqn:E; [|done].
  apply held_advance in E as [_ Hn]. exfalso. apply Hn.
  eexists. split; [exact Hin|]. split; [done|].
  rewrite st_clock_advance. cbn [timer_due]. lia.
Qed.

(** An arrival of a code that is not held tracks it, sets its timer and
    issues the OAuth exchange. *)
Lemma oauthCallback_new pf req code userId s :
  guard_ok s ->
  valid_request env req code userId ->
  codes_has pf code (st_globals s) = false ->
  exists r s',
    oauthCallback env pf req s = (Ok r, s') /\
    holding pf code (st_clock s + RETENTION_MS)%Z s' /\
    st_calls s' = st_calls s ++ [CompleteOAuthFlow (platform_name pf) code] /\
    st_posts s' = st_posts s /\
    exists o,
      link_account env pf req code userId (tracked pf code s) = (o, s') /\
      r = match o with Ok r => r | Throw e => callback_failure pf req e end.
Proof.
  intros Hok Hreq Hn.
  pose proof (guard_ok_callback pf req s Hok) as Hok'.
  rewrite (oauthCallback_valid _ _ _ _ _ Hreq), Hn in *.
  pose proof (link_account_frame pf req code userId (tracked pf code s))
    as (Hg & Ht & Hc & Hp & Hl).
  destruct (link_account env pf req code userId (tracked pf code s))
    as [o s'] eqn:E.
  cbn [snd] in *.
  exists (match o with Ok r => r | Throw e => callback_failure pf req e end), s'.
  assert (holding pf code (st_clock s + RETENTION_MS)%Z s') as Hh.
  { split; [by destruct o|]. rewrite Ht, Hc. split.
    - apply in_or_app. right. by left.
    - unfold tracked, RETENTION_MS. simpl. lia. }
  destruct o; (split; [done|]); (split; [done|]); (split; [done|]);
    (split; [done|]); by eexists.
Qed.

(** With the store answering, the user on record and a document that
    validates, saving to storage succeeds. *)
Lemma saveAccountToStorage_succeeds userId platform accountData firebaseUid user s :
  st_dbFaults s = [] ->
  find_user userId s = Some user ->
  valid_user (set_connectedAccounts
                (relinked platform accountData (user_connectedAccounts user)) user)
    = true ->
  exists s', saveAccountToStorage env userId platform accountData firebaseUid s
             = (Ok tt, s').
Proof.
  intros Hf Hu Hvalid. unfold saveAccountToStorage, bind at 1.
  rewrite User_findById_eq, (fault_none 0 s Hf). fold (find_user userId s).
  rewrite Hu. unfold bind. rewrite User_save_eq, fault_answered, (fault_none 1 s Hf).
  fold (relinked platform accountData (user_connectedAccounts user)).
  rewrite Hvalid.
  destruct (firestore_enabled env && Js.truthy firebaseUid); [|by eexists].
  destruct (parse_platform platform) as [pf|]; [|by eexists].
  unfold try_catch, firestoreService_save, ret.
  match goal with
  | |- context [firestore_save env pf ?u accountData ?w] =>
      destruct (firestore_save env pf u accountData w) as [[[]|e] w']
  end; by eexists.
Qed.

(** With the exchange answering, the store answering, the user on
    record and a document that validates, linking writes the new
    connection and answers success. *)
Lemma link_account_success pf req code userId accountData w user s :
  completeOAuthFlow env pf code (st_world s) = (Ok accountData, w) ->
  st_dbFaults s = [] ->
  find_user userId s = Some user ->
  valid_user (set_connectedAccounts
                (relinked (platform_name pf) accountData
                          (user_connectedAccounts user)) user) = true ->
  exists s',
    link_account env pf req code userId s
      = (Ok (callback_success pf req accountData), s') /\
    st_users s'
      = map (fun v => if String.eqb (user_id v) (user_id user)
                      then set_connectedAccounts
                             (relinked (platform_name pf) accountData
                                       (user_connectedAccounts user)) user
                      else v)
            (st_users s).
Proof.
  intros Hflow Hf Hu Hvalid.
  unfold link_account, bind at 1, service_completeOAuthFlow.
  rewrite Hflow. unfold bind at 1. rewrite User_findById_eq.
  rewrite fault_none by done. cbn [st_users set_world set_calls].
  match goal with
  | |- context [bind (saveAccountToStorage env userId ?p accountData ?u) _ ?s0] =>
      destruct (saveAccountToStorage_succeeds userId p accountData u user s0)
        as [s' Hs']; [by simpl; rewrite Hf|done|done|];
      pose proof (saveAccountToStorage_ok env _ _ _ _ _ _ Hs')
        as (user' & Hu' & Husers & _);
      rewrite (bind_ok _ _ _ _ _ Hs')
  end.
  exists s'. split; [done|].
  unfold find_user in Hu, Hu'. cbn in Hu'. rewrite Hu in Hu'.
  injection Hu' as <-. exact Husers.
Qed.

(** The scheduler leaves the invariant alone. *)
Lemma guard_ok_ticks times s : guard_ok s -> guard_ok (ticks env times s).
Proof.
  apply (ticks_preserves env guard_ok).
  - intros s0 H. exact H.
  - intros now s0. apply guard_ok_advance.
  - intros _ _ q _ s1 [Hheld Hnd].
    destruct (processScheduledPost_guard env q s1) as [Hg Ht].
    split; [|by rewrite Ht].
    intros tm Hin. rewrite Ht in Hin. specialize (Hheld tm Hin).
    unfold held in *. by rewrite Hg.
Qed.

(** No timer pending: the invariant holds, as in a fresh process. *)
Lemma guard_ok_no_timers (s : @State W) : st_timers s = [] -> guard_ok s.
Proof.
  intros E. split; rewrite E; [by intros tm []|]. simpl. apply NoDup_nil_2.
Qed.


End Guard.

(** *** The theorems at work *)

Lemma terminal_status_by_outcomes_witness :
  let s := demo_state [job1] [] 5000%Z ["instagram"] in
  fault 0 s = false /\ fault 1 s = false /\
  find_user (post_user job1) s = Some alice /\
  exists log s1 s' T,
    dispatch_outcomes demo_env job1 alice (answered s) = (Ok log, s1) /\
    map fst log = targeted job1 /\
    processScheduledPost demo_env job1 s = (Ok tt, s') /\
    st_posts s' = map (write_status (post_id job1) T) (st_posts s) /\
    (T = published <-> Exists (fun o => snd o = true) log) /\
    (T = failed <-> Forall (fun o => snd o = false) log).
Proof.
  intros s. split; [reflexivity|]. split; [reflexivity|]. split; [reflexivity|].
  apply (terminal_status_by_outcomes demo_env job1 alice s); reflexivity.
Defined.

Lemma missing_credential_recorded_witness :
  let s := demo_state [job1] [] 5000%Z [] in
  let errors' := [mkErrorEntry "pinterest" "Account not connected or inactive"] in
  String.eqb "pinterest" "all" = false /\
  publish_iteration demo_env job1 alice "pinterest" ([], []) s
    = (Ok ([], errors'), s) /\
  attempt demo_env job1 alice "pinterest" s = (Ok false, s) /\
  for_of ["pinterest"; "facebook"] (publish_iteration demo_env job1 alice) ([], []) s
    = for_of ["facebook"] (publish_iteration demo_env job1 alice) ([], errors') s.
Proof.
  intros s errors'. split; [reflexivity|].
  apply (missing_credential_recorded demo_env job1 alice "pinterest" ["facebook"]
           [] [] s); [reflexivity|].
  intros acc [<-|[<-|[]]]; discriminate.
Defined.

Lemma result_save_rejected_witness :
  let s := demo_state [job1] [false; true] 5000%Z [] in
  fault 0 s = false /\ fault 1 s = true /\
  find_user (post_user job1) s = Some alice /\
  fst (processScheduledPost demo_env job1 s) = Ok tt /\
  st_posts (snd (processScheduledPost demo_env job1 s))
    = map (write_status (post_id job1) failed) (st_posts s).
Proof.
  intros s. split; [reflexivity|]. split; [reflexivity|]. split; [reflexivity|].
  apply (result_save_rejected demo_env job1 alice s); reflexivity.
Defined.

Lemma batch_due_capped_oldest_first_witness :
  let late := demo_job "late" "alice" ["facebook"] 200%Z in
  let later := demo_job "later" "alice" ["facebook"] 900%Z in
  let early := demo_job "early" "alice" ["instagram"] 100%Z in
  let s := demo_state [late; later; early; set_status published job1] [] 300%Z [] in
  select_due s = (Ok [early; late], answered s) /\
  Forall (fun p => post_status p = scheduled /\
                   exists d, post_scheduledDate p = Some d /\ (d <= st_clock s)%Z)
         [early; late] /\
  length [early; late] <= 10 /\
  StronglySorted (fun p q => (due_of p <= due_of q)%Z) [early; late] /\
  (exists rest,
     Permutation ([early; late] ++ rest)
                 (List.filter (is_due (st_clock s)) (st_posts s))) /\
  (forall p, In p (st_posts s) -> is_due (st_clock s) p = true ->
             ~ In p [early; late] ->
             length [early; late] = 10 /\
             Forall (fun q => (due_of q <= due_of p)%Z) [early; late]).
Proof.
  intros late later early s. split; [reflexivity|].
  apply (batch_due_capped_oldest_first s [early; late] (answered s)). reflexivity.
Defined.

Lemma selection_reads_scheduled_only_witness :
  let s := demo_state [set_status published job1] [] 5000%Z [] in
  left_scheduled "job-1" s /\
  st_posts (snd (select_due s)) = st_posts s /\
  (forall batch s' p, select_due s = (Ok batch, s') -> In p batch ->
                      In p (st_posts s) /\ post_status p = scheduled) /\
  (left_scheduled "job-1" s ->
   forall times batch s',
     select_due (ticks demo_env times s) = (Ok batch, s') ->
     ~ In "job-1" (map post_id batch)).
Proof.
  intros s. split.
  - intros q [<-|[]] _. discriminate.
  - apply (selection_reads_scheduled_only demo_env "job-1" s).
Defined.

Lemma missing_owner_job_stays_scheduled_witness :
  let s := demo_state [job1; orphan] [] 100%Z [] in
  NoDup (map post_id (st_posts s)) /\
  find_user (post_user orphan) s = None /\
  select_due s = (Ok [job1; orphan], s) /\
  processScheduledPost demo_env orphan s = (Ok tt, s) /\
  forall times now,
    let s' := advance now (ticks demo_env times s) in
    In orphan (st_posts s') /\ post_status orphan = scheduled /\
    (forall q, In q (st_posts s') -> post_id q = post_id orphan -> q = orphan) /\
    exists batch', select_due s' = (Ok batch', s') /\ In orphan batch'.
Proof.
  intros s.
  assert (NoDup (map post_id (st_posts s))) as Hnd.
  { cbn. apply NoDup_cons. split; [|apply NoDup_singleton].
    intros H%list_elem_of_singleton. discriminate H. }
  split; [exact Hnd|]. split; [reflexivity|]. split; [reflexivity|].
  apply (missing_owner_job_stays_scheduled demo_env orphan s [job1; orphan] s);
    [reflexivity|exact Hnd|reflexivity|reflexivity|by right; left].
Defined.

Lemma one_connection_per_platform_witness :
  let s := demo_state [] [] 5000%Z [] in
  let s' := snd (saveAccountToStorage demo_env "alice" "facebook"
                   (demo_account Facebook) None s) in
  saveAccountToStorage demo_env "alice" "facebook" (demo_account Facebook) None s
    = (Ok tt, s') /\
  exists user,
    find_user "alice" s = Some user /\
    (forall u, In u (st_users s') -> user_id u = "alice" ->
       user_connectedAccounts u
         = relinked "facebook" (demo_account Facebook) (user_connectedAccounts user) /\
       length (accounts_of "facebook" (user_connectedAccounts u)) <= 1 /\
       (ad_platform (demo_account Facebook) = "facebook" ->
        accounts_of "facebook" (user_connectedAccounts u)
          = [new_connection (demo_account Facebook)])).
Proof.
  intros s s'. split; [reflexivity|].
  apply (one_connection_per_platform demo_env "alice" "facebook"
           (demo_account Facebook) None s s').
  reflexivity.
Defined.


(** *** Where the code and the specification part *)

(** C1 as stated fails when the store rejects the save of the result:
    Facebook took the post (Instagram was down), the save of ['published']
    rejects, the [catch] saves ['failed'], and the job is stored as
    [failed] although one attempt succeeded. *)
Lemma rejected_save_overrides_outcomes :
  let s := demo_state [job1] [false; true] 5000%Z ["instagram"] in
  let out := processScheduledPost demo_env job1 s in
  find_user (post_user job1) s = Some alice /\
  fst (dispatch_outcomes demo_env job1 alice (answered s))
    = Ok [("facebook", true); ("instagram", false)] /\
  fst out = Ok tt /\
  st_posts (snd out) = [set_status failed job1].
Proof. repeat split. Qed.

(** C2 as stated fails: selection claims nothing.  Two selection passes
    made before the dispatch writes the status (a tick that fires while
    the previous pass is still waiting for a platform) both return the
    job, and the two dispatches publish it twice. *)
Lemma overlapping_selections_return_same_job :
  let s := demo_state [job1] [] 5000%Z [] in
  let s1 := snd (select_due s) in
  let s2 := snd (select_due s1) in
  fst (select_due s) = Ok [job1] /\
  fst (select_due s1) = Ok [job1] /\
  st_posts s2 = [job1] /\
  let s3 := snd (processScheduledPost demo_env job1 s2) in
  let s4 := snd (processScheduledPost demo_env job1 s3) in
  st_calls s4
    = [GetUserPages "fb-token";
       PostToPage "page-token" "page-1" "hello" None;
       PublishPhoto "ig-1" "ig-token" None "hello";
       GetUserPages "fb-token";
       PostToPage "page-token" "page-1" "hello" None;
       PublishPhoto "ig-1" "ig-token" None "hello"].
Proof. repeat split. Qed.

(** C4 as stated fails for a credential past its [expiresAt]: the
    dispatcher never reads [expiresAt].  Alice's Facebook token expired at
    1000, it is 5000, and the iteration calls the Graph API and records a
    success. *)
Lemma expired_credential_still_used :
  let s := demo_state [job1] [] 5000%Z [] in
  let out := publish_iteration demo_env job1 alice "facebook" ([], []) s in
  find_connectedAccount alice "facebook" = Some alice_facebook /\
  acc_expiresAt alice_facebook = Some 1000%Z /\
  (1000 < st_clock s)%Z /\
  fst out = Ok ([mkResultEntry "facebook" true (Some "ext-1")], []) /\
  st_calls (snd out)
    = [GetUserPages "fb-token"; PostToPage "page-token" "page-1" "hello" None].
Proof. repeat split. Qed.


(** C6 as stated fails: when the save of the result rejects and the
    store answers again, the job that was published on both platforms is
    stored as [failed], not left as it was. *)
Lemma rejected_save_marks_failed :
  let s := demo_state [job1] [false; true; false] 5000%Z [] in
  let out := processScheduledPost demo_env job1 s in
  fst (dispatch_outcomes demo_env job1 alice (answered s))
    = Ok [("facebook", true); ("instagram", true)] /\
  fault 1 s = true /\
  st_posts s = [job1] /\ post_status job1 = scheduled /\
  fst out = Ok tt /\
  st_posts (snd out) = [set_status failed job1].
Proof. repeat split. Qed.

(** C8 as stated fails: the persisted job holds no per-platform entry.
    With Instagram down, resp. Facebook down, the outcomes of the same job
    differ, and the stored jobs afterwards are equal; so nothing read from
    the Post collection gives the outcomes. *)
Lemma outcomes_not_in_job_store :
  let sA := demo_state [job1] [] 5000%Z ["instagram"] in
  let sB := demo_state [job1] [] 5000%Z ["facebook"] in
  let sA' := snd (processScheduledPost demo_env job1 sA) in
  let sB' := snd (processScheduledPost demo_env job1 sB) in
  fst (dispatch_outcomes demo_env job1 alice (answered sA))
    = Ok [("facebook", true); ("instagram", false)] /\
  fst (dispatch_outcomes demo_env job1 alice (answered sB))
    = Ok [("facebook", false); ("instagram", true)] /\
  st_posts sA' = [set_status published job1] /\
  st_posts sB' = [set_status published job1] /\
  forall entries : list Post -> list (string * bool),
    ~ (Ok (entries (st_posts sA'))
         = fst (dispatch_outcomes demo_env job1 alice (answered sA)) /\
       Ok (entries (st_posts sB'))
         = fst (dispatch_outcomes demo_env job1 alice (answered sB))).
Proof.
  repeat split. intros entries [HA HB].
  vm_compute in HA, HB. congruence.
Qed.

(** C9 as stated fails on "never reaches a terminal status": the orphan
    job is selected at 100, its owner is not found and it is left as it
    is; at 200 it is selected again, the store rejects the owner lookup,
    and the [catch] stores the job as [failed] although its owner is as
    missing as before. *)
Lemma missing_owner_job_marked_failed :
  let s := demo_state [orphan] [false; false; false; true; false] 0%Z [] in
  find_user (post_user orphan) s = None /\
  fst (select_due (advance 100%Z s)) = Ok [orphan] /\
  let s1 := ticks demo_env [100%Z] s in
  st_posts s1 = [orphan] /\
  find_user (post_user orphan) s1 = None /\
  fst (select_due (advance 200%Z s1)) = Ok [orphan] /\
  let s2 := ticks demo_env [200%Z] s1 in
  find_user (post_user orphan) s2 = None /\
  st_posts s2 = [set_status failed orphan].
Proof. repeat split. Qed.

(* ===================================================================== *)
(** ** Further properties of the dispatch *)
(* ===================================================================== *)

Lemma truthy_or_else o d : Js.truthy o = true -> o = Some (Js.or_else o d).
Proof.
  destruct o as [u|]; simpl; [|discriminate].
  by destruct (String.eqb u "").
Qed.

Lemma isVideo_Some m : isVideo m = true -> m = Some (Js.or_else m "").
Proof.
  destruct m as [u|]; simpl; [|discriminate].
  intros _. by destruct (String.eqb_spec u "") as [->|].
Qed.

Lemma high_surrogate_length b rest : Js.length (Js.high_surrogate b rest) <= 1.
Proof.
  unfold Js.high_surrogate. destruct rest as [|b1 [|b2 rest]]; cbn [Js.length]; try lia.
  set (v := (_ mod 1024)).
  assert (v / 64 < 16) by (apply Nat.Div0.div_lt_upper_bound; subst v;
                           pose proof (Nat.mod_upper_bound
                             (nat_of_ascii b mod 8 * 256 + nat_of_ascii b1 mod 64 * 4
                              + nat_of_ascii b2 mod 64 / 16 - 64) 1024); lia).
  assert (v mod 64 < 64) by (apply Nat.mod_upper_bound; lia).
  unfold Js.units. rewrite !nat_ascii_embedding by lia.
  assert ((160 + v / 64 <? 128)%nat = false) as -> by (apply Nat.ltb_ge; lia).
  assert ((160 + v / 64 <? 192)%nat = true) as -> by (apply Nat.ltb_lt; lia).
  assert ((128 + v mod 64 <? 128)%nat = false) as -> by (apply Nat.ltb_ge; lia).
  assert ((128 + v mod 64 <? 192)%nat = true) as -> by (apply Nat.ltb_lt; lia).
  cbn. lia.
Qed.

(** [substring(0, n)] has at most [n] code units. *)
Lemma substring0_length n s : Js.length (Js.substring0 n s) <= n.
Proof.
  revert n. induction s as [|b s IH]; intros n; cbn [Js.substring0 Js.length];
    [lia|].
  destruct (Js.units b) as [|u] eqn:Hu.
  - cbn [Js.length]. rewrite Hu. specialize (IH n). lia.
  - destruct (Nat.leb_spec (S u) n) as [Hle|Hgt].
    + cbn [Js.length]. rewrite Hu. specialize (IH (n - S u)). lia.
    + destruct (Nat.eqb_spec n 0) as [->|Hn]; [cbn; lia|].
      pose proof (high_surrogate_length b s). lia.
Qed.

Section Requests.

Context {W : Type} (env : @Env W).

Local Abbreviation fault := (fault (W:=W)) (only parsing).
Local Abbreviation answered := (answered (W:=W)) (only parsing).
Local Abbreviation find_user := (find_user (W:=W)) (only parsing).
Local Abbreviation issues := (issues (W:=W)) (only parsing).
Local Abbreviation terminal_stored := (terminal_stored (W:=W)) (only parsing).

#[local] Instance issues_preorder P : PreOrder (issues P).
Proof.
  split.
  - intros s. exists []. by rewrite app_nil_r.
  - intros s1 s2 s3 (n1 & E1 & F1) (n2 & E2 & F2). exists (n1 ++ n2).
    rewrite E2, E1, app_assoc. split; [done|]. by apply Forall_app.
Qed.

Lemma issues_same_calls P (s s' : @State W) :
  st_calls s' = st_calls s -> issues P s s'.
Proof. intros E. exists []. by rewrite app_nil_r. Qed.

Lemma keeps_issues_remote P c : P c -> keeps (issues P) (remote env c).
Proof.
  intros Hc s. unfold remote.
  destruct (remote_publish env c (st_world s)) as [r w]. simpl.
  exists [c]. split; [done|]. by constructor.
Qed.

Lemma keeps_issues_getUserPages P tok :
  P (GetUserPages tok) -> keeps (issues P) (facebookService_getUserPages env tok).
Proof.
  intros Hc s. unfold facebookService_getUserPages.
  destruct (remote_pages env tok (st_world s)) as [[pages|e] w]; simpl;
    (exists [GetUserPages tok]; split; [done|]; by constructor).
Qed.

Lemma keeps_issues_method P fallback c name :
  P c ->
  keeps (issues P)
        (rethrow fallback (x <~ remote env c ;; ret (mkPostResult true x name))).
Proof.
  intros Hc. unfold rethrow.
  apply keeps_try_catch; [apply _| |intros; by apply keeps_throw, _].
  apply keeps_bind; [apply _|by apply keeps_issues_remote|].
  intros; by apply keeps_ret, _.
Qed.

(** What the [switch] sends for a found connection. *)
Lemma publish_switch_requests post user acc p :
  find_connectedAccount user p = Some acc ->
  keeps (issues (fun c => request_of env post c /\ credential_of user c))
        (publish_switch env post acc p).
Proof.
  intros Hfind. unfold find_connectedAccount in Hfind.
  apply find_some in Hfind as [Hin [Hname%String.eqb_eq Hactive]%andb_true_iff].
  unfold publish_switch,
    facebookService_postToPage, instagramService_publishPhoto,
    instagramService_publishVideo, pinterestService_createPin.
  cbv zeta.
  destruct (String.eqb_spec (Js.toLowerCase p) "facebook") as [Hfb|_].
  { apply keeps_bind; [apply _| |intros pages].
    - apply keeps_issues_getUserPages. split; [done|].
      exists acc. repeat split; try done. congruence.
    - destruct pages as [|first pages]; [by apply keeps_throw, _|].
      apply keeps_bind; [apply _| |intros; by apply keeps_ret, _].
      apply keeps_issues_method. by repeat split. }
  destruct (String.eqb_spec (Js.toLowerCase p) "instagram") as [Hig|_].
  { destruct (Js.truthy (acc_businessAccountId acc)) eqn:Hb;
      [|by apply keeps_throw, _].
    assert (exists a, active_account_for user "instagram" a /\
              acc_businessAccountId a
                = Some (Js.or_else (acc_businessAccountId acc) "") /\
              Js.or_else (acc_pageAccessToken acc) (acc_accessToken acc)
                = Js.or_else (acc_pageAccessToken a) (acc_accessToken a)) as Hcred.
    { exists acc. split; [repeat split; try done; congruence|].
      split; [by apply truthy_or_else|done]. }
    destruct (isVideo (head (post_mediaUrls post))) eqn:Hv.
    - apply keeps_bind; [apply _| |intros; by apply keeps_ret, _].
      apply keeps_issues_method. split; [|exact Hcred].
      split; [done|]. split; [by apply isVideo_Some|done].
    - apply keeps_bind; [apply _| |intros; by apply keeps_ret, _].
      apply keeps_issues_method. split; [|exact Hcred]. by repeat split. }
  destruct (String.eqb_spec (Js.toLowerCase p) "pinterest") as [Hpin|_];
    [|by apply keeps_ret, _].
  destruct (isVideoForPinterest (head (post_mediaUrls post))) eqn:Hv;
    [by apply keeps_throw, _|].
  destruct (PINTEREST_BOARD_ID env) as [boardId|] eqn:Hboard;
    [|by apply keeps_throw, _].
  destruct (String.eqb_spec boardId "") as [|Hne]; [by apply keeps_throw, _|].
  apply keeps_bind; [apply _| |intros; by apply keeps_ret, _].
  apply keeps_issues_method. split.
  - repeat split; try done. apply substring0_length.
  - exists acc. repeat split; try done. congruence.
Qed.

Lemma publish_loop_requests post user :
  keeps (issues (fun c => request_of env post c /\ credential_of user c))
        (publish_loop env post user).
Proof.
  apply keeps_for_of; [apply _|]. intros p [results errors].
  unfold publish_iteration.
  destruct (String.eqb p "all"); [by apply keeps_ret, _|].
  destruct (find_connectedAccount user p) as [acc|] eqn:Hfind;
    [|by apply keeps_ret, _].
  apply keeps_try_catch; [apply _| |intros; by apply keeps_ret, _].
  apply keeps_bind; [apply _|by apply publish_switch_requests|].
  intros; by apply keeps_ret, _.
Qed.

Lemma Post_save_calls p (s : @State W) :
  st_calls (snd (Post_save p s)) = st_calls s /\
  st_world (snd (Post_save p s)) = st_world s.
Proof. rewrite Post_save_eq. by destruct (fault 0 s). Qed.

(** The remote operations of a whole dispatch. *)
Lemma processScheduledPost_requests post s :
  issues (fun c => request_of env post c /\
                   exists user, find_user (post_user post) s = Some user /\
                                credential_of user c)
         s (snd (processScheduledPost env post s)).
Proof.
  destruct (fault 0 s) eqn:Hf0.
  - rewrite processScheduledPost_lookup_fault by done.
    apply issues_same_calls. by rewrite (proj1 (Post_save_calls _ _)).
  - destruct (find_user (post_user post) s) as [user|] eqn:Hu.
    + destruct (processScheduledPost_found env post user s Hf0 Hu)
        as (results & errors & s1 & Hloop & ->).
      pose proof (publish_loop_requests post user (answered s)) as (new & E & F).
      rewrite Hloop in E. cbn [snd] in E.
      exists new. split.
      * destruct (fault 1 s); [by rewrite (proj1 (Post_save_calls _ _))|done].
      * eapply List.Forall_impl; [|exact F]. intros c [? ?]. eauto.
    + rewrite processScheduledPost_no_user by done. by apply issues_same_calls.
Qed.

(** X1.  Every remote operation a dispatch issues carries the job's own
    content and first media URL, on the endpoint that fits the media: a
    video only for a URL with [.mp4], [.mov] or [.avi], a photo otherwise,
    a pin only for media that is not video-like, on the configured board,
    with the first 100 UTF-16 code units of the content as title.  A dispatch
    never runs an OAuth exchange. *)
Theorem dispatch_sends_the_job post s :
  exists new,
    st_calls (snd (processScheduledPost env post s)) = st_calls s ++ new /\
    Forall (request_of env post) new.
Proof.
  destruct (processScheduledPost_requests post s) as (new & E & F).
  exists new. split; [done|].
  eapply List.Forall_impl; [|exact F]. by intros c [? _].
Qed.

(** X2.  Every credential a dispatch sends belongs to an active connection
    of the job's owner for the platform of the operation; the token of an
    inactive connection is never used. *)
Theorem dispatch_uses_active_credentials post s :
  exists new,
    st_calls (snd (processScheduledPost env post s)) = st_calls s ++ new /\
    Forall (fun c => exists user, find_user (post_user post) s = Some user /\
                                  credential_of user c) new.
Proof.
  destruct (processScheduledPost_requests post s) as (new & E & F).
  exists new. split; [done|].
  eapply List.Forall_impl; [|exact F]. by intros c [_ ?].
Qed.

(** The loop when no targeted platform has an active connection. *)
Lemma publish_loop_no_account post user l :
  (forall p, In p (List.filter not_all l) ->
             find_connectedAccount user p = None) ->
  forall results errors s,
    exists errors',
      for_of l (publish_iteration env post user) (results, errors) s
        = (Ok (results, errors ++ errors'), s) /\
      map ee_platform errors' = List.filter not_all l.
Proof.
  induction l as [|p l IH]; intros Hnone results errors s.
  - exists []. by rewrite app_nil_r.
  - cbn [List.filter] in Hnone |- *. unfold not_all at 1 in Hnone.
    unfold not_all at 1.
    destruct (String.eqb p "all") eqn:Hp; cbn [negb] in *.
    + rewrite (for_of_cons_ok p l _ (results, errors) s (results, errors) s).
      * by apply IH.
      * unfold publish_iteration. by rewrite Hp.
    + rewrite (for_of_cons_ok p l _ (results, errors) s
                 (results, errors ++ [mkErrorEntry p "Account not connected or inactive"]) s).
      * destruct (IH (fun q Hq => Hnone q (or_intror Hq)) results
                     (errors ++ [mkErrorEntry p "Account not connected or inactive"])
                     s) as (errors' & Hrun & Hnames).
        exists (mkErrorEntry p "Account not connected or inactive" :: errors').
        split; [rewrite <- app_assoc in Hrun; exact Hrun|].
        cbn [map ee_platform]. by rewrite Hnames.
      * unfold publish_iteration.
        by rewrite Hp, (Hnone p (or_introl eq_refl)).
Qed.

(** X3.  When the owner has no active connection for any targeted
    platform, the dispatch issues no remote operation, leaves the remote
    world as it is and (the store answering) stores the job as [failed]. *)
Theorem dispatch_without_connection post user s :
  fault 0 s = false ->
  fault 1 s = false ->
  find_user (post_user post) s = Some user ->
  (forall p acc, In p (targeted post) -> In acc (user_connectedAccounts user) ->
                 Js.toLowerCase (acc_platform acc) = Js.toLowerCase p ->
                 acc_isActive acc = false) ->
  let s' := snd (processScheduledPost env post s) in
  st_calls s' = st_calls s /\ st_world s' = st_world s /\
  st_posts s' = map (write_status (post_id post) failed) (st_posts s).
Proof.
  intros Hf0 Hf1 Hu Hnone s'. subst s'.
  destruct (processScheduledPost_found env post user s Hf0 Hu)
    as (results & errors & s1 & Hloop & ->).
  rewrite Hf1. unfold publish_loop in Hloop.
  destruct (publish_loop_no_account post user (post_targets post)) with
    (results := @nil ResultEntry) (errors := @nil ErrorEntry) (s := answered s)
    as (errors' & Hrun & _).
  { intros p Hp. apply find_connectedAccount_None. intros acc. by apply Hnone. }
  rewrite Hrun in Hloop. injection Hloop as <- _ <-. done.
Qed.

(** A schema-valid user has no connection for a name without a [case]. *)
Lemma unsupported_not_connected user p :
  Forall schema_account (user_connectedAccounts user) ->
  supported p = false ->
  find_connectedAccount user p = None.
Proof.
  intros Hschema Hsup. apply find_connectedAccount_None.
  intros acc Hin Hname. exfalso.
  rewrite List.Forall_forall in Hschema. specialize (Hschema acc Hin).
  unfold supported in Hsup. rewrite <- Hname in Hsup.
  unfold schema_account in Hschema. simpl in Hschema.
  destruct Hschema as [E|[E|[E|[]]]]; rewrite <- E in Hsup; discriminate.
Qed.

(** X4.  The Post schema admits the targets ['twitter'] and ['linkedin'],
    but the connected-account schema does not: for a user whose
    connections obey the schema, the iteration for any name other than
    facebook, instagram or pinterest records ['Account not connected or
    inactive'] and touches nothing. *)
Theorem unsupported_target_never_published post user p results errors s :
  Forall schema_account (user_connectedAccounts user) ->
  supported p = false ->
  String.eqb p "all" = false ->
  publish_iteration env post user p (results, errors) s
    = (Ok (results,
           errors ++ [mkErrorEntry p "Account not connected or inactive"]), s) /\
  attempt env post user p s = (Ok false, s).
Proof.
  intros Hschema Hsup Hp.
  pose proof (unsupported_not_connected user p Hschema Hsup) as Hnone.
  unfold publish_iteration, attempt. by rewrite Hp, Hnone.
Qed.

(** X5.  The [switch] of the scheduler has no [default]: when a
    connection is found for a name that has no [case], the iteration
    records a success for it without any remote operation. *)
Theorem switch_without_default_records_success post user acc p results errors s :
  find_connectedAccount user p = Some acc ->
  supported p = false ->
  String.eqb p "all" = false ->
  publish_iteration env post user p (results, errors) s
    = (Ok (results ++ [mkResultEntry p true None], errors), s) /\
  attempt env post user p s = (Ok true, s).
Proof.
  intros Hfind Hsup Hp. unfold supported in Hsup.
  apply orb_false_elim in Hsup as [[Hfb Hig]%orb_false_elim Hpin].
  assert (publish_switch env post acc p s = (Ok None, s)) as Hsw.
  { unfold publish_switch. cbv zeta. by rewrite Hfb, Hig, Hpin. }
  unfold publish_iteration, attempt, try_catch, bind.
  by rewrite Hp, Hfind, Hsw.
Qed.

End Requests.

(* ===================================================================== *)
(** ** Further properties of a scheduler pass *)
(* ===================================================================== *)

Section Passes.

Context {W : Type} (env : @Env W).

Local Abbreviation local_frame := (local_frame (W:=W)) (only parsing).
Local Abbreviation fault := (fault (W:=W)) (only parsing).
Local Abbreviation answered := (answered (W:=W)) (only parsing).
Local Abbreviation find_user := (find_user (W:=W)) (only parsing).
Local Abbreviation left_scheduled := (left_scheduled (W:=W)) (only parsing).
Local Abbreviation terminal_stored := (terminal_stored (W:=W)) (only parsing).

Lemma for_of_app {A S} (l1 l2 : list A) (body : A -> S -> @M W S) acc s acc1 s1 :
  for_of l1 body acc s = (Ok acc1, s1) ->
  for_of (l1 ++ l2) body acc s = for_of l2 body acc1 s1.
Proof.
  revert acc s. induction l1 as [|x l1 IH]; intros acc s H.
  - by injection H as -> ->.
  - cbn [app for_of] in *. unfold bind in *.
    destruct (body x acc s) as [[acc'|e] s']; [by apply IH|done].
Qed.

Lemma terminal_left_scheduled id (s : @State W) :
  terminal_stored id s -> left_scheduled id s.
Proof. intros H q Hq Hid. by destruct (H q Hq Hid) as [-> | ->]. Qed.

Lemma terminal_stored_written id T (s : @State W) l :
  T = published \/ T = failed ->
  st_posts s = map (write_status id T) l ->
  terminal_stored id s.
Proof.
  intros HT Hs q Hq Hid. rewrite Hs in Hq.
  apply in_map_iff in Hq as (q0 & <- & _). unfold write_status in *.
  destruct (String.eqb_spec (post_id q0) id) as [_|Hne]; [done|].
  by destruct Hne.
Qed.

Lemma terminal_stored_dispatch id q s :
  terminal_stored id s -> terminal_stored id (snd (processScheduledPost env q s)).
Proof.
  intros Hs. unfold terminal_stored.
  destruct (processScheduledPost_posts env q s) as [->|(T & HT & ->)]; [done|].
  intros q' (q0 & <- & Hq0)%in_map_iff. unfold write_status.
  destruct (String.eqb (post_id q0) (post_id q)); [|by apply Hs].
  intros _. done.
Qed.

(** The faults left after a dispatch are a suffix of those before. *)
Lemma processScheduledPost_quiet q s :
  st_dbFaults s = [] ->
  fst (processScheduledPost env q s) = Ok tt /\
  st_dbFaults (snd (processScheduledPost env q s)) = [].
Proof.
  intros Hf.
  pose proof (fault_none 0 s Hf) as Hf0. pose proof (fault_none 1 s Hf) as Hf1.
  destruct (find_user (post_user q) s) as [user|] eqn:Hu.
  - destruct (processScheduledPost_found env q user s Hf0 Hu)
      as (results & errors & s1 & Hloop & ->).
    rewrite Hf1. cbn [fst snd]. split; [done|].
    pose proof (framed_publish_loop env q user (answered s)) as Hfr.
    rewrite Hloop in Hfr. cbn [snd] in Hfr. destruct Hfr as (_ & _ & Hf' & _).
    rewrite answered_id in Hf' by done. simpl. by rewrite Hf', Hf.
  - rewrite processScheduledPost_no_user, answered_id by done. done.
Qed.

Lemma processScheduledPost_settles q s :
  st_dbFaults s = [] ->
  find_user (post_user q) s <> None ->
  terminal_stored (post_id q) (snd (processScheduledPost env q s)).
Proof.
  intros Hf Hu.
  pose proof (fault_none 0 s Hf) as Hf0. pose proof (fault_none 1 s Hf) as Hf1.
  destruct (find_user (post_user q) s) as [user|] eqn:Huq; [|done].
  destruct (processScheduledPost_found env q user s Hf0 Huq)
    as (results & errors & s1 & Hloop & ->).
  rewrite Hf1. cbn [snd].
  eapply (terminal_stored_written _ (terminal_status results)); [|reflexivity].
  unfold terminal_status. destruct (0 <? length results)%nat; auto.
Qed.

Lemma for_of_dispatch_settles batch :
  forall s, st_dbFaults s = [] ->
  exists s',
    for_of batch (fun post _ => processScheduledPost env post) tt s = (Ok tt, s') /\
    st_dbFaults s' = [] /\ st_users s' = st_users s /\
    (forall q, In q batch -> find_user (post_user q) s <> None ->
               terminal_stored (post_id q) s') /\
    (forall id, terminal_stored id s -> terminal_stored id s').
Proof.
  induction batch as [|p batch IH]; intros s Hf.
  - exists s. repeat split; try done.
  - destruct (processScheduledPost_quiet p s Hf) as [Hok Hf1].
    pose proof (processScheduledPost_users env p s) as Hus.
    destruct (processScheduledPost env p s) as [r s1] eqn:Hrun.
    cbn [fst snd] in *. subst r.
    destruct (IH s1 Hf1) as (s' & Hloop & Hf' & Husers & Hset & Hkeep).
    exists s'. rewrite (for_of_cons_ok _ _ _ _ _ _ _ Hrun).
    split; [done|]. split; [done|]. split; [congruence|]. split.
    + intros q [<-|Hq] Hu.
      * apply Hkeep.
        pose proof (processScheduledPost_settles p s Hf Hu) as H.
        by rewrite Hrun in H.
      * apply Hset; [done|]. unfold find_user in *. by rewrite Hus.
    + intros id Hid. apply Hkeep.
      pose proof (terminal_stored_dispatch id p s Hid) as H.
      by rewrite Hrun in H.
Qed.

(** X6.  While the store answers, one pass of checkScheduledPosts settles
    every selected job whose owner is on record: all its documents are
    stored as ['published'] or ['failed'] when the pass ends, and no
    later selection, after any number of further ticks, returns it. *)
Theorem pass_settles_owned_jobs s batch s0 q :
  st_dbFaults s = [] ->
  select_due s = (Ok batch, s0) ->
  In q batch ->
  find_user (post_user q) s <> None ->
  terminal_stored (post_id q) (snd (checkScheduledPosts env s)) /\
  forall times batch' s',
    select_due (ticks env times (snd (checkScheduledPosts env s))) = (Ok batch', s') ->
    ~ In (post_id q) (map post_id batch').
Proof.
  intros Hf Hsel Hq Hu.
  assert (terminal_stored (post_id q) (snd (checkScheduledPosts env s))) as Hterm.
  { unfold checkScheduledPosts, try_catch, bind. rewrite Hsel.
    apply select_due_batch in Hsel as (_ & -> & _).
    rewrite answered_id by done.
    destruct (for_of_dispatch_settles batch s Hf) as (s' & -> & _ & _ & Hset & _).
    cbn [snd]. by apply Hset. }
  split; [done|].
  intros times batch' s' Hsel' (p & Hid & Hp)%in_map_iff.
  assert (left_scheduled (post_id q)
            (ticks env times (snd (checkScheduledPosts env s)))) as Hl.
  { apply ticks_preserves; try done.
    - intros s2 _ q2 _ s3. apply left_scheduled_dispatch.
    - by apply terminal_left_scheduled. }
  destruct (select_due_In _ _ _ _ Hsel' Hp) as [Hin Hst].
  by apply (Hl p Hin Hid).
Qed.

(** X7.  The promise of processScheduledPost rejects exactly when the
    store rejects the save of the [catch] block: the owner lookup and that
    save are both rejected, or the lookup answers with the owner and both
    saves are rejected.  In every other case it resolves. *)
Theorem dispatch_rejects_iff post s :
  (exists e, fst (processScheduledPost env post s) = Throw e) <->
  (fault 0 s = true /\ fault 1 s = true) \/
  (fault 0 s = false /\ find_user (post_user post) s <> None /\
   fault 1 s = true /\ fault 2 s = true).
Proof.
  destruct (fault 0 s) eqn:Hf0.
  - rewrite processScheduledPost_lookup_fault, Post_save_eq, fault_answered by done.
    destruct (fault 1 s); cbn [fst]; split.
    + intros _. by left.
    + intros _. by eexists.
    + by intros [e ?].
    + intros [[_ ?]|[? _]]; done.
  - destruct (find_user (post_user post) s) as [user|] eqn:Hu.
    + destruct (processScheduledPost_found env post user s Hf0 Hu)
        as (results & errors & s1 & Hloop & ->).
      pose proof (framed_publish_loop env post user (answered s)) as Hfr.
      rewrite Hloop in Hfr. cbn [snd] in Hfr.
      destruct (fault 1 s) eqn:Hf1.
      * rewrite Post_save_eq, fault_answered, (fault_frame 1 _ _ Hfr),
          fault_answered.
        destruct (fault 2 s); cbn [fst]; split.
        -- intros _. right. by repeat split.
        -- intros _. by eexists.
        -- by intros [e ?].
        -- intros [[? _]|(_ & _ & _ & ?)]; done.
      * cbn [fst]. split; [by intros [e ?]|].
        intros [[? _]|(_ & _ & ? & _)]; done.
    + rewrite processScheduledPost_no_user by done. cbn [fst].
      split; [by intros [e ?]|]. intros [[? _]|(_ & ? & _)]; done.
Qed.

(** X8.  checkScheduledPosts awaits the dispatches inside one [try]: when
    a dispatch rejects, the pass ends there.  The jobs after it in the
    batch are not dispatched in this pass, and the pass itself resolves. *)
Theorem rejected_dispatch_ends_the_pass s before q rest s0 s1 e s2 :
  select_due s = (Ok (before ++ q :: rest), s0) ->
  for_of before (fun post _ => processScheduledPost env post) tt s0 = (Ok tt, s1) ->
  processScheduledPost env q s1 = (Throw e, s2) ->
  checkScheduledPosts env s = (Ok tt, s2).
Proof.
  intros Hsel Hbefore Hq. unfold checkScheduledPosts, try_catch, bind.
  rewrite Hsel, (for_of_app _ _ _ _ _ _ _ Hbefore).
  by rewrite (for_of_cons_throw _ _ _ _ _ _ _ Hq).
Qed.

(** X9.  checkScheduledPosts never rejects, whatever the store and the
    platforms do, and it leaves the User collection, the processed-code
    sets and the timers as they are. *)
Theorem pass_never_rejects s :
  fst (checkScheduledPosts env s) = Ok tt /\
  st_users (snd (checkScheduledPosts env s)) = st_users s /\
  st_globals (snd (checkScheduledPosts env s)) = st_globals s /\
  st_timers (snd (checkScheduledPosts env s)) = st_timers s.
Proof.
  split.
  - unfold checkScheduledPosts, try_catch, bind.
    destruct (select_due s) as [[batch|e] s1]; [|done].
    by destruct (for_of batch _ tt s1) as [[[]|e] s2].
  - apply (checkScheduledPosts_preserves env
             (fun s' => st_users s' = st_users s /\
                        st_globals s' = st_globals s /\
                        st_timers s' = st_timers s)); [done| |done].
    intros q _ s1 (Hu & Hg & Ht).
    rewrite processScheduledPost_users.
    by destruct (processScheduledPost_guard env q s1) as [-> ->].
Qed.

End Passes.

(* ===================================================================== *)
(** ** Properties of publishToSocialMedia *)
(* ===================================================================== *)

Lemma validate_postData_of req caption platforms T d :
  validate (postData_of req caption platforms T d) = schema_accepts caption platforms.
Proof. reflexivity. Qed.

Lemma in_enum_In enum x : in_enum enum x = true <-> In x enum.
Proof.
  unfold in_enum. rewrite existsb_exists. split.
  - by intros (y & Hy & ->%String.eqb_eq).
  - intros H. exists x. by rewrite String.eqb_refl.
Qed.

Section Publishing.

Context {W : Type} (env : @Env W) (oracles : @Oracles W).

Local Abbreviation local_frame := (local_frame (W:=W)) (only parsing).
Local Abbreviation framed := (framed (W:=W)) (only parsing).
Local Abbreviation fault := (fault (W:=W)) (only parsing).
Local Abbreviation answered := (answered (W:=W)) (only parsing).
Local Abbreviation find_user := (find_user (W:=W)) (only parsing).

#[local] Instance local_frame_order : PreOrder local_frame.
Proof.
  split; [intros s; apply local_frame_refl|].
  intros s1 s2 s3. apply local_frame_trans.
Qed.

Ltac framed_step :=
  first [ apply framed_ret | apply framed_throw | apply framed_remote
        | apply framed_getUserPages
        | apply framed_bind; [|intros ?] | apply framed_try_catch; [|intros ?]
        | case_match ].

Lemma framed_publish_now_switch caption mediaUrl acc p :
  framed (publish_now_switch env caption mediaUrl acc p).
Proof.
  unfold publish_now_switch, facebookService_postToPage,
    instagramService_publishPhoto, instagramService_publishVideo,
    pinterestService_createPin, rethrow.
  repeat framed_step.
Qed.

Lemma framed_publish_now_loop caption mediaUrl platforms user :
  framed (publish_now_loop env caption mediaUrl platforms user).
Proof.
  apply framed_for_of. intros p [results errors]. unfold publish_now_iteration.
  pose proof framed_publish_now_switch. repeat framed_step; auto.
Qed.

(** The loop of the handler never throws. *)
Lemma publish_now_loop_returns caption mediaUrl platforms user s :
  exists results errors s',
    publish_now_loop env caption mediaUrl platforms user s
      = (Ok (results, errors), s').
Proof.
  unfold publish_now_loop. generalize (@nil ResultEntry) (@nil ErrorEntry).
  revert s. induction platforms as [|p l IH]; intros s results errors.
  - by exists results, errors, s.
  - cbn [for_of]. unfold bind at 1, publish_now_iteration.
    destruct (find_connectedAccount user p) as [acc|]; [|apply IH].
    unfold try_catch, bind.
    destruct (publish_now_switch env caption mediaUrl acc p s) as [[r|e] s1];
      apply IH.
Qed.

(** The id the next [new ObjectId()] gives, and the state after it. *)
Lemma Post_create_eq d (s : @State W) :
  Post_create oracles d s
    = let id := fst (new_ObjectId oracles (st_world s)) in
      let s0 := set_world (snd (new_ObjectId oracles (st_world s))) s in
      if validate d then
        if fault 0 s then (Throw "store unavailable", answered s0)
        else (Ok (document id d),
              set_posts (st_posts s ++ [document id d]) (answered s0))
      else (Throw "Post validation failed", s0).
Proof.
  unfold Post_create. destruct (new_ObjectId oracles (st_world s)) as [id w].
  cbn [fst snd]. destruct (validate d); [|done].
  unfold bind. rewrite db_available_eq.
  change (fault 0 (set_world w s)) with (fault 0 s). by destruct (fault 0 s).
Qed.

(** What [Post.create] does to the state, however it ends. *)
Lemma Post_create_effect d (s : @State W) :
  let r := Post_create oracles d s in
  st_users (snd r) = st_users s /\ st_calls (snd r) = st_calls s /\
  match fst r with
  | Ok post =>
      st_posts (snd r) = st_posts s ++ [post] /\
      post = document (fst (new_ObjectId oracles (st_world s))) d /\
      validate d = true /\ fault 0 s = false
  | Throw _ => st_posts (snd r) = st_posts s
  end.
Proof.
  cbv zeta. rewrite Post_create_eq. cbv zeta.
  destruct (validate d); [|done]. by destruct (fault 0 s).
Qed.

Lemma written_document req caption platforms T d id :
  body_caption req = Some caption ->
  body_platforms req = Some platforms ->
  written req (document id (postData_of req caption platforms T d)).
Proof. intros Hc Hp. by repeat split. Qed.

Ltac plain_reply :=
  eexists _, _; split; [reflexivity|]; split; [done|];
  split; [done|]; split; [done|];
  first [by left | by right; left | by right; right].

(** X10.  publishToSocialMedia always answers, and its reply tells what
    was stored.  A "scheduled" reply: one document was appended, stored as
    ['scheduled'] for a date still to come, and no remote operation was
    issued.  A reply with results: one document was appended, stored as
    ['published'] when some platform succeeded (status 200) and as
    ['failed'] when none did (status 400), without a date.  Any other
    reply: nothing was stored; on 400 nothing at all was touched, on 404
    no remote operation was issued.  The User collection is never
    written. *)
Theorem publish_reply_tells_the_store req s :
  exists resp s',
    publishToSocialMedia env oracles req s = (Ok resp, s') /\
    st_users s' = st_users s /\
    match resp with
    | PublishScheduled d post =>
        st_posts s' = st_posts s ++ [post] /\ st_calls s' = st_calls s /\
        post_status post = scheduled /\ post_scheduledDate post = Some d /\
        (st_clock s < d)%Z /\ written req post
    | PublishResults status success post results errors =>
        st_posts s' = st_posts s ++ [post] /\
        post_status post = terminal_status results /\
        post_scheduledDate post = None /\ written req post /\
        status = (if success then 200 else 400) /\
        (success = true <-> results <> [])
    | PublishPlain j =>
        st_posts s' = st_posts s /\ json_success j = false /\
        (json_status j = 400 /\ s' = s \/
         json_status j = 404 /\ st_calls s' = st_calls s \/
         json_status j = 500)
    end.
Proof.
  unfold publishToSocialMedia, try_catch.
  destruct (body_caption req) as [caption|] eqn:Hcap; cbn [Js.truthy negb];
    [|plain_reply].
  destruct (String.eqb_spec caption "") as [->|Hne]; cbn [negb];
    [plain_reply|].
  destruct (body_platforms req) as [[|p ps]|] eqn:Hpl;
    try (plain_reply).
  assert (Js.or_else (Some caption) "" = caption) as ->.
  { cbn. by destruct (String.eqb_spec caption ""). }
  unfold bind at 1, Date_now.
  destruct (isScheduled (body_scheduledDate req) (st_clock s)) eqn:Hsch.
  - (* the scheduled branch *)
    destruct (body_scheduledDate req) as [d|] eqn:Hd; [|done].
    cbn [isScheduled] in Hsch. apply Z.ltb_lt in Hsch. cbn [default].
    unfold bind.
    pose proof (Post_create_effect
                  (postData_of req caption (p :: ps) scheduled (Some d)) s) as He.
    cbv zeta in He.
    destruct (Post_create oracles _ s) as [[post|e] s1]; cbn [fst snd] in He.
    + destruct He as (Hu & Hc & Hp & -> & _).
      eexists _, s1. split; [reflexivity|]. split; [done|].
      repeat split; try done.
    + destruct He as (Hu & Hc & Hp).
      eexists _, s1. split; [reflexivity|]. split; [done|].
      split; [done|]. split; [done|]. by right; right.
  - (* immediate publication *)
    unfold bind at 1. rewrite User_findById_eq.
    destruct (fault 0 s);
      [plain_reply|].
    destruct (List.find _ (st_users s)) as [user|];
      [|plain_reply].
    unfold bind at 1.
    destruct (publish_now_loop_returns caption (body_mediaUrl req) (p :: ps) user
                                       (answered s))
      as (results & errors & s1 & Hloop).
    pose proof (framed_publish_now_loop caption (body_mediaUrl req) (p :: ps) user
                                        (answered s)) as Hfr.
    rewrite Hloop in *. cbn [snd] in Hfr. destruct Hfr as (Hposts & Husers & _).
    unfold bind.
    pose proof (Post_create_effect
                  (postData_of req caption (p :: ps) (terminal_status results) None)
                  s1) as He.
    cbv zeta in He.
    destruct (Post_create oracles _ s1) as [[post|e] s2]; cbn [fst snd] in He.
    + destruct He as (Hu & Hc & Hp & -> & _).
      eexists _, s2. split; [reflexivity|].
      split; [by rewrite Hu, Husers|].
      split; [by rewrite Hp, Hposts|].
      repeat split; try done.
      * by destruct results.
      * by destruct results.
    + destruct He as (Hu & Hc & Hp).
      eexists _, s2. split; [reflexivity|].
      split; [by rewrite Hu, Husers|].
      split; [by rewrite Hp, Hposts|]. split; [done|]. by right; right.
Qed.

(** *** The handler's loop and the scheduler's *)

Lemma publish_now_switch_agrees post acc p s :
  supported p = true ->
  exists s',
    (exists r,
       publish_now_switch env (post_content post) (head (post_mediaUrls post))
                          acc p s = (Ok r, s') /\
       publish_switch env post acc p s = (Ok (Some r), s')) \/
    (exists e e',
       publish_now_switch env (post_content post) (head (post_mediaUrls post))
                          acc p s = (Throw e, s') /\
       publish_switch env post acc p s = (Throw e', s')).
Proof.
  assert (forall (m : @M W PostResult) s0,
            exists s',
              (exists r, m s0 = (Ok r, s') /\
                 (postResult <~ m ;; ret (Some postResult)) s0 = (Ok (Some r), s')) \/
              (exists e e', m s0 = (Throw e, s') /\
                 (postResult <~ m ;; ret (Some postResult)) s0 = (Throw e', s')))
    as Hmethod.
  { intros m s0. unfold bind, ret. destruct (m s0) as [[r|e] s'];
      exists s'; [left|right]; eauto. }
  unfold supported, publish_now_switch, publish_switch. cbv zeta. intros Hsup.
  destruct (String.eqb (Js.toLowerCase p) "facebook").
  { destruct (facebookService_getUserPages env (acc_accessToken acc) s)
      as [[[|first pages]|e] s1] eqn:Hpages.
    - rewrite !(bind_ok _ _ _ _ _ Hpages). exists s1. right. by eexists _, _.
    - rewrite !(bind_ok _ _ _ _ _ Hpages). apply Hmethod.
    - rewrite !(bind_throw _ _ _ _ _ Hpages). exists s1. right. by eexists _, _. }
  destruct (String.eqb (Js.toLowerCase p) "instagram").
  { destruct (Js.truthy (acc_businessAccountId acc));
      [|exists s; right; by eexists _, _].
    destruct (isVideo (head (post_mediaUrls post))); apply Hmethod. }
  destruct (String.eqb (Js.toLowerCase p) "pinterest"); [|done].
  destruct (isVideoForPinterest (head (post_mediaUrls post)));
    [exists s; right; by eexists _, _|].
  destruct (PINTEREST_BOARD_ID env) as [boardId|];
    [|exists s; right; by eexists _, _].
  destruct (String.eqb boardId ""); [exists s; right; by eexists _, _|].
  apply Hmethod.
Qed.

Lemma publish_now_iteration_agrees post user p results errors errors' s :
  String.eqb p "all" = false ->
  supported p = true \/ find_connectedAccount user p = None ->
  exists r' e e' s',
    publish_now_iteration env (post_content post) (head (post_mediaUrls post))
                          user p (results, errors) s
      = (Ok (results ++ r', errors ++ e), s') /\
    publish_iteration env post user p (results, errors') s
      = (Ok (results ++ r', errors' ++ e'), s') /\
    map ee_platform e = map ee_platform e'.
Proof.
  intros Hall Hp. unfold publish_now_iteration, publish_iteration. rewrite Hall.
  destruct (find_connectedAccount user p) as [acc|] eqn:Hfind.
  - destruct Hp as [Hsup|]; [|done].
    destruct (publish_now_switch_agrees post acc p s Hsup)
      as (s1 & [(r & Hnow & Hsched)|(e & e' & Hnow & Hsched)]);
      unfold try_catch, bind, ret; rewrite Hnow, Hsched.
    + exists [result_entry p (Some r)], [], [], s1. by rewrite !app_nil_r.
    + exists [], [mkErrorEntry p e], [mkErrorEntry p e'], s1.
      by rewrite !app_nil_r.
  - exists [], [mkErrorEntry p "Account not connected or inactive"],
           [mkErrorEntry p "Account not connected or inactive"], s.
    by rewrite !app_nil_r.
Qed.

Lemma publish_now_loop_agrees post user l :
  Forall (fun p => String.eqb p "all" = false /\
                   (supported p = true \/ find_connectedAccount user p = None)) l ->
  forall results errors errors' s,
    exists r' e e' s',
      for_of l (publish_now_iteration env (post_content post)
                                      (head (post_mediaUrls post)) user)
             (results, errors) s
        = (Ok (results ++ r', errors ++ e), s') /\
      for_of l (publish_iteration env post user) (results, errors') s
        = (Ok (results ++ r', errors' ++ e'), s') /\
      map ee_platform e = map ee_platform e'.
Proof.
  induction 1 as [|p l [Hall Hp] _ IH]; intros results errors errors' s.
  - exists [], [], [], s. by rewrite !app_nil_r.
  - destruct (publish_now_iteration_agrees post user p results errors errors' s
                Hall Hp) as (r1 & e1 & e1' & s1 & Hnow & Hsched & Hnames).
    destruct (IH (results ++ r1) (errors ++ e1) (errors' ++ e1') s1)
      as (r2 & e2 & e2' & s2 & Hnow2 & Hsched2 & Hnames2).
    exists (r1 ++ r2), (e1 ++ e2), (e1' ++ e2'), s2.
    rewrite (for_of_cons_ok _ _ _ _ _ _ _ Hnow),
            (for_of_cons_ok _ _ _ _ _ _ _ Hsched).
    rewrite !app_assoc, !map_app. split; [done|]. split; [done|]. congruence.
Qed.

(** The names the Post schema admits as targets, seen by the loops. *)
Lemma enum_target user p :
  Forall schema_account (user_connectedAccounts user) ->
  in_enum PLATFORMS_ENUM p = true ->
  String.eqb p "all" = false /\
  (supported p = true \/ find_connectedAccount user p = None).
Proof.
  intros Hschema Hp%in_enum_In.
  assert (supported p = true \/ supported p = false) as [Hs|Hs]
    by (destruct (supported p); auto).
  - split; [|by left]. cbn in Hp.
    destruct Hp as [<-|[<-|[<-|[<-|[<-|[]]]]]]; reflexivity.
  - split; [|right; by apply (unsupported_not_connected user p)].
    cbn in Hp. destruct Hp as [<-|[<-|[<-|[<-|[<-|[]]]]]]; reflexivity.
Qed.

(** X11.  Publishing now and publishing through the scheduler do the
    same: for a request the schemas admit, the loop of
    publishToSocialMedia leaves the state, and records the successes and
    the platforms that failed, exactly as the dispatch of the document
    written for that request does.  (An empty [mediaUrl] is sent as such
    by the handler and dropped from the document.) *)
Theorem immediate_same_as_dispatch req post user s :
  written req post ->
  body_mediaUrl req <> Some "" ->
  forallb (in_enum PLATFORMS_ENUM) (post_targets post) = true ->
  Forall schema_account (user_connectedAccounts user) ->
  exists results errors errors' s',
    publish_now_loop env (post_content post) (body_mediaUrl req)
                     (post_targets post) user s
      = (Ok (results, errors), s') /\
    publish_loop env post user s = (Ok (results, errors'), s') /\
    map ee_platform errors = map ee_platform errors'.
Proof.
  intros (_ & _ & _ & Hmedia) Hne Henum Hschema.
  assert (head (post_mediaUrls post) = body_mediaUrl req) as Hhead.
  { rewrite Hmedia. destruct (body_mediaUrl req) as [u|]; [|done]. cbn.
    destruct (String.eqb_spec u "") as [->|_]; done. }
  assert (Forall (fun p => String.eqb p "all" = false /\
                           (supported p = true \/
                            find_connectedAccount user p = None))
                 (post_targets post)) as Hl.
  { apply List.Forall_forall. intros p Hp. apply enum_target; [done|].
    rewrite forallb_forall in Henum. by apply Henum. }
  destruct (publish_now_loop_agrees post user (post_targets post) Hl [] [] [] s)
    as (r & e & e' & s' & Hnow & Hsched & Hnames).
  exists r, e, e', s'. unfold publish_now_loop, publish_loop.
  by rewrite <- Hhead.
Qed.

(** The handler past its two checks. *)
Lemma publishToSocialMedia_checked req caption platforms s :
  body_caption req = Some caption -> caption <> "" ->
  body_platforms req = Some platforms -> platforms <> [] ->
  publishToSocialMedia env oracles req s
    = try_catch
        (if isScheduled (body_scheduledDate req) (st_clock s) then
           let d := default 0%Z (body_scheduledDate req) in
           post <~ Post_create oracles
                     (postData_of req caption platforms scheduled (Some d)) ;;
           ret (PublishScheduled d post)
         else
           user <~ User_findById (req_user req) ;;
           match user with
           | None => ret (PublishPlain (mkJson 404 false "User not found" None))
           | Some user =>
               outcomes <~ publish_now_loop env caption (body_mediaUrl req)
                                            platforms user ;;
               let '(results, errors) := outcomes in
               post <~ Post_create oracles
                         (postData_of req caption platforms
                                      (terminal_status results) None) ;;
               ret (PublishResults
                      (if (0 <? length results)%nat then 200 else 400)
                      (0 <? length results)%nat
                      post results
                      (if (0 <? length errors)%nat then Some errors else None))
           end)
        (fun message =>
           ret (PublishPlain
                  (mkJson 500 false "Error publishing post" (Some message))))
        s.
Proof.
  intros Hcap Hne Hpl Hnil. unfold publishToSocialMedia, try_catch.
  rewrite Hcap, Hpl. cbn [Js.truthy Js.or_else].
  destruct (String.eqb_spec caption "") as [|_]; [done|]. cbn [negb].
  destruct platforms as [|p ps]; [done|].
  unfold bind at 1, Date_now. reflexivity.
Qed.


(** X13.  Published but not recorded.  In the immediate branch the
    document is created after the loop: when the schema turns the
    document down (a caption of more than 5000 code units, a platform
    name such as ['Facebook'] that the loop accepts but the [enum] does
    not) or the store rejects the insert, the reply is 500 and no
    document is stored, while the remote operations of the loop have been
    issued. *)
Theorem published_but_not_recorded req caption platforms user s :
  body_caption req = Some caption -> caption <> "" ->
  body_platforms req = Some platforms -> platforms <> [] ->
  isScheduled (body_scheduledDate req) (st_clock s) = false ->
  fault 0 s = false ->
  find_user (req_user req) s = Some user ->
  schema_accepts caption platforms = false \/ fault 1 s = true ->
  exists results errors s1 e s',
    publish_now_loop env caption (body_mediaUrl req) platforms user (answered s)
      = (Ok (results, errors), s1) /\
    publishToSocialMedia env oracles req s
      = (Ok (PublishPlain (mkJson 500 false "Error publishing post" (Some e))), s') /\
    st_posts s' = st_posts s /\ st_calls s' = st_calls s1.
Proof.
  intros Hcap Hne Hpl Hnil Hsch Hf0 Hu Hbad.
  rewrite (publishToSocialMedia_checked req caption platforms s) by done.
  rewrite Hsch. unfold try_catch, bind at 1.
  rewrite User_findById_eq, Hf0. fold (find_user (req_user req) s). rewrite Hu.
  destruct (publish_now_loop_returns caption (body_mediaUrl req) platforms user
                                     (answered s))
    as (results & errors & s1 & Hloop).
  pose proof (framed_publish_now_loop caption (body_mediaUrl req) platforms user
                                      (answered s)) as Hfr.
  rewrite Hloop in Hfr. cbn [snd] in Hfr.
  pose proof (fault_frame 0 _ _ Hfr) as Hf1. rewrite fault_answered in Hf1.
  destruct Hfr as (Hposts & _).
  exists results, errors, s1. unfold bind at 1. rewrite Hloop.
  unfold bind. rewrite Post_create_eq. cbv zeta.
  rewrite validate_postData_of, Hf1.
  assert (st_posts s1 = st_posts s) as Hp by exact Hposts.
  destruct Hbad as [Hacc|Hflt].
  - rewrite Hacc. unfold ret. eexists _, _. split; [done|]. split; [reflexivity|].
    split; [exact Hp|done].
  - rewrite Hflt. destruct (schema_accepts caption platforms); unfold ret;
      (eexists _, _; split; [done|]; split; [reflexivity|];
       split; [exact Hp|done]).
Qed.

End Publishing.

(* ===================================================================== *)
(** ** Properties of the disconnect handlers *)
(* ===================================================================== *)

Lemma unlinked_others platform q l :
  q <> platform -> accounts_of q (unlinked platform l) = accounts_of q l.
Proof.
  intros Hq. unfold accounts_of, unlinked.
  induction l as [|a l IH]; [done|]. cbn [List.filter].
  destruct (String.eqb_spec (acc_platform a) platform) as [E|_]; cbn [negb].
  - destruct (String.eqb_spec (acc_platform a) q) as [E'|_]; [congruence|done].
  - cbn [List.filter]. by rewrite IH.
Qed.

Lemma unlinked_absent platform l :
  accounts_of platform l = [] -> unlinked platform l = l.
Proof.
  unfold accounts_of, unlinked. induction l as [|a l IH]; [done|].
  cbn [List.filter]. destruct (String.eqb (acc_platform a) platform); [done|].
  intros H. cbn [negb]. by rewrite IH.
Qed.

Lemma unlinked_relinked platform accountData l :
  ad_platform accountData = platform ->
  unlinked platform (relinked platform accountData l) = unlinked platform l.
Proof.
  intros <-. unfold unlinked, relinked. rewrite List.filter_app.
  cbn [List.filter new_connection acc_platform]. rewrite String.eqb_refl.
  cbn [negb]. rewrite app_nil_r.
  induction l as [|a l IH]; [done|]. cbn [List.filter].
  destruct (negb (String.eqb (acc_platform a) (ad_platform accountData))) eqn:E;
    cbn [List.filter]; rewrite ?E, IH; done.
Qed.

(** A schema-valid user has no active connection left for a platform
    once its connections are unlinked. *)
Lemma unlinked_not_connected pf user :
  Forall schema_account (user_connectedAccounts user) ->
  find_connectedAccount
    (set_connectedAccounts (unlinked (platform_name pf) (user_connectedAccounts user))
                           user)
    (platform_name pf) = None.
Proof.
  intros Hschema. apply find_connectedAccount_None.
  cbn [user_connectedAccounts set_connectedAccounts]. unfold unlinked.
  intros acc [Hin Hne]%filter_In Hname. exfalso.
  rewrite List.Forall_forall in Hschema. specialize (Hschema acc Hin).
  apply negb_true_iff, String.eqb_neq in Hne. apply Hne.
  unfold schema_account in Hschema. cbn in Hschema.
  destruct Hschema as [E|[E|[E|[]]]]; rewrite <- E in Hname |- *;
    destruct pf; vm_compute in Hname; first [reflexivity | discriminate].
Qed.

(** What [findById] finds once [save] has written [u']. *)
Lemma find_user_saved {W} userId user u' (s : @State W) l :
  find_user userId s = Some user ->
  user_id u' = user_id user ->
  l = map (fun v => if String.eqb (user_id v) (user_id u') then u' else v)
          (st_users s) ->
  List.find (fun u => String.eqb (user_id u) userId) l = Some u'.
Proof.
  unfold find_user. intros Hfind Hid ->.
  induction (st_users s) as [|v users IH]; [done|]. cbn [List.find map] in *.
  destruct (String.eqb_spec (user_id v) userId) as [E|Hne].
  - injection Hfind as ->. rewrite Hid, String.eqb_refl. cbn [List.find].
    by rewrite Hid, E, String.eqb_refl.
  - destruct (String.eqb_spec (user_id v) (user_id u')) as [E'|_].
    + cbn [List.find]. apply find_some in Hfind as [_ Hu%String.eqb_eq].
      rewrite Hid, Hu, String.eqb_refl. done.
    + cbn [List.find]. destruct (String.eqb_spec (user_id v) userId); [done|].
      by apply IH.
Qed.

(** A document that validates obeys the schema's [enum], and still
    validates without the connections of a platform. *)
Lemma valid_user_schema user :
  valid_user user = true -> Forall schema_account (user_connectedAccounts user).
Proof.
  unfold valid_user. intros [_ Hall]%andb_true_iff.
  rewrite forallb_forall in Hall. apply List.Forall_forall. intros acc Hacc.
  specialize (Hall acc Hacc). unfold valid_account in Hall.
  apply andb_true_iff in Hall as [[[Henum _]%andb_true_iff _]%andb_true_iff _].
  unfold schema_account. unfold in_enum in Henum.
  apply existsb_exists in Henum as (x & Hx & ->%String.eqb_eq). exact Hx.
Qed.

Lemma valid_user_unlinked platform user :
  valid_user user = true ->
  valid_user (set_connectedAccounts
                (unlinked platform (user_connectedAccounts user)) user) = true.
Proof.
  unfold valid_user. cbn [user_firebaseUid user_email user_bio user_connectedAccounts
         set_connectedAccounts].
  intros [-> Hall]%andb_true_iff. cbn [andb].
  rewrite forallb_forall in *. intros acc [Hacc _]%filter_In. by apply Hall.
Qed.

Section Disconnecting.

Context {W : Type} (env : @Env W) (oracles : @Oracles W).

Local Abbreviation fault := (fault (W:=W)) (only parsing).
Local Abbreviation answered := (answered (W:=W)) (only parsing).
Local Abbreviation find_user := (find_user (W:=W)) (only parsing).

(** The Firestore step of a disconnect: it never throws and moves at
    most the remote world. *)
Lemma disconnect_firestore_step pf (user : User) (s : @State W) :
  exists w,
    (if firestore_enabled env && Js.truthy (user_firebaseUid user) then
       try_catch
         (firestoreService_disconnectAccount oracles pf
            (Js.or_else (user_firebaseUid user) ""))
         (fun _ => ret tt)
     else ret tt) s = (Ok tt, set_world w s).
Proof.
  destruct (firestore_enabled env && Js.truthy (user_firebaseUid user)).
  - unfold try_catch, firestoreService_disconnectAccount, ret.
    destruct (firestore_disconnect oracles pf _ (st_world s)) as [[[]|e] w];
      by exists w.
  - exists (st_world s). by destruct s.
Qed.

(** The runs of a disconnect, by the validators and the answers of the
    store. *)
Lemma disconnect_run pf userId s :
  let removed user :=
    set_connectedAccounts
      (unlinked (platform_name pf) (user_connectedAccounts user)) user in
  if fault 0 s then
    exists e, disconnect env oracles pf userId s
              = (Ok (mkJson 500 false
                       (String.append "Error disconnecting " (display_name pf))
                       (Some e)),
                 answered s)
  else
  match find_user userId s with
  | None =>
      disconnect env oracles pf userId s
        = (Ok (mkJson 404 false "User not found" None), answered s)
  | Some user =>
      if negb (valid_user (removed user)) then
        exists e, disconnect env oracles pf userId s
                  = (Ok (mkJson 500 false
                           (String.append "Error disconnecting " (display_name pf))
                           (Some e)),
                     answered s)
      else if fault 1 s then
        exists e, disconnect env oracles pf userId s
                  = (Ok (mkJson 500 false
                           (String.append "Error disconnecting " (display_name pf))
                           (Some e)),
                     answered (answered s))
      else
        exists w,
          disconnect env oracles pf userId s
            = (Ok (mkJson 200 true
                     (String.append (display_name pf)
                                    " account disconnected successfully")
                     None),
               set_world w
                 (set_users
                    (map (fun v => if String.eqb (user_id v) (user_id (removed user))
                                   then removed user else v)
                         (st_users s))
                    (answered (answered s))))
  end.
Proof.
  cbv zeta.
  pose proof (User_findById_eq userId s) as Hfind.
  fold (find_user userId s) in Hfind.
  destruct (fault 0 s) eqn:Hf0.
  { unfold disconnect. unfold try_catch at 1.
    rewrite (bind_throw _ _ _ _ _ Hfind). by eexists. }
  destruct (find_user userId s) as [user|].
  2: { unfold disconnect. unfold try_catch at 1.
       by rewrite (bind_ok _ _ _ _ _ Hfind). }
  pose proof (User_save_eq
                (set_connectedAccounts
                   (unlinked (platform_name pf) (user_connectedAccounts user)) user)
                (answered s)) as Hsave.
  rewrite fault_answered in Hsave.
  destruct (valid_user _) eqn:Hvalid; cbn [negb].
  2: { unfold disconnect. unfold try_catch at 1.
       rewrite (bind_ok _ _ _ _ _ Hfind).
       fold (unlinked (platform_name pf) (user_connectedAccounts user)).
       rewrite (bind_throw _ _ _ _ _ Hsave). by eexists. }
  destruct (fault 1 s) eqn:Hf1.
  { unfold disconnect. unfold try_catch at 1.
    rewrite (bind_ok _ _ _ _ _ Hfind).
    fold (unlinked (platform_name pf) (user_connectedAccounts user)).
    rewrite (bind_throw _ _ _ _ _ Hsave). by eexists. }
  unfold disconnect. unfold try_catch at 1.
  rewrite (bind_ok _ _ _ _ _ Hfind).
  fold (unlinked (platform_name pf) (user_connectedAccounts user)).
  rewrite (bind_ok _ _ _ _ _ Hsave).
  match goal with
  | |- context [bind _ _ ?s0] =>
      destruct (disconnect_firestore_step pf
                  (set_connectedAccounts
                     (unlinked (platform_name pf) (user_connectedAccounts user)) user)
                  s0) as [w Hstep]
  end.
  rewrite (bind_ok _ _ _ _ _ Hstep). by exists w.
Qed.

(** X14.  A disconnect always answers, and it is all or nothing: on
    200 the user document was saved with every connection of the platform
    removed and the other connections as they were, in their order; on
    any other reply (404 for an unknown user, 500 when the store or the
    validation rejects) the User collection is as before.  It never touches the posts, the
    call log, the processed-code sets or the timers. *)
Theorem disconnect_all_or_nothing pf userId s :
  exists j s',
    disconnect env oracles pf userId s = (Ok j, s') /\
    st_posts s' = st_posts s /\ st_calls s' = st_calls s /\
    st_globals s' = st_globals s /\ st_timers s' = st_timers s /\
    (json_status j = 200 ->
     exists user,
       find_user userId s = Some user /\
       st_users s'
         = map (fun v => if String.eqb (user_id v) (user_id user)
                         then set_connectedAccounts
                                (unlinked (platform_name pf)
                                          (user_connectedAccounts user)) user
                         else v)
               (st_users s)) /\
    (json_status j <> 200 -> st_users s' = st_users s).
Proof.
  pose proof (disconnect_run pf userId s) as Hrun. cbv zeta in Hrun.
  destruct (fault 0 s).
  { destruct Hrun as [e ->]. eexists _, _. split; [reflexivity|].
    repeat split; try done. }
  destruct (find_user userId s) as [user|].
  2: { rewrite Hrun. eexists _, _. split; [reflexivity|]. repeat split; try done. }
  destruct (negb (valid_user _)).
  { destruct Hrun as [e ->]. eexists _, _. split; [reflexivity|].
    repeat split; try done. }
  destruct (fault 1 s).
  { destruct Hrun as [e ->]. eexists _, _. split; [reflexivity|].
    repeat split; try done. }
  destruct Hrun as [w ->]. eexists _, _. split; [reflexivity|].
  repeat split; try done. intros _. by exists user.
Qed.

(** X15.  For a user on record whose document validates, a disconnect
    answers 200 while the store answers, whatever Firestore does.
    Afterwards the user has no connection of the platform, keeps every
    connection of the other platforms, and a dispatch for that user
    records ['Account not connected or inactive'] for the platform without
    any remote operation. *)
Theorem disconnected_platform_not_dispatched pf userId user s :
  fault 0 s = false -> fault 1 s = false ->
  find_user userId s = Some user ->
  valid_user user = true ->
  exists j s' user',
    disconnect env oracles pf userId s = (Ok j, s') /\ json_status j = 200 /\
    find_user userId s' = Some user' /\
    accounts_of (platform_name pf) (user_connectedAccounts user') = [] /\
    (forall q, q <> platform_name pf ->
               accounts_of q (user_connectedAccounts user')
                 = accounts_of q (user_connectedAccounts user)) /\
    forall post results errors (s2 : @State W),
      publish_iteration env post user' (platform_name pf) (results, errors) s2
        = (Ok (results,
               errors ++ [mkErrorEntry (platform_name pf)
                                       "Account not connected or inactive"]), s2).
Proof.
  intros Hf0 Hf1 Hu Hvalid.
  pose proof (valid_user_schema user Hvalid) as Hschema.
  pose proof (disconnect_run pf userId s) as Hrun. cbv zeta in Hrun.
  rewrite Hf0, Hu, Hf1, (valid_user_unlinked (platform_name pf) user Hvalid)
    in Hrun.
  cbn [negb] in Hrun. destruct Hrun as [w ->].
  eexists _, _, _. split; [reflexivity|]. split; [done|]. split.
  { unfold find_user. cbn [st_users set_world set_users].
    by apply (find_user_saved userId user
                (set_connectedAccounts
                   (unlinked (platform_name pf) (user_connectedAccounts user)) user)
                s). }
  cbn [user_connectedAccounts set_connectedAccounts]. split.
  { apply accounts_of_removed. }
  split.
  { intros q Hq. by apply unlinked_others. }
  intros post results errors s2. unfold publish_iteration.
  rewrite (unlinked_not_connected pf user Hschema).
  by destruct pf.
Qed.

(** The run of saveAccountToStorage while the store answers. *)
Lemma saveAccountToStorage_run userId platform accountData firebaseUid user s :
  st_dbFaults s = [] ->
  find_user userId s = Some user ->
  valid_user (set_connectedAccounts
                (relinked platform accountData (user_connectedAccounts user)) user)
    = true ->
  exists w,
    saveAccountToStorage env userId platform accountData firebaseUid s
      = (Ok tt,
         set_world w
           (set_users
              (map (fun v => if String.eqb (user_id v) (user_id user)
                             then set_connectedAccounts
                                    (relinked platform accountData
                                              (user_connectedAccounts user)) user
                             else v)
                   (st_users s)) s)).
Proof.
  intros Hf Hu Hvalid. unfold saveAccountToStorage, bind at 1.
  rewrite User_findById_eq, (fault_none 0 s Hf). fold (find_user userId s).
  rewrite Hu. unfold bind. rewrite User_save_eq, fault_answered, (fault_none 1 s Hf).
  fold (relinked platform accountData (user_connectedAccounts user)).
  rewrite Hvalid.
  rewrite !answered_id by (by rewrite ?answered_id).
  cbn [user_id set_connectedAccounts].
  destruct (firestore_enabled env && Js.truthy firebaseUid);
    [|eexists (st_world s); by destruct s].
  destruct (parse_platform platform) as [pf|];
    [|eexists (st_world s); by destruct s].
  unfold try_catch, firestoreService_save, ret.
  match goal with
  | |- context [firestore_save env pf ?u accountData ?w] =>
      destruct (firestore_save env pf u accountData w) as [[[]|e] w']
  end; by exists w'.
Qed.

(** X16.  Linking a platform the user had no connection of, then
    disconnecting it, gives back the user document as it was: for a user
    whose document validates and a new connection that validates, while
    the store answers. *)
Theorem link_then_disconnect_restores pf userId accountData firebaseUid user s :
  st_dbFaults s = [] ->
  find_user userId s = Some user ->
  valid_user user = true ->
  valid_account (new_connection accountData) = true ->
  ad_platform accountData = platform_name pf ->
  accounts_of (platform_name pf) (user_connectedAccounts user) = [] ->
  exists s1 j s2,
    saveAccountToStorage env userId (platform_name pf) accountData firebaseUid s
      = (Ok tt, s1) /\
    find_user userId s1
      = Some (set_connectedAccounts
                (user_connectedAccounts user ++ [new_connection accountData]) user) /\
    disconnect env oracles pf userId s1 = (Ok j, s2) /\ json_status j = 200 /\
    find_user userId s2 = Some user.
Proof.
  intros Hf Hu Hvalid Hnew Hpf Hnone.
  assert (relinked (platform_name pf) accountData (user_connectedAccounts user)
          = user_connectedAccounts user ++ [new_connection accountData]) as Hrel.
  { unfold relinked. fold (unlinked (platform_name pf) (user_connectedAccounts user)).
    by rewrite unlinked_absent. }
  set (linked := set_connectedAccounts
                   (relinked (platform_name pf) accountData
                             (user_connectedAccounts user)) user) in *.
  assert (valid_user linked = true) as Hlinked.
  { unfold linked, valid_user in *.
    cbn [user_firebaseUid user_email user_bio user_connectedAccounts
         set_connectedAccounts].
    apply andb_true_iff in Hvalid as [-> Hall]. rewrite Hrel, forallb_app, Hall.
    cbn [forallb andb]. by rewrite Hnew. }
  destruct (saveAccountToStorage_run userId (platform_name pf) accountData
                                     firebaseUid user s Hf Hu Hlinked) as [w Hsave].
  fold linked in Hsave.
  set (s1 := set_world w
               (set_users
                  (map (fun v => if String.eqb (user_id v) (user_id user)
                                 then linked else v) (st_users s)) s)) in *.
  assert (find_user userId s1 = Some linked) as Hu1.
  { unfold find_user, s1. cbn [st_users set_world set_users].
    by apply (find_user_saved userId user linked s). }
  assert (set_connectedAccounts
            (unlinked (platform_name pf) (user_connectedAccounts linked)) linked
          = user) as Hrem.
  { unfold linked. cbn [user_connectedAccounts set_connectedAccounts].
    rewrite unlinked_relinked by done. rewrite unlinked_absent by done.
    by destruct user. }
  pose proof (disconnect_run pf userId s1) as Hrun.
  cbv zeta in Hrun. rewrite Hu1, Hrem, Hvalid in Hrun.
  rewrite !fault_none in Hrun by (by unfold s1; cbn).
  cbn [negb] in Hrun. destruct Hrun as [w' Hrun].
  eexists s1, _, _. split; [exact Hsave|].
  split. { rewrite Hu1. unfold linked. by rewrite Hrel. }
  split; [exact Hrun|]. split; [done|].
  unfold find_user. cbn [st_users set_world set_users].
  by apply (find_user_saved userId linked user s1).
Qed.

End Disconnecting.

(* ===================================================================== *)
(** ** Properties of likePost *)
(* ===================================================================== *)

Lemma isLiked_In userId post : isLiked userId post = true <-> In userId (likes post).
Proof.
  unfold isLiked. rewrite existsb_exists. split.
  - by intros (id & Hid & ->%String.eqb_eq).
  - intros H. exists userId. by rewrite String.eqb_refl.
Qed.

Lemma isLiked_false userId post :
  isLiked userId post = false <-> ~ In userId (likes post).
Proof. rewrite <- isLiked_In. by destruct (isLiked userId post). Qed.

Lemma filter_other_absent (userId : ObjectId) l :
  ~ In userId l ->
  List.filter (fun id => negb (String.eqb id userId)) l = l.
Proof.
  induction l as [|x l IH]; [done|]. intros Hn. cbn [List.filter].
  destruct (String.eqb_spec x userId) as [->|_].
  - destruct Hn. by left.
  - cbn [negb]. rewrite IH; [done|]. intros H. apply Hn. by right.
Qed.

Lemma filter_other_length (userId : ObjectId) l :
  NoDup l -> In userId l ->
  S (length (List.filter (fun id => negb (String.eqb id userId)) l)) = length l.
Proof.
  induction 1 as [|x l Hx Hl IH]; [done|]. intros Hin. cbn [List.filter].
  destruct (String.eqb_spec x userId) as [->|Hne]; cbn [negb length].
  - rewrite filter_other_absent; [done|]. by rewrite <- list_elem_of_In.
  - rewrite IH; [done|]. destruct Hin; [done|done].
Qed.

(** X17.  likePost keeps the counter in step with the list: when no
    user is listed twice and [likesCount] is the number of likes, the
    same holds after a like and after an unlike. *)
Theorem toggle_like_keeps_count userId post :
  likes_ok post -> likes_ok (toggle_like userId post).
Proof.
  intros [Hnd Hcount]. unfold toggle_like, likes_ok.
  destruct (isLiked userId post) eqn:Hl; cbn [likes likesCount].
  - apply isLiked_In in Hl. split.
    + apply NoDup_ListNoDup, List.NoDup_filter. by apply NoDup_ListNoDup.
    + rewrite Hcount, <- (filter_other_length userId (likes post) Hnd Hl).
      unfold ObjectId. lia.
  - apply isLiked_false in Hl. split.
    + apply NoDup_app. split; [done|]. split; [|apply NoDup_singleton].
      intros x Hx ->%list_elem_of_singleton. apply Hl. by rewrite <- list_elem_of_In.
    + rewrite length_app. cbn [length]. lia.
Qed.


(* ===================================================================== *)
(** ** Properties of the Instagram OAuth flow *)
(* ===================================================================== *)

Section InstagramFlowProperties.

Context {W : Type} (graph : @Graph W).

Local Abbreviation local_frame := (local_frame (W:=W)) (only parsing).

(** A request moves the remote world and nothing else. *)
Lemma request_world {A} (ask : W -> Result A * W) (s : @State W) :
  request ask s = (fst (ask (st_world s)), set_world (snd (ask (st_world s))) s).
Proof. unfold request. by destruct (ask (st_world s)). Qed.

Lemma getInstagramBusinessAccount_answer linked page (s : @State W) :
  answers graph linked ->
  exists w,
    instagramService_getInstagramBusinessAccount graph (gp_id page)
                                                 (gp_access_token page) s
      = (Ok (linked page), set_world w s).
Proof.
  intros Hans. specialize (Hans page (st_world s)).
  unfold instagramService_getInstagramBusinessAccount, try_catch.
  rewrite request_world.
  destruct (graph_page graph (gp_id page) (gp_access_token page) (st_world s))
    as [[igAccount|e] w]; cbn [fst snd] in *; exists w; by rewrite Hans.
Qed.

Lemma find_business_account_skips linked before (s : @State W) :
  answers graph linked ->
  Forall (fun page => linked page = None) before ->
  exists w, forall rest,
    find_business_account graph (before ++ rest) s
      = find_business_account graph rest (set_world w s).
Proof.
  intros Hans Hnone. revert s.
  induction Hnone as [|page before Hpage _ IH]; intros s.
  - exists (st_world s). intros rest. by destruct s.
  - destruct (getInstagramBusinessAccount_answer linked page s Hans) as [w Hq].
    destruct (IH (set_world w s)) as [w' Hrest].
    exists w'. intros rest. cbn [app find_business_account].
    rewrite (bind_ok _ _ _ _ _ Hq), Hpage. apply Hrest.
Qed.

(** X19.  The flow takes the first page, in the order of
    [GET /me/accounts], that has an Instagram business account: the
    pages before it were asked and had none, and the pages after it are
    not asked at all, so they change neither the result nor the state. *)
Theorem first_linked_page_is_taken linked before page after igAccount
    (s : @State W) :
  answers graph linked ->
  Forall (fun page => linked page = None) before ->
  linked page = Some igAccount ->
  exists w,
    find_business_account graph (before ++ page :: after) s
      = (Ok (Some (igAccount, page)), set_world w s) /\
    find_business_account graph (before ++ [page]) s
      = (Ok (Some (igAccount, page)), set_world w s).
Proof.
  intros Hans Hnone Hpage.
  destruct (find_business_account_skips linked before s Hans Hnone) as [w Hskip].
  destruct (getInstagramBusinessAccount_answer linked page (set_world w s) Hans)
    as [w' Hq].
  exists w'. rewrite !Hskip. cbn [find_business_account].
  by rewrite !(bind_ok _ _ _ _ _ Hq), Hpage.
Qed.

(** The loop without any linked page. *)
Lemma find_business_account_none linked pages (s : @State W) :
  answers graph linked ->
  Forall (fun page => linked page = None) pages ->
  exists w, find_business_account graph pages s = (Ok None, set_world w s).
Proof.
  intros Hans Hnone.
  destruct (find_business_account_skips linked pages s Hans Hnone) as [w Hskip].
  exists w. specialize (Hskip []). by rewrite app_nil_r in Hskip.
Qed.

(** The loop never throws and moves only the remote world. *)
Lemma find_business_account_returns pages (s : @State W) :
  exists found w, find_business_account graph pages s = (Ok found, set_world w s).
Proof.
  revert s. induction pages as [|page pages IH]; intros s.
  - exists None, (st_world s). by destruct s.
  - cbn [find_business_account]. unfold bind.
    unfold instagramService_getInstagramBusinessAccount, try_catch.
    rewrite request_world.
    destruct (graph_page graph _ _ (st_world s)) as [[[a|]|e] w]; cbn [fst snd ret].
    + by exists (Some (a, page)), w.
    + destruct (IH (set_world w s)) as (found & w' & ->). by exists found, w'.
    + destruct (IH (set_world w s)) as (found & w' & ->). by exists found, w'.
Qed.

(** The page of the account found is one of the pages. *)
Lemma find_business_account_In pages :
  forall (s0 : @State W) found s1,
    find_business_account graph pages s0 = (Ok (Some found), s1) ->
    In (snd found) pages.
Proof.
  induction pages as [|page pages IH]; intros s0 found s1; [done|].
  cbn [find_business_account]. unfold bind.
  destruct (instagramService_getInstagramBusinessAccount graph _ _ s0)
    as [[[a|]|e] s2]; [| |done].
  - intros [= <- _]. by left.
  - intros H. right. by eapply IH, H.
Qed.


(** The flow once its first three requests are answered. *)
Lemma instagram_flow_answered code short longLivedData pages w1 w2 w3
    (s : @State W) :
  graph_code graph code (st_world s) = (Ok short, w1) ->
  graph_exchange graph short w1 = (Ok longLivedData, w2) ->
  graph_accounts graph (ll_accessToken longLivedData) w2 = (Ok pages, w3) ->
  instagramService_completeOAuthFlow graph code s
    = (found <~ find_business_account graph pages ;;
       match found with
       | None => throw BUSINESS_ACCOUNT_REQUIRED
       | Some (instagramAccount, page) =>
           now <~ Date_now ;;
           ret (mkAccountData
                  "instagram"
                  (ig_igId instagramAccount)
                  (ig_username instagramAccount)
                  (ig_username instagramAccount)
                  (ll_accessToken longLivedData)
                  None
                  (Some (now + lifetime_ms (ll_expiresIn longLivedData))%Z)
                  (Some now)
                  []
                  (Some (gp_access_token page))
                  (Some (ig_igId instagramAccount)))
       end) (set_world w3 (set_world w2 (set_world w1 s))).
Proof.
  intros Hcode Hexch Hacc.
  unfold instagramService_completeOAuthFlow, bind at 1.
  unfold instagramService_exchangeCodeForToken, rethrow, try_catch at 1.
  rewrite request_world, Hcode. cbn [fst snd].
  unfold bind at 1, instagramService_getLongLivedToken, try_catch at 1.
  rewrite request_world. cbn [st_world set_world]. rewrite Hexch. cbn [fst snd].
  unfold bind at 1, instagramService_getConnectedPages, try_catch at 1.
  rewrite request_world. cbn [st_world set_world]. rewrite Hacc. reflexivity.
Qed.

(** X21.  Once the code exchange, the token exchange and the page list
    are answered, the flow succeeds exactly for a user with a linked
    page: it rejects with the 'Instagram Business Account Required'
    message when no page has a business account, and otherwise resolves
    to the account of the first linked page with that page's token. *)
Theorem instagram_flow_needs_linked_page linked code short longLivedData pages
    w1 w2 w3 (s : @State W) :
  answers graph linked ->
  graph_code graph code (st_world s) = (Ok short, w1) ->
  graph_exchange graph short w1 = (Ok longLivedData, w2) ->
  graph_accounts graph (ll_accessToken longLivedData) w2 = (Ok pages, w3) ->
  (Forall (fun page => linked page = None) pages ->
   exists s',
     instagramService_completeOAuthFlow graph code s
       = (Throw BUSINESS_ACCOUNT_REQUIRED, s')) /\
  (forall before page after igAccount,
     pages = before ++ page :: after ->
     Forall (fun page => linked page = None) before ->
     linked page = Some igAccount ->
     exists data s',
       instagramService_completeOAuthFlow graph code s = (Ok data, s') /\
       ad_accountId data = ig_igId igAccount /\
       ad_accountName data = ig_username igAccount /\
       ad_pageAccessToken data = Some (gp_access_token page)).
Proof.
  intros Hans Hcode Hexch Hacc.
  rewrite (instagram_flow_answered code short longLivedData pages w1 w2 w3 s)
    by done.
  split.
  - intros Hnone.
    destruct (find_business_account_none linked pages
                (set_world w3 (set_world w2 (set_world w1 s))) Hans Hnone)
      as [w Hfind].
    rewrite (bind_ok _ _ _ _ _ Hfind). by eexists.
  - intros before page after igAccount -> Hnone Hpage.
    destruct (find_business_account_skips linked before
                (set_world w3 (set_world w2 (set_world w1 s))) Hans Hnone)
      as [w Hskip].
    match goal with
    | |- context [set_world w3 ?s0] =>
        destruct (getInstagramBusinessAccount_answer linked page
                    (set_world w (set_world w3 s0)) Hans) as [w' Hq]
    end.
    assert (find_business_account graph (before ++ page :: after)
              (set_world w3 (set_world w2 (set_world w1 s)))
            = (Ok (Some (igAccount, page)),
               set_world w' (set_world w (set_world w3 (set_world w2 (set_world w1 s))))))
      as Hfind.
    { rewrite Hskip. cbn [find_business_account].
      by rewrite (bind_ok _ _ _ _ _ Hq), Hpage. }
    rewrite (bind_ok _ _ _ _ _ Hfind). unfold bind, Date_now, ret.
    by eexists _, _.
Qed.

End InstagramFlowProperties.

(* ===================================================================== *)
(** ** Properties of the user document's methods *)
(* ===================================================================== *)

Lemma schema_account_lower acc :
  schema_account acc -> Js.toLowerCase (acc_platform acc) = acc_platform acc.
Proof.
  unfold schema_account. cbn [In].
  intros [<-|[<-|[<-|[]]]]; reflexivity.
Qed.

Lemma find_ext_in {A} (f g : A -> bool) (l : list A) :
  (forall x, In x l -> f x = g x) -> List.find f l = List.find g l.
Proof.
  induction l as [|x l IH]; [done|]. intros H. cbn [List.find].
  rewrite (H x (or_introl eq_refl)). destruct (g x); [done|].
  apply IH. intros y Hy. apply H. by right.
Qed.

(** X22.  The lookup of the scheduler and the lookup of the User model
    agree on documents that obey the schema: the connection the scheduler
    finds for a target, compared in lower case, is the one
    [getConnectedAccount] returns for the lower-case name, and
    [isAccountConnected] holds exactly when there is one. *)
Theorem model_lookup_agrees user platformName :
  Forall schema_account (user_connectedAccounts user) ->
  find_connectedAccount user platformName
    = getConnectedAccount user (Js.toLowerCase platformName) /\
  (isAccountConnected user (Js.toLowerCase platformName) = true <->
   find_connectedAccount user platformName <> None).
Proof.
  intros Hschema. rewrite List.Forall_forall in Hschema.
  assert (find_connectedAccount user platformName
          = getConnectedAccount user (Js.toLowerCase platformName)) as Hfind.
  { unfold find_connectedAccount, getConnectedAccount. apply find_ext_in.
    intros acc Hin. by rewrite (schema_account_lower acc (Hschema acc Hin)). }
  split; [exact Hfind|]. rewrite Hfind.
  unfold isAccountConnected, getConnectedAccount. rewrite existsb_exists. split.
  - intros (acc & Hin & Hacc) Hnone.
    pose proof (find_none _ _ Hnone acc Hin) as Hn. cbn beta in Hn. congruence.
  - intros Hsome.
    destruct (List.find _ (user_connectedAccounts user)) as [acc|] eqn:E; [|done].
    apply find_some in E. by exists acc.
Qed.

Lemma getConnectedAccount_unlinked platform l user :
  getConnectedAccount (set_connectedAccounts (unlinked platform l) user) platform
    = None.
Proof.
  unfold getConnectedAccount, unlinked.
  cbn [user_connectedAccounts set_connectedAccounts].
  induction l as [|a l IH]; [done|]. cbn [List.filter].
  destruct (String.eqb (acc_platform a) platform) eqn:E; cbn [negb]; [done|].
  cbn [List.find]. by rewrite E.
Qed.

(** X23.  Linking and unlinking as the model's methods see them: the
    document saveAccountToStorage builds for a platform has the new
    connection as its connected account of that platform, and the
    document a disconnect builds has none. *)
Theorem model_sees_link_and_unlink platform accountData user :
  ad_platform accountData = platform ->
  let linked :=
    set_connectedAccounts
      (relinked platform accountData (user_connectedAccounts user)) user in
  let removed :=
    set_connectedAccounts (unlinked platform (user_connectedAccounts linked)) linked in
  getConnectedAccount linked platform = Some (new_connection accountData) /\
  isAccountConnected linked platform = true /\
  getConnectedAccount removed platform = None /\
  isAccountConnected removed platform = false.
Proof.
  intros Hpf linked removed.
  assert (getConnectedAccount linked platform = Some (new_connection accountData))
    as Hget.
  { unfold linked, relinked, getConnectedAccount.
    cbn [user_connectedAccounts set_connectedAccounts].
    fold (unlinked platform (user_connectedAccounts user)).
    pose proof (getConnectedAccount_unlinked platform (user_connectedAccounts user)
                                             user) as Hnone.
    unfold getConnectedAccount in Hnone.
    cbn [user_connectedAccounts set_connectedAccounts] in Hnone.
    induction (unlinked platform (user_connectedAccounts user)) as [|a l IH].
    - cbn [app List.find new_connection acc_platform acc_isActive].
      by rewrite Hpf, String.eqb_refl.
    - cbn [app List.find] in *.
      destruct (String.eqb (acc_platform a) platform && acc_isActive a);
        [done|by apply IH]. }
  assert (getConnectedAccount removed platform = None) as Hgone
    by apply getConnectedAccount_unlinked.
  assert (forall u, isAccountConnected u platform
                    = bool_decide (getConnectedAccount u platform <> None)) as His.
  { intros u. unfold isAccountConnected, getConnectedAccount.
    induction (user_connectedAccounts u) as [|a l IH]; [done|].
    cbn [existsb List.find].
    destruct (String.eqb (acc_platform a) platform && acc_isActive a); [done|].
    apply IH. }
  split; [exact Hget|]. split; [by rewrite His, Hget|].
  split; [exact Hgone|]. by rewrite His, Hgone.
Qed.

(* ===================================================================== *)
(** ** The further properties at work *)
(* ===================================================================== *)

Lemma alice_schema : Forall schema_account (user_connectedAccounts alice).
Proof.
  apply List.Forall_cons; [by left|].
  apply List.Forall_cons; [by right; left|]. apply List.Forall_nil.
Defined.

Lemma dispatch_without_connection_witness :
  let s := demo_state [pin_job] [] 5000%Z [] in
  let s' := snd (processScheduledPost demo_env pin_job s) in
  find_user (post_user pin_job) s = Some alice /\
  st_calls s' = st_calls s /\ st_world s' = st_world s /\
  st_posts s' = [set_status failed pin_job].
Proof.
  intros s s'. split; [reflexivity|].
  apply (dispatch_without_connection demo_env pin_job alice s);
    [reflexivity|reflexivity|reflexivity|].
  intros p acc [<-|[]] [<-|[<-|[]]]; vm_compute; discriminate.
Defined.

Lemma unsupported_target_never_published_witness :
  let s := demo_state [] [] 5000%Z [] in
  Forall schema_account (user_connectedAccounts alice) /\
  publish_iteration demo_env job1 alice "twitter" ([], []) s
    = (Ok ([], [mkErrorEntry "twitter" "Account not connected or inactive"]), s) /\
  attempt demo_env job1 alice "twitter" s = (Ok false, s).
Proof.
  intros s.
  pose proof alice_schema as Hschema.
  split; [exact Hschema|].
  apply (unsupported_target_never_published demo_env job1 alice "twitter" [] [] s);
    [exact Hschema|reflexivity|reflexivity].
Defined.

Lemma switch_without_default_records_success_witness :
  let s := demo_state [] [] 5000%Z [] in
  find_connectedAccount carol "twitter" = Some carol_twitter /\
  publish_iteration demo_env job1 carol "twitter" ([], []) s
    = (Ok ([mkResultEntry "twitter" true None], []), s) /\
  attempt demo_env job1 carol "twitter" s = (Ok true, s).
Proof.
  intros s. split; [reflexivity|].
  apply (switch_without_default_records_success demo_env job1 carol carol_twitter
           "twitter" [] [] s); reflexivity.
Defined.

Lemma pass_settles_owned_jobs_witness :
  let s := demo_state [job1; orphan] [] 5000%Z [] in
  select_due s = (Ok [job1; orphan], s) /\
  terminal_stored (post_id job1) (snd (checkScheduledPosts demo_env s)) /\
  forall times batch' s',
    select_due (ticks demo_env times (snd (checkScheduledPosts demo_env s)))
      = (Ok batch', s') ->
    ~ In (post_id job1) (map post_id batch').
Proof.
  intros s. split; [reflexivity|].
  apply (pass_settles_owned_jobs demo_env s [job1; orphan] s job1);
    [reflexivity|reflexivity|by left|discriminate].
Defined.

Lemma dispatch_rejects_iff_witness :
  let s := demo_state [job1] [true; true] 5000%Z [] in
  exists e, fst (processScheduledPost demo_env job1 s) = Throw e.
Proof.
  intros s. apply (dispatch_rejects_iff demo_env job1 s).
  left. split; reflexivity.
Defined.

Lemma rejected_dispatch_ends_the_pass_witness :
  let s := demo_state [job1; job2] [false; true; true] 5000%Z [] in
  let s0 := answered s in
  let s2 := answered (answered s0) in
  select_due s = (Ok [job1; job2], s0) /\
  processScheduledPost demo_env job1 s0 = (Throw "store unavailable", s2) /\
  checkScheduledPosts demo_env s = (Ok tt, s2) /\
  st_posts s2 = [job1; job2].
Proof.
  intros s s0 s2. split; [reflexivity|]. split; [reflexivity|].
  split; [|reflexivity].
  apply (rejected_dispatch_ends_the_pass demo_env s [] job1 [job2] s0 s0
           "store unavailable" s2); reflexivity.
Defined.

Lemma immediate_same_as_dispatch_witness :
  let req := demo_publish ["facebook"; "instagram"] None in
  let s := demo_state [] [] 5000%Z ["instagram"] in
  written req job1 /\
  exists results errors errors' s',
    publish_now_loop demo_env (post_content job1) (body_mediaUrl req)
                     (post_targets job1) alice s
      = (Ok (results, errors), s') /\
    publish_loop demo_env job1 alice s = (Ok (results, errors'), s') /\
    map ee_platform errors = map ee_platform errors'.
Proof.
  intros req s.
  assert (written req job1) as Hw by (by repeat split).
  split; [exact Hw|].
  apply (immediate_same_as_dispatch demo_env req job1 alice s);
    [exact Hw|discriminate|reflexivity|apply alice_schema].
Defined.


Lemma published_but_not_recorded_witness :
  let req := demo_publish ["Facebook"] None in
  let s := demo_state [] [] 5000%Z [] in
  schema_accepts "hello" ["Facebook"] = false /\
  exists results errors s1 e s',
    publish_now_loop demo_env "hello" (body_mediaUrl req) ["Facebook"] alice
                     (answered s)
      = (Ok (results, errors), s1) /\
    publishToSocialMedia demo_env demo_oracles req s
      = (Ok (PublishPlain (mkJson 500 false "Error publishing post" (Some e))), s') /\
    st_posts s' = st_posts s /\ st_calls s' = st_calls s1.
Proof.
  intros req s. split; [reflexivity|].
  apply (published_but_not_recorded demo_env demo_oracles req "hello" ["Facebook"]
           alice s);
    [reflexivity|discriminate|reflexivity|discriminate|reflexivity|reflexivity
    |reflexivity|by left].
Defined.

Lemma disconnected_platform_not_dispatched_witness :
  let s := demo_state [] [] 5000%Z [] in
  valid_user alice = true /\
  exists j s' user',
    disconnect demo_env demo_oracles Facebook "alice" s = (Ok j, s') /\
    json_status j = 200 /\
    find_user "alice" s' = Some user' /\
    accounts_of "facebook" (user_connectedAccounts user') = [] /\
    (forall q, q <> "facebook" ->
               accounts_of q (user_connectedAccounts user')
                 = accounts_of q (user_connectedAccounts alice)) /\
    forall post results errors (s2 : @State (list string)),
      publish_iteration demo_env post user' "facebook" (results, errors) s2
        = (Ok (results,
               errors ++ [mkErrorEntry "facebook"
                                       "Account not connected or inactive"]), s2).
Proof.
  intros s. split; [reflexivity|].
  apply (disconnected_platform_not_dispatched demo_env demo_oracles Facebook
           "alice" alice s); reflexivity.
Defined.

Lemma link_then_disconnect_restores_witness :
  let s := demo_state [] [] 5000%Z [] in
  valid_user alice = true /\
  valid_account (new_connection (demo_account Pinterest)) = true /\
  accounts_of "pinterest" (user_connectedAccounts alice) = [] /\
  exists s1 j s2,
    saveAccountToStorage demo_env "alice" "pinterest" (demo_account Pinterest) None s
      = (Ok tt, s1) /\
    find_user "alice" s1
      = Some (set_connectedAccounts
                (user_connectedAccounts alice
                 ++ [new_connection (demo_account Pinterest)]) alice) /\
    disconnect demo_env demo_oracles Pinterest "alice" s1 = (Ok j, s2) /\
    json_status j = 200 /\
    find_user "alice" s2 = Some alice.
Proof.
  intros s. split; [reflexivity|]. split; [reflexivity|]. split; [reflexivity|].
  apply (link_then_disconnect_restores demo_env demo_oracles Pinterest "alice"
           (demo_account Pinterest) None alice s); reflexivity.
Defined.

Lemma toggle_like_keeps_count_witness :
  likes_ok (mkLikes ["bob"; "alice"] 2) /\
  likes_ok (toggle_like "alice" (mkLikes ["bob"; "alice"] 2)).
Proof.
  assert (likes_ok (mkLikes ["bob"; "alice"] 2)) as Hok.
  { split; [|reflexivity]. cbn [likes].
    repeat constructor; rewrite ?list_elem_of_In; simpl; intuition discriminate. }
  split; [exact Hok|].
  apply (toggle_like_keeps_count "alice" (mkLikes ["bob"; "alice"] 2) Hok).
Defined.

Lemma demo_graph_answers : answers demo_graph demo_linked.
Proof. by intros [id tok] w. Defined.

Lemma first_linked_page_is_taken_witness :
  let s := demo_state [] [] 5000%Z [] in
  let chosen := mkGraphPage "page-2" "tok-2" in
  exists w,
    find_business_account demo_graph demo_graph_pages s
      = (Ok (Some (mkIgAccount "ig-of-page-2" "alice", chosen)), set_world w s) /\
    find_business_account demo_graph [mkGraphPage "page-1" "tok-1"; chosen] s
      = (Ok (Some (mkIgAccount "ig-of-page-2" "alice", chosen)), set_world w s).
Proof.
  intros s chosen.
  apply (first_linked_page_is_taken demo_graph demo_linked
           [mkGraphPage "page-1" "tok-1"] chosen [mkGraphPage "page-3" "tok-3"]
           (mkIgAccount "ig-of-page-2" "alice") s);
    [apply demo_graph_answers|by repeat constructor|reflexivity].
Defined.


Lemma instagram_flow_needs_linked_page_witness :
  let s := demo_state [] [] 5000%Z [] in
  demo_linked (mkGraphPage "page-1" "tok-1") = None /\
  exists data s',
    instagramService_completeOAuthFlow demo_graph "code-1" s = (Ok data, s') /\
    ad_accountId data = "ig-of-page-2" /\
    ad_accountName data = "alice" /\
    ad_pageAccessToken data = Some "tok-2".
Proof.
  intros s. split; [reflexivity|].
  destruct (instagram_flow_needs_linked_page demo_graph demo_linked "code-1"
              "short-token" (mkLongLivedData "long-token" None) demo_graph_pages
              (st_world s) (st_world s) (st_world s) s
              demo_graph_answers eq_refl eq_refl eq_refl) as [_ Hlinked].
  apply (Hlinked [mkGraphPage "page-1" "tok-1"] (mkGraphPage "page-2" "tok-2")
                 [mkGraphPage "page-3" "tok-3"]
                 (mkIgAccount "ig-of-page-2" "alice"));
    [reflexivity|by repeat constructor|reflexivity].
Defined.

Lemma model_lookup_agrees_witness :
  find_connectedAccount alice "Instagram" = getConnectedAccount alice "instagram" /\
  (isAccountConnected alice "instagram" = true <->
   find_connectedAccount alice "Instagram" <> None).
Proof. apply (model_lookup_agrees alice "Instagram" alice_schema). Defined.

Lemma model_sees_link_and_unlink_witness :
  let data := demo_account Pinterest in
  let linked :=
    set_connectedAccounts
      (relinked "pinterest" data (user_connectedAccounts alice)) alice in
  let removed :=
    set_connectedAccounts
      (unlinked "pinterest" (user_connectedAccounts linked)) linked in
  getConnectedAccount linked "pinterest" = Some (new_connection data) /\
  isAccountConnected linked "pinterest" = true /\
  getConnectedAccount removed "pinterest" = None /\
  isAccountConnected removed "pinterest" = false.
Proof.
  apply (model_sees_link_and_unlink "pinterest" (demo_account Pinterest) alice).
  reflexivity.
Defined.
